(** * atGaussianWidth: Gaussian-weighted focus moments and the sigma solver

    A shallow embedding of [atGaussianWidth.c] (astrotools 5.24, DA/src):
    [atSetFSigma] (filter generation), [lgausmom] (integer moment sums),
    [atFindFocMom] (3x3 peak location and quadratic interpolation) and
    [atSigmaFind] (the outer fixed-point iteration).

    Conventions of the embedding.
    - A C [int] is a [Z] kept in the signed 32-bit range; every C
      arithmetic operation on ints is followed by [wrap].  [short] and
      [U16] values are [Z] as well.
    - A C [double] is an IEEE binary64 value and a C [float] an IEEE
      binary32 value, both carried as [spec_float] and computed with the
      operations of [SpecFloat] at precision 53/1024 and 24/128.  The two
      are kept in two record types so that every promotion ([f2d]) and
      every rounding on assignment ([d2f]) of the C text is written out.
    - The file-static variables form the record [fstate], passed in and
      out of the functions that touch it.
    - A call either returns ([Done]) or leaves defined behaviour
      ([Fault]): a failed [shAssert], a read or write outside an array,
      or a floating value converted to an integer type that cannot hold
      it. *)

From Stdlib Require Import ZArith Lia Bool.
From Stdlib Require Import Floats.
From Stdlib Require Import Setoid Morphisms.
From stdpp Require Import base option list.

Set Warnings "-inexact-float".
Local Open Scope Z_scope.

(** ** Machine integers *)

Definition wrap (z : Z) : Z := (z + 2^31) mod 2^32 - 2^31.

Definition in_int (z : Z) : bool := (- 2^31 <=? z) && (z <=? 2^31 - 1).
Definition in_short (z : Z) : bool := (- 2^15 <=? z) && (z <=? 2^15 - 1).

Declare Scope int_scope.
Delimit Scope int_scope with int.

Definition iadd (a b : Z) : Z := wrap (a + b).
Definition isub (a b : Z) : Z := wrap (a - b).
Definition imul (a b : Z) : Z := wrap (a * b).
(** [>>] on a signed int: arithmetic shift. *)
Definition ishr (a k : Z) : Z := Z.shiftr a k.

Arguments iadd (a b)%_int.
Arguments isub (a b)%_int.
Arguments imul (a b)%_int.
Arguments ishr (a k)%_int.

Infix "+" := iadd : int_scope.
Infix "-" := isub : int_scope.
Infix "*" := imul : int_scope.
Infix ">>" := ishr (at level 35) : int_scope.

(** ** Floating point *)

Record double := D64 { d_bits : spec_float }.
Record float32 := F32 { f_bits : spec_float }.

(** Rounds a finite value to the format [prec]/[emax] (to nearest, ties
    to even; overflow gives an infinity), and puts its mantissa in
    canonical form; zeros, infinities and NaN are kept. *)
Definition renorm (prec emax : Z) (x : spec_float) : spec_float :=
  match x with
  | S754_finite s m e => binary_normalize prec emax (cond_Zopp s (Zpos m)) e s
  | _ => x
  end.

Definition f2d (a : float32) : double := D64 (renorm 53 1024 (f_bits a)).
Definition d2f (a : double) : float32 := F32 (renorm 24 128 (d_bits a)).
Definition i2d (z : Z) : double := D64 (binary_normalize 53 1024 z 0 false).
Definition i2f (z : Z) : float32 := F32 (binary_normalize 24 128 z 0 false).

Definition dadd (a b : double) := D64 (SFadd 53 1024 (d_bits a) (d_bits b)).
Definition dsub (a b : double) := D64 (SFsub 53 1024 (d_bits a) (d_bits b)).
Definition dmul (a b : double) := D64 (SFmul 53 1024 (d_bits a) (d_bits b)).
Definition ddiv (a b : double) := D64 (SFdiv 53 1024 (d_bits a) (d_bits b)).
Definition dsqrt (a : double) := D64 (SFsqrt 53 1024 (d_bits a)).
Definition dopp (a : double) := D64 (SFopp (d_bits a)).
Definition dabs (a : double) := D64 (SFabs (d_bits a)).
Definition dlt (a b : double) : bool := SFltb (d_bits a) (d_bits b).
Definition dle (a b : double) : bool := SFleb (d_bits a) (d_bits b).
Definition deq (a b : double) : bool := SFeqb (d_bits a) (d_bits b).

Definition fadd (a b : float32) := F32 (SFadd 24 128 (f_bits a) (f_bits b)).
Definition fsub (a b : float32) := F32 (SFsub 24 128 (f_bits a) (f_bits b)).
Definition fmul (a b : float32) := F32 (SFmul 24 128 (f_bits a) (f_bits b)).
Definition fdiv (a b : float32) := F32 (SFdiv 24 128 (f_bits a) (f_bits b)).
Definition fopp (a : float32) := F32 (SFopp (f_bits a)).
Definition flt (a b : float32) : bool := SFltb (f_bits a) (f_bits b).
Definition feq (a b : float32) : bool := SFeqb (f_bits a) (f_bits b).

Declare Scope dbl_scope.
Delimit Scope dbl_scope with dbl.
Bind Scope dbl_scope with double.
Infix "+" := dadd : dbl_scope.
Infix "-" := dsub : dbl_scope.
Infix "*" := dmul : dbl_scope.
Infix "/" := ddiv : dbl_scope.
Notation "- x" := (dopp x) : dbl_scope.
Infix "<?" := dlt : dbl_scope.
Infix "<=?" := dle : dbl_scope.
Infix "=?" := deq : dbl_scope.

Declare Scope flt_scope.
Delimit Scope flt_scope with flt.
Bind Scope flt_scope with float32.
Infix "+" := fadd : flt_scope.
Infix "-" := fsub : flt_scope.
Infix "*" := fmul : flt_scope.
Infix "/" := fdiv : flt_scope.
Notation "- x" := (fopp x) : flt_scope.
Infix "<?" := flt : flt_scope.
Infix "=?" := feq : flt_scope.

(** A decimal constant of the C text, as the nearest binary64 value. *)
Definition dlit (x : PrimFloat.float) : double := D64 (Prim2SF x).

(** Conversion of a floating value to an integer type: the fractional
    part is discarded; the behaviour is undefined (here [None]) when the
    truncated value does not fit, or for an infinity or a NaN. *)
Definition trunc (x : spec_float) : option Z :=
  match x with
  | S754_zero _ => Some 0
  | S754_finite s m e => Some (cond_Zopp s (Z.shiftl (Zpos m) e))
  | _ => None
  end.

Definition d2i (a : double) : option Z :=
  z ← trunc (d_bits a); if in_int z then Some z else None.
Definition d2short (a : double) : option Z :=
  z ← trunc (d_bits a); if in_short z then Some z else None.
Definition f2short (a : float32) : option Z :=
  z ← trunc (f_bits a); if in_short z then Some z else None.

(** ** Outcomes *)

Inductive fault := AssertFailed | OutOfBounds | ConvRange.

Inductive outcome (A : Type) :=
  | Done (a : A)
  | Fault (f : fault).
Arguments Done {A} a.
Arguments Fault {A} f.

Definition obind {A B} (o : outcome A) (k : A -> outcome B) : outcome B :=
  match o with
  | Done a => k a
  | Fault f => Fault f
  end.

Definition conv {A} (o : option A) : outcome A :=
  match o with
  | Some a => Done a
  | None => Fault ConvRange
  end.

Definition access {A} (o : option A) : outcome A :=
  match o with
  | Some a => Done a
  | None => Fault OutOfBounds
  end.

Notation "'let*' x := c 'in' k" := (obind c (fun x => k))
  (at level 10, x pattern, c at level 100, k at level 200).

(** ** Constants of the source *)

Definition SIZFIL : Z := 50.
Definition FINDERR : Z := 15.
Definition SIGITERAT : Z := 10.
Definition DXF : double := Eval vm_compute in dlit 0.5.
Definition DYF : double := Eval vm_compute in dlit 0.5.
Definition EPS : double := Eval vm_compute in dlit 1e-10.
Definition SIGGUESS : double := Eval vm_compute in dlit 1.2.
Definition SIGERR : double := Eval vm_compute in dlit 1e-2.

Definition d0 : double := Eval vm_compute in dlit 0.
Definition d0_5 : double := Eval vm_compute in dlit 0.5.
Definition d1 : double := Eval vm_compute in dlit 1.
Definition dm1 : double := Eval vm_compute in dlit (-1).
Definition d1_5 : double := Eval vm_compute in dlit 1.5.
Definition d2 : double := Eval vm_compute in dlit 2.
Definition d4 : double := Eval vm_compute in dlit 4.
Definition d12 : double := Eval vm_compute in dlit 12.
Definition d32 : double := Eval vm_compute in dlit 32.
Definition d512 : double := Eval vm_compute in dlit 512.

(** ** The file-static state *)

Record fstate := FState {
  fgarray : list Z;
  xfgarray : list Z;
  x2fgarray : list Z;
  sig_ncut : Z;
  sigmagen : double
}.

(** The state at program start: statics are zero-initialised. *)
Definition fstate0 : fstate :=
  FState (replicate 50 0) (replicate 50 0) (replicate 50 0) 0 d0.

(** Array cell [a[i]]: [None] outside the array. *)
Definition cell {A} (a : list A) (i : Z) : option A :=
  if 0 <=? i then a !! Z.to_nat i else None.

(** Array store [a[i] = v]: [None] outside the array. *)
Definition store {A} (a : list A) (i : Z) (v : A) : option (list A) :=
  if (0 <=? i) && (i <? Z.of_nat (length a))
  then Some (<[Z.to_nat i := v]> a) else None.

(** ** atSetFSigma *)

Section Filter.

(** [exp] of the C library, which the source calls and does not define. *)
Variable exp : double -> double.

(** One pass of the generating loop, for tap [i]. *)
Definition gen_tap (sig2inv siginv edge : float32) (i : Z) (st : fstate)
  : outcome fstate :=
  let isig2 := d2f (i2d i) in
  let isig2 := (isig2 * isig2 * sig2inv)%flt in
  let gau := d2f (d512 * exp (f2d (- isig2)%flt) - f2d edge + d0_5)%dbl in
  let* fg := conv (f2short gau) in
  let* fga := access (store (fgarray st) i fg) in
  let* xfg := conv (f2short (i2f i * gau * siginv)%flt) in
  let* xfga := access (store (xfgarray st) i xfg) in
  let* x2fg := conv (d2short (d2 * f2d gau * f2d isig2)%dbl) in
  let* x2fga := access (store (x2fgarray st) i x2fg) in
  (* the local [sum] is accumulated here and never read: left out *)
  let nc := if (x2fg =? 0) && negb (i =? 0) then i else sig_ncut st in
  Done (FState fga xfga x2fga nc (sigmagen st)).

(** [for(i=i0; i<i0+n; i++)] over [gen_tap]. *)
Fixpoint gen_loop (sig2inv siginv edge : float32) (n : nat) (i : Z)
  (st : fstate) : outcome fstate :=
  match n with
  | O => Done st
  | S n' =>
      let* st' := gen_tap sig2inv siginv edge i st in
      gen_loop sig2inv siginv edge n' (i + 1) st'
  end.

(** [for(i=i0; i<SIZFIL; i++) fgarray[i] = 0], with [n] passes left. *)
Fixpoint zero_loop (n : nat) (i : Z) (fg : list Z) : outcome (list Z) :=
  match n with
  | O => Done fg
  | S n' =>
      let* fg' := access (store fg i 0) in
      zero_loop n' (i + 1) fg'
  end.

Definition atSetFSigma (st : fstate) (sigma : double)
  : outcome (Z * fstate) :=
  if (sigma <=? d0)%dbl || (d12 <? sigma)%dbl then Done (-1, st)
  else if (sigma =? sigmagen st)%dbl then Done (0, st)
  else
    let* ncut := conv (d2i (d4 * sigma + d1_5)%dbl) in
    let sig2inv := d2f (d0_5 / (sigma * sigma))%dbl in
    let siginv := d2f (d1 / sigma)%dbl in
    let edge := d2f (d512 * exp (- i2d (ncut * ncut)%int * f2d sig2inv))%dbl in
    let st1 := FState (fgarray st) (xfgarray st) (x2fgarray st) ncut sigma in
    let* st2 := gen_loop sig2inv siginv edge (Z.to_nat ncut) 0 st1 in
    let* fg := zero_loop (Z.to_nat (SIZFIL - ncut)) ncut (fgarray st2) in
    Done (0, FState fg (xfgarray st2) (x2fgarray st2) (sig_ncut st2)
               (sigmagen st2)).

End Filter.

(** A reference [exp] used to run the model on concrete inputs: argument
    reduction by multiples of ln 2 and a Taylor polynomial of degree 18. *)
Definition ln2_hi : double := Eval vm_compute in dlit 0x1.62e42feep-1.
Definition ln2_lo : double := Eval vm_compute in dlit 0x1.a39ef35793c76p-33.
Definition inv_ln2 : double := Eval vm_compute in dlit 0x1.71547652b82fep0.

Fixpoint exp_horner (n : nat) (k : Z) (r acc : double) : double :=
  match n with
  | O => acc
  | S n' => exp_horner n' (k - 1) r (d1 + r * acc / i2d k)%dbl
  end.

Definition exp_ref (x : double) : double :=
  match d_bits x with
  | S754_nan => x
  | S754_infinity false => x
  | S754_infinity true => d0
  | S754_zero _ => d1
  | S754_finite s _ _ =>
      if (x <? dlit (-746))%dbl then d0
      else if (dlit 710 <? x)%dbl then D64 (S754_infinity false)
      else
        let t := (x * inv_ln2 + (if s then - d0_5 else d0_5))%dbl in
        let k := default 0 (trunc (d_bits t)) in
        let r := (x - i2d k * ln2_hi - i2d k * ln2_lo)%dbl in
        D64 (SFldexp 53 1024 (d_bits (exp_horner 18 18 r d1)) k)
  end.

(** ** lgausmom *)

(** Modelled from the spec: the structure [GAUSSMOM] is declared in
    [atGaussianWidth.h], which is not among the sources.  The fields are
    those of the spec's GaussianMoments record, named as the C text
    names them, and held as C [float], like every real-valued local of
    the functions that fill them. *)
Record GAUSSMOM := GaussMom {
  g_xmom : float32;
  g_ymom : float32;
  g_pmom : float32;
  g_mmom : float32;
  g_filval : float32;
  g_xf : float32;
  g_yf : float32
}.

Definition f0 : float32 := F32 (S754_zero false).

(** Stands for a [GAUSSMOM] the C text leaves uninitialised; such a
    structure is always written before any of its fields is read. *)
Definition gmom0 : GAUSSMOM := GaussMom f0 f0 f0 f0 f0 f0 f0.

(** The image [const U16 **p]: rows of 16-bit samples. *)
Definition image := list (list Z).

(** The sample [p[r][c]]; [None] outside the rows or outside a row. *)
Definition pix (p : image) (r c : Z) : option Z :=
  row ← cell p r; cell row c.

(** The three per-ring partial sums. *)
Record ring := Ring { lsum : Z; lxsum : Z; lx2sum : Z }.

(** One pass of the [while(n)] loop of the central ring ([i == 0]) on
    row [yp = y+i], at column offset [j = ncut - n]. *)
Definition ring0_tap (st : fstate) (p : image) (x yp sky2 j : Z) (a : ring)
  : outcome ring :=
  let* pp := access (pix p yp (x + j)) in
  let* pm := access (pix p yp (x - j)) in
  let* fg := access (cell (fgarray st) j) in
  let* xfg := access (cell (xfgarray st) j) in
  let* x2fg := access (cell (x2fgarray st) j) in
  let psum := (pp + pm - sky2)%int in
  Done (Ring (lsum a + psum * fg)%int
             (lxsum a + (pp - pm - sky2) * xfg)%int
             (lx2sum a + psum * x2fg)%int).

(** One pass of the [while(n)] loop of a ring [i != 0]: rows [yp = y+i]
    and [ym = y-i]. *)
Definition ringi_tap (st : fstate) (p : image) (x yp ym sky4 j : Z) (a : ring)
  : outcome ring :=
  let* pp := access (pix p yp (x + j)) in
  let* pm := access (pix p yp (x - j)) in
  let* mp := access (pix p ym (x + j)) in
  let* mm := access (pix p ym (x - j)) in
  let* fg := access (cell (fgarray st) j) in
  let* xfg := access (cell (xfgarray st) j) in
  let* x2fg := access (cell (x2fgarray st) j) in
  let psum := (pp + pm + mp + mm - sky4)%int in
  Done (Ring (lsum a + psum * fg)%int
             (lxsum a + (pp - pm - mp + mm) * xfg)%int
             (lx2sum a + psum * x2fg)%int).

(** [while(n){ ...; n--; }] with [n] passes left and [j = ncut - n]. *)
Fixpoint taps (tap : Z -> ring -> outcome ring) (n : nat) (j : Z) (a : ring)
  : outcome ring :=
  match n with
  | O => Done a
  | S n' => let* a' := tap j a in taps tap n' (j + 1) a'
  end.

(** The partial sums of ring [i], lines 211-240.  The body runs inside
    [for(i=0; i<ncut; i++)], hence with [ncut >= 1], so that
    [n = ncut-1] is not negative and [while(n)] makes [n] passes. *)
Definition ring_sums (st : fstate) (p : image) (x y sky i : Z)
  : outcome ring :=
  let ncut := sig_ncut st in
  let sky2 := (2 * sky)%int in
  let sky4 := (4 * sky)%int in
  let yp := (y + i)%int in
  let ym := (y - i)%int in
  let n := Z.to_nat (ncut - 1) in
  if i =? 0 then
    let* c := access (pix p yp x) in
    let* fg0 := access (cell (fgarray st) 0) in
    taps (ring0_tap st p x yp sky2) n 1 (Ring ((c - sky) * fg0)%int 0 0)
  else
    let* cp := access (pix p yp x) in
    let* cm := access (pix p ym x) in
    let* fg0 := access (cell (fgarray st) 0) in
    taps (ringi_tap st p x yp ym sky4) n 1
         (Ring ((cp + cm - sky2) * fg0)%int 0 0).

(** The four running totals. *)
Record sums := Sums { s_sum : Z; s_x2sum : Z; s_y2sum : Z; s_xysum : Z }.

(** Lines 252-265: ring [i] is added to the totals. *)
Definition add_ring (st : fstate) (i : Z) (r : ring) (t : sums)
  : outcome sums :=
  let* fg := access (cell (fgarray st) i) in
  let* xfg := access (cell (xfgarray st) i) in
  let* x2fg := access (cell (x2fgarray st) i) in
  if 0xfffff <? lsum r then
    let l := (lsum r >> 8)%int in
    let lx := (lxsum r >> 8)%int in
    let lx2 := (lx2sum r >> 8)%int in
    Done (Sums (s_sum t + l * fg)%int
               (s_x2sum t + lx2 * fg)%int
               (s_y2sum t + l * x2fg)%int
               (s_xysum t + lx * xfg)%int)
  else
    Done (Sums (s_sum t + ((lsum r * fg) >> 8))%int
               (s_x2sum t + ((lx2sum r * fg) >> 8))%int
               (s_y2sum t + ((lsum r * x2fg) >> 8))%int
               (s_xysum t + ((lxsum r * xfg) >> 8))%int).

(** [for(i=i0; i<ncut; i++)] with [n] passes left. *)
Fixpoint rings (st : fstate) (p : image) (x y sky : Z) (n : nat) (i : Z)
  (t : sums) : outcome sums :=
  match n with
  | O => Done t
  | S n' =>
      let* r := ring_sums st p x y sky i in
      let* t' := add_ring st i r t in
      rings st p x y sky n' (i + 1) t'
  end.

(** Lines 206-271: the totals after the final shift by 5 bits. *)
Definition moment_sums (st : fstate) (p : image) (x y sky : Z)
  : outcome sums :=
  let* t := rings st p x y sky (Z.to_nat (sig_ncut st)) 0 (Sums 0 0 0 0) in
  Done (Sums (s_sum t >> 5)%int (s_x2sum t >> 5)%int
             (s_y2sum t >> 5)%int (s_xysum t >> 5)%int).

(** Lines 274-292. *)
Definition finish (t : sums) (ps : GAUSSMOM) : Z * GAUSSMOM :=
  let fsum := i2f (s_sum t) in
  if (fsum =? i2f 0)%flt then (-1, ps)
  else
    let x2mom := d2f (i2d (2 * s_x2sum t - s_sum t)%int / f2d fsum)%dbl in
    let y2mom := d2f (i2d (2 * s_y2sum t - s_sum t)%int / f2d fsum)%dbl in
    let pmom :=
      d2f (i2d (s_x2sum t - 2 * s_xysum t + s_y2sum t - s_sum t)%int
           / f2d fsum)%dbl in
    let mmom :=
      d2f (i2d (s_x2sum t + 2 * s_xysum t + s_y2sum t - s_sum t)%int
           / f2d fsum)%dbl in
    (0, GaussMom x2mom y2mom pmom mmom fsum (g_xf ps) (g_yf ps)).

(** The line an edge test prints before it returns. *)
Inductive diag := DiagA | DiagB.

(** The two edge tests of lines 203 and 204. *)
Definition edge_test (st : fstate) (ysz y : Z) : option diag :=
  if ysz <? (sig_ncut st + y)%int then Some DiagA
  else if (y + 1)%int <? sig_ncut st then Some DiagB
  else None.

(** [lgausmom(p,xsz,ysz,x,y,sky,ps)] with [ps] not null: the value
    returned, the structure [*ps] afterwards, and the line printed. *)
Definition lgausmom (st : fstate) (p : image) (xsz ysz x y sky : Z)
  (ps : GAUSSMOM) : outcome (Z * GAUSSMOM * option diag) :=
  if (sigmagen st =? d0)%dbl then Fault AssertFailed
  else
    match edge_test st ysz y with
    | Some d => Done (-1, ps, Some d)
    | None =>
        let* t := moment_sums st p x y sky in
        Done (finish t ps, None)
    end.

(** ** atFindFocMom *)

(** [val[i][j]] is [sq[3*i+j]]. *)
Definition val (sq : list GAUSSMOM) (i j : Z) : GAUSSMOM :=
  default gmom0 (sq !! Z.to_nat (3 * i + j)).
Definition set_val (sq : list GAUSSMOM) (i j : Z) (m : GAUSSMOM)
  : list GAUSSMOM :=
  <[Z.to_nat (3 * i + j) := m]> sq.

(** The pairs [(i,j)] the double loop of lines 402-427 visits, in its
    order: all of the 3x3 grid but the centre [(1,1)]. *)
Definition neighbours : list (Z * Z) :=
  [(0,0); (0,1); (0,2); (1,0); (1,2); (2,0); (2,1); (2,2)].

Inductive scan_result :=
  | ScanErr                                   (* an evaluation failed *)
  | ScanMove (dx dy : Z) (sq : list GAUSSMOM) (* a neighbour is higher *)
  | ScanOk (sq : list GAUSSMOM).              (* the centre is a maximum *)

(** The double loop over the neighbours still to visit. *)
Fixpoint scan (st : fstate) (p : image) (xsz ysz x y sky : Z) (vc : float32)
  (todo : list (Z * Z)) (sq : list GAUSSMOM) : outcome scan_result :=
  match todo with
  | [] => Done (ScanOk sq)
  | (i, j) :: rest =>
      let yp := (y + i - 1)%int in
      let xp := (x + j - 1)%int in
      let* res := lgausmom st p xsz ysz xp yp sky (val sq i j) in
      let '(r, m, _) := res in
      let sq' := set_val sq i j m in
      if r <? 0 then Done ScanErr
      else if (vc <? g_filval m)%flt then Done (ScanMove (j - 1) (i - 1) sq')
      else scan st p xsz ysz x y sky vc rest sq'
  end.

(** What one pass from the label [start] comes to, once [ret] has
    passed its test. *)
Inductive attempt_result :=
  | TryEdge                                  (* too close to an edge *)
  | TryMomErr                                (* lgausmom failed *)
  | TryMove (x y : Z) (sq : list GAUSSMOM)   (* [goto start] from there *)
  | TryMax (vc : float32) (sq : list GAUSSMOM).

(** Lines 394-427: the edge test, the centre and the double loop. *)
Definition attempt (st : fstate) (p : image) (xsz ysz sky x y : Z)
  (sq : list GAUSSMOM) : outcome attempt_result :=
  let ncut := sig_ncut st in
  if (x <? ncut) || (y <? ncut)
     || ((xsz - ncut - 1)%int <? x) || ((ysz - ncut - 1)%int <? y)
  then Done TryEdge
  else
    let* res := lgausmom st p xsz ysz x y sky (val sq 1 1) in
    let '(r, m, _) := res in
    let sq1 := set_val sq 1 1 m in
    if r <? 0 then Done TryMomErr
    else
      let vc := g_filval m in
      let* s := scan st p xsz ysz x y sky vc neighbours sq1 in
      match s with
      | ScanErr => Done TryMomErr
      | ScanMove dx dy sq' => Done (TryMove (x + dx)%int (y + dy)%int sq')
      | ScanOk sq' => Done (TryMax vc sq')
      end.

Inductive find_result :=
  | FindLimit                       (* [ret >= FINDERR]: return -1 *)
  | FindEdge                        (* too close to an edge: return -1 *)
  | FindMomErr                      (* lgausmom failed: return -2 *)
  | FindMax (x y ret : Z) (vc : float32) (sq : list GAUSSMOM).

(** The code from the label [start] to the end of the double loop.
    [k] is the number of tries left, so that [ret = FINDERR - k]: the
    test [ret >= FINDERR] is [k = 0], and each [goto start] comes with
    [ret++] and takes one from [k]. *)
Fixpoint find_start (st : fstate) (p : image) (xsz ysz sky : Z) (k : nat)
  (x y : Z) (sq : list GAUSSMOM) : outcome find_result :=
  match k with
  | O => Done FindLimit
  | S k' =>
      let* a := attempt st p xsz ysz sky x y sq in
      match a with
      | TryEdge => Done FindEdge
      | TryMomErr => Done FindMomErr
      | TryMove x' y' sq' => find_start st p xsz ysz sky k' x' y' sq'
      | TryMax vc sq' => Done (FindMax x y (FINDERR - Z.of_nat k) vc sq')
      end
  end.

(** [n] relocations in a row: the centres and grids that [n] passes
    ending in [goto start] go through. *)
Inductive relocates (st : fstate) (p : image) (xsz ysz sky : Z)
  : nat -> Z * Z * list GAUSSMOM -> Z * Z * list GAUSSMOM -> Prop :=
  | relocates_O c : relocates st p xsz ysz sky 0 c c
  | relocates_S n x y sq x' y' sq' c :
      attempt st p xsz ysz sky x y sq = Done (TryMove x' y' sq') ->
      relocates st p xsz ysz sky n (x', y', sq') c ->
      relocates st p xsz ysz sky (S n) (x, y, sq) c.

(** Curvature and slope of a triple of floats, as lines 430-448 and
    467-485 compute them: [2.*c - plus - minus] and [0.5*(plus - minus)]. *)
Definition curv (c plus minus : float32) : float32 :=
  d2f (d2 * f2d c - f2d plus - f2d minus)%dbl.
Definition slope (plus minus : float32) : float32 :=
  d2f (d0_5 * f2d (plus - minus)%flt)%dbl.

(** An interpolated moment, lines 487-490. *)
Definition interp (c s1 o1 s2 o2 c1 c2 : float32) : float32 :=
  d2f (f2d (c + s1 * o1 + s2 * o2)%flt
       - d0_5 * f2d (o1 * o1 * c1 + o2 * o2 * c2)%flt)%dbl.

(** Lines 430-492, at a centre [(x,y)] that is a maximum of its 3x3
    grid [sq]. *)
Definition fit (x y ret : Z) (vc : float32) (sq : list GAUSSMOM)
  (ps : GAUSSMOM) : Z * GAUSSMOM :=
  let fv i j := g_filval (val sq i j) in
  let d2x := curv vc (fv 1 2) (fv 1 0) in
  if (f2d d2x <? EPS)%dbl then (-3, ps) else
  let sx := slope (fv 1 2) (fv 1 0) in
  let dx := (sx / d2x)%flt in
  let d2y := curv vc (fv 2 1) (fv 0 1) in
  if (f2d d2y <? EPS)%dbl then (-3, ps) else
  let sy := slope (fv 2 1) (fv 0 1) in
  let dy := (sy / d2y)%flt in
  let d2p := curv vc (fv 2 2) (fv 0 0) in
  if (f2d d2p <? EPS)%dbl then (-3, ps) else
  let sp := slope (fv 2 2) (fv 0 0) in
  let dp := (sp / d2p)%flt in
  let d2m := curv vc (fv 2 0) (fv 0 2) in
  if (f2d d2m <? EPS)%dbl then (-3, ps) else
  let sm := slope (fv 2 0) (fv 0 2) in
  let dm := (sm / d2m)%flt in
  let xf := d2f (f2d (i2f x + dx)%flt + DXF)%dbl in
  let yf := d2f (f2d (i2f y + dy)%flt + DYF)%dbl in
  let v0 :=
    d2f (f2d vc + d0_5 * f2d ((sx * sx) / d2x + (sy * sy) / d2y)%flt)%dbl in
  let filval := d2f (f2d v0 / d32)%dbl in
  let xm i j := g_xmom (val sq i j) in
  let ym i j := g_ymom (val sq i j) in
  let pm i j := g_pmom (val sq i j) in
  let mm i j := g_mmom (val sq i j) in
  let xvc := xm 1 1 in
  let yvc := ym 1 1 in
  let pvc := pm 1 1 in
  let mvc := mm 1 1 in
  let xd2x := curv xvc (xm 1 2) (xm 1 0) in
  let xd2y := curv xvc (xm 2 1) (xm 0 1) in
  let xsx := slope (xm 1 2) (xm 1 0) in
  let xsy := slope (xm 2 1) (xm 0 1) in
  let yd2x := curv yvc (ym 1 2) (ym 1 0) in
  let yd2y := curv yvc (ym 2 1) (ym 0 1) in
  let ysx := slope (ym 1 2) (ym 1 0) in
  let ysy := slope (ym 2 1) (ym 0 1) in
  let pd2p := curv pvc (pm 2 2) (pm 0 0) in
  let pd2m := curv pvc (pm 2 0) (pm 0 2) in
  let psp := slope (pm 2 2) (pm 0 0) in
  let psm := slope (pm 2 0) (pm 0 2) in
  let md2p := curv mvc (mm 2 2) (mm 0 0) in
  let md2m := curv mvc (mm 2 0) (mm 0 2) in
  let msp := slope (mm 2 2) (mm 0 0) in
  let msm := slope (mm 2 0) (mm 0 2) in
  (ret,
   GaussMom (interp xvc xsx dx xsy dy xd2x xd2y)
            (interp yvc ysx dx ysy dy yd2x yd2y)
            (interp pvc psp dp psm dm pd2p pd2m)
            (interp mvc msp dp msm dm md2p md2m)
            filval xf yf).

(** [atFindFocMom(p,xsz,ysz,x,y,sky,ps)]: the value returned and [*ps]
    afterwards.  The local array [sq] starts uninitialised. *)
Definition atFindFocMom (st : fstate) (p : image) (xsz ysz x y sky : Z)
  (ps : GAUSSMOM) : outcome (Z * GAUSSMOM) :=
  let* r :=
    find_start st p xsz ysz sky (Z.to_nat FINDERR) x y (replicate 9 gmom0) in
  match r with
  | FindLimit => Done (-1, ps)
  | FindEdge => Done (-1, ps)
  | FindMomErr => Done (-2, ps)
  | FindMax x' y' ret vc sq => Done (fit x' y' ret vc sq ps)
  end.

(** ** atSigmaFind *)

Section Solver.

Variable exp : double -> double.

Inductive iter_result :=
  | IterReturn (code : Z)   (* a [return] inside the loop *)
  | IterBreak               (* one of the two [break]s *)
  | IterNext.               (* the end of the body is reached *)

(** The moment range tests of lines 567-570. *)
Definition out_of_range (m : float32) : bool :=
  (f2d m <=? dm1)%dbl || (d1 <=? f2d m)%dbl.

(** The body of the [for] loop, lines 561-574: what ends the pass, and
    the state, [*ps] and [*sig] after it. *)
Definition sigma_body (p : image) (xsz ysz x y sky : Z)
  (st : fstate) (ps : GAUSSMOM) (sig : double)
  : outcome (iter_result * fstate * GAUSSMOM * double) :=
  let* res := atSetFSigma exp st sig in
  let '(r, st1) := res in
  if r <? 0 then Done (IterReturn (-1), st1, ps, sig)
  else
    let sigold := d2f sig in
    let* res := atFindFocMom st1 p xsz ysz x y sky ps in
    let '(err, ps1) := res in
    if err <? 0 then Done (IterReturn (err - 3)%int, st1, ps1, sig)
    else
      let mom := (g_xmom ps1 + g_ymom ps1)%flt in
      if out_of_range (g_xmom ps1) || out_of_range (g_ymom ps1)
         || out_of_range (g_pmom ps1) || out_of_range (g_mmom ps1)
      then Done (IterReturn (-2), st1, ps1, sig)
      else if (dabs (f2d mom) <? SIGERR)%dbl
      then Done (IterBreak, st1, ps1, sig)
      else
        let sig' :=
          (sig * dsqrt ((d2 + f2d mom) / f2d (i2f 2 - mom)%flt))%dbl in
        if (d2 * dabs (f2d sigold - sig') <? SIGERR)%dbl
        then Done (IterBreak, st1, ps1, sig')
        else Done (IterNext, st1, ps1, sig').

Definition config : Type := fstate * GAUSSMOM * double.

(** [n] passes in a row that reach the end of the loop body. *)
Inductive passes (p : image) (xsz ysz x y sky : Z)
  : nat -> config -> config -> Prop :=
  | passes_O c : passes p xsz ysz x y sky 0 c c
  | passes_S n st ps sig st1 ps1 sig1 c :
      sigma_body p xsz ysz x y sky st ps sig
        = Done (IterNext, st1, ps1, sig1) ->
      passes p xsz ysz x y sky n (st1, ps1, sig1) c ->
      passes p xsz ysz x y sky (S n) (st, ps, sig) c.

(** [for(i=...; i<SIGITERAT; i++)] with [n = SIGITERAT - i] passes left,
    followed by lines 576-577. *)
Fixpoint sigma_loop (p : image) (xsz ysz x y sky : Z) (n : nat)
  (st : fstate) (ps : GAUSSMOM) (sig : double)
  : outcome (Z * fstate * GAUSSMOM * double) :=
  match n with
  | O => Done (-3, st, ps, sig)
  | S n' =>
      let* res := sigma_body p xsz ysz x y sky st ps sig in
      let '(r, st1, ps1, sig1) := res in
      match r with
      | IterReturn c => Done (c, st1, ps1, sig1)
      | IterBreak => Done (0, st1, ps1, sig1)
      | IterNext => sigma_loop p xsz ysz x y sky n' st1 ps1 sig1
      end
  end.

(** [atSigmaFind(p,xsz,ysz,x,y,sky,ps,sig)]; [ps = None] is the null
    pointer.  The result holds the value returned, the statics, the
    moment structure used and [*sig]. *)
Definition atSigmaFind (st : fstate) (p : image) (xsz ysz x y sky : Z)
  (ps : option GAUSSMOM) (sig : double)
  : outcome (Z * fstate * GAUSSMOM * double) :=
  let sig0 := if (sig <? i2d 0)%dbl then SIGGUESS else sig in
  sigma_loop p xsz ysz x y sky (Z.to_nat SIGITERAT) st (default gmom0 ps) sig0.

End Solver.

(** ** Vocabulary of the statements *)

(** Number of binary digits of a mantissa. *)
Definition digits (m : positive) : Z := Zpos (digits2_pos m).

(** The double [2.]. *)
Definition two64 : spec_float := S754_finite false 4503599627370496 (-51).

(** [v] is the trimmed length the generating loop leaves after the taps
    [lo <= j < hi], starting from [n0]: [n0] itself when no tap other
    than tap 0 has a zero second-order weight, and otherwise the last
    such tap. *)
Definition trimmed (x2 : list Z) (n0 lo hi v : Z) : Prop :=
  (v = n0 /\ forall j, lo <= j < hi -> j <> 0 -> cell x2 j <> Some 0)
  \/ (lo <= v < hi /\ v <> 0 /\ cell x2 v = Some 0
      /\ forall j, v < j < hi -> cell x2 j <> Some 0).

(** What holds of the statics once a filter has been generated, with
    [ncut] the half-width [(int)(4.*sigma + 1.5)] of the cached sigma:
    [fgarray] is zero from [ncut] on, and [sig_ncut] is [ncut] trimmed. *)
Definition kernel_inv (st : fstate) : Prop :=
  exists ncut,
    d2i (d4 * sigmagen st + d1_5)%dbl = Some ncut
    /\ (forall i, ncut <= i < SIZFIL -> cell (fgarray st) i = Some 0)
    /\ sig_ncut st <= ncut
    /\ trimmed (x2fgarray st) ncut 0 ncut (sig_ncut st).

(** The statics a program can reach: only [atSetFSigma] writes them. *)
Inductive reachable (exp : double -> double) : fstate -> Prop :=
  | reach_start : reachable exp fstate0
  | reach_call st sigma r st' :
      reachable exp st -> atSetFSigma exp st sigma = Done (r, st') ->
      reachable exp st'.

(** [sq] holds what [lgausmom] returns at [(x,y)] and at its eight
    neighbours, none of which has a higher [filval] than the centre. *)
Definition grid_at (st : fstate) (p : image) (xsz ysz sky x y : Z)
  (sq : list GAUSSMOM) : Prop :=
  (exists ps0, lgausmom st p xsz ysz x y sky ps0 = Done (0, val sq 1 1, None))
  /\ Forall (fun ij : Z * Z =>
               exists ps0,
                 lgausmom st p xsz ysz (x + ij.2 - 1)%int (y + ij.1 - 1)%int
                   sky ps0 = Done (0, val sq ij.1 ij.2, None)
                 /\ (g_filval (val sq 1 1) <? g_filval (val sq ij.1 ij.2))%flt
                    = false)
            neighbours.

(** One of the four curvatures (horizontal, vertical, two diagonals) of
    the grid [sq] around the centre value [vc] is below [EPS]. *)
Definition flat_test (vc : float32) (sq : list GAUSSMOM) : bool :=
  let fv i j := g_filval (val sq i j) in
  (f2d (curv vc (fv 1 2) (fv 1 0)) <? EPS)%dbl
  || (f2d (curv vc (fv 2 1) (fv 0 1)) <? EPS)%dbl
  || (f2d (curv vc (fv 2 2) (fv 0 0)) <? EPS)%dbl
  || (f2d (curv vc (fv 2 0) (fv 0 2)) <? EPS)%dbl.

(** The image of [ysz] rows and [xsz] columns whose samples all equal [c]. *)
Definition flat_image (xsz ysz c : Z) : image :=
  replicate (Z.to_nat ysz) (replicate (Z.to_nat xsz) c).

(** Every sample [lgausmom] reads at [(x,y)] lies in the image. *)
Definition inside (st : fstate) (xsz ysz x y : Z) : Prop :=
  sig_ncut st - 1 <= x /\ x + sig_ncut st <= xsz /\
  sig_ncut st - 1 <= y /\ y + sig_ncut st <= ysz.

(** The image has [ysz] rows of [xsz] samples, and the three filter
    arrays their [SIZFIL] entries, of which at most [SIZFIL] are in use. *)
Definition well_formed (st : fstate) (p : image) (xsz ysz : Z) : Prop :=
  length p = Z.to_nat ysz
  /\ Forall (fun row : list Z => length row = Z.to_nat xsz) p
  /\ length (fgarray st) = Z.to_nat SIZFIL
  /\ length (xfgarray st) = Z.to_nat SIZFIL
  /\ length (x2fgarray st) = Z.to_nat SIZFIL
  /\ 1 <= sig_ncut st <= SIZFIL
  /\ 0 <= xsz <= 2 ^ 31 - 1 /\ 0 <= ysz <= 2 ^ 31 - 1.

(** The mantissa has at most 53 digits and the exponent is not below
    the least one of binary64: what every valid double satisfies. *)
Definition fits53 (x : spec_float) : Prop :=
  match x with
  | S754_finite _ m e => digits m <= 53 /\ -1074 <= e
  | _ => True
  end.

(** A zero or a NaN. *)
Definition zero_or_nan (x : spec_float) : Prop :=
  match x with
  | S754_zero _ | S754_nan => True
  | _ => False
  end.

(** The three arrays have their [SIZFIL] entries; tap 0 of the first-
    and second-order filters is 0; and once a filter has been
    generated its length is between 1 and 49. *)
Definition filter_ok (st : fstate) : Prop :=
  length (fgarray st) = Z.to_nat SIZFIL
  /\ length (xfgarray st) = Z.to_nat SIZFIL
  /\ length (x2fgarray st) = Z.to_nat SIZFIL
  /\ cell (xfgarray st) 0 = Some 0
  /\ cell (x2fgarray st) 0 = Some 0
  /\ ((sigmagen st =? d0)%dbl = false -> 1 <= sig_ncut st <= SIZFIL - 1).

(** The image has [ysz] rows of [xsz] samples. *)
Definition image_ok (p : image) (xsz ysz : Z) : Prop :=
  length p = Z.to_nat ysz
  /\ Forall (fun row : list Z => length row = Z.to_nat xsz) p
  /\ 0 <= xsz <= 2 ^ 31 - 1 /\ 0 <= ysz <= 2 ^ 31 - 1.

(** The two states hold the same filter: the same length, the same
    taps below that length, and both generated or both not. *)
Definition taps_agree (sa sb : fstate) : Prop :=
  sig_ncut sa = sig_ncut sb
  /\ (sigmagen sa =? d0)%dbl = (sigmagen sb =? d0)%dbl
  /\ forall i, 0 <= i < sig_ncut sa ->
       cell (fgarray sa) i = cell (fgarray sb) i
       /\ cell (xfgarray sa) i = cell (xfgarray sb) i
       /\ cell (x2fgarray sa) i = cell (x2fgarray sb) i.

(** The two images hold the same samples in the square of half-width
    [r] around column [x] of row [y]. *)
Definition window_agree (pa pb : image) (x y r : Z) : Prop :=
  forall i j, y - r <= i <= y + r -> x - r <= j <= x + r ->
    pix pa i j = pix pb i j.

(** The image with [c] added to every sample. *)
Definition brighten (c : Z) (p : image) : image := map (map (Z.add c)) p.

(** The central ring gives the same [lsum] and [lx2sum]; its [lxsum]
    may differ. *)
Definition ring_sim (a b : outcome ring) : Prop :=
  match a, b with
  | Done r, Done r' => lsum r = lsum r' /\ lx2sum r = lx2sum r'
  | Fault f, Fault f' => f = f'
  | _, _ => False
  end.

(** ** Concrete inputs *)

Definition d12_01 : double := Eval vm_compute in dlit 12.01.
Definition d0_1 : double := Eval vm_compute in dlit 0.1.
Definition d0_9 : double := Eval vm_compute in dlit 0.9.

(** The statics after [atSetFSigma(1.)] at program start. *)
Definition st_sigma1 : fstate :=
  FState ([512; 311; 69; 6] ++ replicate 46 0)
         ([0; 311; 139; 18; 2] ++ replicate 45 0)
         ([0; 311; 279; 55; 10] ++ replicate 45 0)
         5 d1.

(** The statics after [atSetFSigma(0.1)] at program start: one tap. *)
Definition st_narrow : fstate :=
  FState (512 :: replicate 49 0) (replicate 50 0) (replicate 50 0) 1 d0_1.

(** A 12x12 image of constant value 100. *)
Definition flat12 : image := flat_image 12 12 100.

(** A 3x18 image rising by one per column and per row. *)
Definition ramp : image :=
  map (fun r => map (fun c => r + c + 1) (seqZ 0 18)) (seqZ 0 3).

(** A 3x11 image with a single peak at column 5 of the middle row. *)
Definition tent_row (d : Z) : list Z :=
  map (fun c => 70 - 10 * Z.abs (c - 5) - d) (seqZ 0 11).
Definition tent : image := [tent_row 15; tent_row 0; tent_row 15].

(** A 13x13 image of a round source of width 1 centred on (6,6). *)
Definition star (r c : Z) : Z :=
  match (r - 6) * (r - 6) + (c - 6) * (c - 6) with
  | 0 => 10000 | 1 => 6065 | 2 => 3679 | 4 => 1353 | 5 => 821 | 8 => 183
  | 9 => 111 | 10 => 67 | 13 => 15 | 16 => 3 | _ => 0
  end.
Definition star13 : image :=
  map (fun r => map (star r) (seqZ 0 13)) (seqZ 0 13).

(** The interpolated moments [atFindFocMom] returns on [tent] from the
    guess (3,1). *)
Definition tent_result : GAUSSMOM :=
  Eval vm_compute in
    match atFindFocMom st_narrow tent 11 3 3 1 0 gmom0 with
    | Done (_, g) => g
    | Fault _ => gmom0
    end.

(** A 3x7 image with a peak at column 3 of the middle row, steeper to
    the right and to the top than to the left and to the bottom. *)
Definition skew : image :=
  [[10; 20; 30; 40; 30; 20; 10];
   [20; 30; 50; 70; 40; 30; 20];
   [10; 20; 40; 60; 30; 20; 10]].

(** The interpolated moments [atFindFocMom] returns on [skew] from the
    guess (2,1). *)
Definition skew_result : GAUSSMOM :=
  Eval vm_compute in
    match atFindFocMom st_narrow skew 7 3 2 1 0 gmom0 with
    | Done (_, g) => g
    | Fault _ => gmom0
    end.

(** [star13] with every sample of the outermost rows and columns
    replaced by 500. *)
Definition star13_rim : image :=
  map (fun r =>
         map (fun c =>
                if (r =? 0) || (r =? 12) || (c =? 0) || (c =? 12)
                then 500 else star r c)
             (seqZ 0 13))
      (seqZ 0 13).

(** [tent] with twenty more columns to the right: ten of value 0, then
    ten of value [v]. *)
Definition tent_far (v : Z) : image :=
  map (fun row => row ++ replicate 10 0 ++ replicate 10 v) tent.

(** What [atSigmaFind] returns on [star13] from the guess 0.9. *)
Definition star_run : Z * fstate * GAUSSMOM * double :=
  Eval vm_compute in
    match atSigmaFind exp_ref fstate0 star13 13 13 6 6 0 None d0_9 with
    | Done r => r
    | Fault _ => (1, fstate0, gmom0, d0)
    end.

(** All three filter arrays are zero from the trimmed length on. *)
Definition kernel_tail_zero (st : fstate) : Prop :=
  forall i, sig_ncut st <= i < SIZFIL ->
    cell (fgarray st) i = Some 0 /\ cell (xfgarray st) i = Some 0
    /\ cell (x2fgarray st) i = Some 0.

(** The statics after [atSetFSigma(12.)] at program start. *)
Definition st_wide : fstate :=
  Eval vm_compute in
    match atSetFSigma exp_ref fstate0 d12 with
    | Done (_, s) => s
    | Fault _ => fstate0
    end.

(** The statics after [atSetFSigma(12.)] and then [atSetFSigma(1.)]. *)
Definition st_wide_then_1 : fstate :=
  Eval vm_compute in
    match atSetFSigma exp_ref st_wide d1 with
    | Done (_, s) => s
    | Fault _ => fstate0
    end.

(** * Proofs *)

(** Case analysis on the next step of a computation in [outcome]. *)
Ltac step_outcome :=
  match goal with
  | H : obind ?o _ = _ |- _ =>
      let E := fresh "E" in destruct o eqn:E; cbn [obind] in H; try discriminate H
  | H : (if ?b then _ else _) = _ |- _ =>
      let E := fresh "E" in destruct b eqn:E; try discriminate H
  | H : (let '(_, _) := ?r in _) = _ |- _ => destruct r
  end.

(** ** Machine integers *)

Lemma wrap_small z : - 2^31 <= z <= 2^31 - 1 -> wrap z = z.
Proof. intros H. unfold wrap. rewrite Z.mod_small; lia. Qed.
Lemma wrap_range z : - 2^31 <= wrap z <= 2^31 - 1.
Proof. unfold wrap. pose proof (Z.mod_pos_bound (z + 2^31) (2^32)). lia. Qed.

(** Removes every [wrap] whose argument [lia] shows to be in range,
    innermost first. *)
Ltac int_range :=
  repeat match goal with
         | |- context [wrap ?z] => rewrite (wrap_small z) by lia
         end.

(** ** Floating point: exact cases of rounding *)

Lemma digits_pos m : 1 <= digits m.
Proof. unfold digits. lia. Qed.

Lemma digits_bounds m : 2 ^ (digits m - 1) <= Zpos m < 2 ^ digits m.
Proof.
  unfold digits. induction m as [m IH|m IH|]; cbn [digits2_pos].
  - rewrite Pos2Z.inj_succ. change (Zpos m~1) with (2 * Zpos m + 1).
    replace (Z.succ (Zpos (digits2_pos m)) - 1) with (Z.succ (Zpos (digits2_pos m) - 1)) by lia.
    rewrite !Z.pow_succ_r by lia.
    generalize dependent (2 ^ (Zpos (digits2_pos m) - 1)).
    generalize dependent (2 ^ Zpos (digits2_pos m)). clear. intros; lia.
  - rewrite Pos2Z.inj_succ. change (Zpos m~0) with (2 * Zpos m).
    replace (Z.succ (Zpos (digits2_pos m)) - 1) with (Z.succ (Zpos (digits2_pos m) - 1)) by lia.
    rewrite !Z.pow_succ_r by lia.
    generalize dependent (2 ^ (Zpos (digits2_pos m) - 1)).
    generalize dependent (2 ^ Zpos (digits2_pos m)). clear. intros; lia.
  - cbn. lia.
Qed.

Lemma digits_unique m d : 2 ^ (d - 1) <= Zpos m < 2 ^ d -> digits m = d.
Proof.
  intros [Hl Hu]. pose proof (digits_bounds m) as [Bl Bu].
  pose proof (digits_pos m).
  destruct (Z.lt_trichotomy (digits m) d) as [H1|[H1|H1]]; [|exact H1|].
  - exfalso. assert (2 ^ digits m <= 2 ^ (d - 1)) by (apply Z.pow_le_mono_r; lia). lia.
  - exfalso. destruct (Z.le_gt_cases 0 d) as [Hd|Hd].
    + assert (2 ^ d <= 2 ^ (digits m - 1)) by (apply Z.pow_le_mono_r; lia). lia.
    + rewrite (Z.pow_neg_r 2 d) in Hu by lia. lia.
Qed.

Lemma digits_shift m n : digits (Pos.iter xO m n) = digits m + Zpos n.
Proof.
  unfold digits. revert m. induction n as [|n IH] using Pos.peano_ind; intros m.
  - cbn. lia.
  - rewrite Pos.iter_succ. cbn [digits2_pos]. rewrite Pos2Z.inj_succ, IH. lia.
Qed.

Section Format.
Variables prec emax : Z.
Hypothesis prec_pos : 0 < prec.

Lemma shr_fexp_shift m e l k :
  fexp prec emax (Zdigits2 m + e) - e = Zpos k ->
  shr_fexp prec emax m e l
  = (SpecFloat.iter_pos shr_1 k (shr_record_of_loc m l), e + Zpos k).
Proof. intros H. unfold shr_fexp, shr. rewrite H. reflexivity. Qed.

Lemma shr_fexp_keep m e l :
  fexp prec emax (Zdigits2 m + e) - e <= 0 ->
  shr_fexp prec emax m e l = (shr_record_of_loc m l, e).
Proof.
  intros H. unfold shr_fexp, shr.
  destruct (fexp prec emax (Zdigits2 m + e) - e); try reflexivity. lia.
Qed.

(** A mantissa of exactly [prec] digits in the normal exponent range is
    kept as it is. *)
Lemma binary_round_aux_exact sg m e :
  digits m = prec -> 3 - emax - prec <= e -> e <= emax - prec ->
  binary_round_aux prec emax sg (Zpos m) e loc_Exact = S754_finite sg m e.
Proof.
  intros Hd Hl Hu. unfold binary_round_aux.
  assert (K : fexp prec emax (Zdigits2 (Zpos m) + e) - e <= 0).
  { unfold fexp, SpecFloat.emin. cbn [Zdigits2]. fold (digits m). lia. }
  rewrite (shr_fexp_keep _ _ _ K). cbn [shr_record_of_loc shr_m loc_of_shr_record round_nearest_even].
  rewrite (shr_fexp_keep _ _ _ K). cbn [shr_record_of_loc shr_m].
  destruct (Z.leb_spec e (emax - prec)); [reflexivity|lia].
Qed.

(** Rounding a mantissa of at most [prec] digits is exact. *)
Lemma binary_round_exact sg q e :
  digits q <= prec -> 3 - emax - prec <= digits q + e - prec ->
  digits q + e <= emax ->
  exists m, binary_round prec emax sg q e
            = S754_finite sg m (digits q + e - prec)
            /\ digits m = prec.
Proof.
  intros Hd Hl Hu. unfold binary_round.
  assert (F : fexp prec emax (Zpos (digits2_pos q) + e) = digits q + e - prec).
  { unfold fexp, SpecFloat.emin. fold (digits q). lia. }
  rewrite F. unfold shl_align.
  destruct (digits q + e - prec - e) as [|k|k] eqn:Ek; try lia.
  - exists q. assert (digits q + e - prec = e) as -> by lia.
    split; [|lia]. apply binary_round_aux_exact; lia.
  - exists (Pos.iter xO q k).
    assert (D : digits (Pos.iter xO q k) = prec) by (rewrite digits_shift; lia).
    split; [|exact D]. apply binary_round_aux_exact; lia.
Qed.

End Format.

Lemma shr_1_m r : 0 <= shr_m r -> shr_m (shr_1 r) = shr_m r / 2.
Proof.
  destruct r as [m rr s]. cbn [shr_m]. intros H.
  destruct m as [|p|p]; [reflexivity| |lia].
  destruct p as [p|p|]; cbn [shr_1 shr_m].
  - change (Zpos p~1) with (2 * Zpos p + 1).
    apply Z.div_unique with (r := 1); lia.
  - change (Zpos p~0) with (2 * Zpos p).
    apply Z.div_unique with (r := 0); lia.
  - reflexivity.
Qed.

Lemma iter_shr_m n : forall r,
  0 <= shr_m r -> shr_m (SpecFloat.iter_pos shr_1 n r) = shr_m r / 2 ^ Zpos n.
Proof.
  assert (P2 : forall k, 0 < 2 ^ Zpos k) by (intros; apply Z.pow_pos_nonneg; lia).
  induction n as [n IH|n IH|]; intros r Hr; cbn [SpecFloat.iter_pos].
  - assert (H1 : 0 <= shr_m (shr_1 r)) by (rewrite shr_1_m by lia; apply Z.div_pos; lia).
    assert (H2 : 0 <= shr_m (SpecFloat.iter_pos shr_1 n (shr_1 r))).
    { rewrite IH by lia. apply Z.div_pos; [lia|apply P2]. }
    rewrite IH, IH, shr_1_m by lia.
    pose proof (P2 n).
    rewrite !Z.div_div by lia. f_equal.
    change (Zpos n~1) with (2 * Zpos n + 1).
    replace (2 * Zpos n + 1) with (1 + Zpos n + Zpos n) by lia.
    rewrite !Z.pow_add_r by lia. change (2 ^ 1) with 2. ring.
  - assert (H2 : 0 <= shr_m (SpecFloat.iter_pos shr_1 n r)).
    { rewrite IH by lia. apply Z.div_pos; [lia|apply P2]. }
    pose proof (P2 n).
    rewrite IH, IH by lia. rewrite Z.div_div by lia. f_equal.
    change (Zpos n~0) with (2 * Zpos n).
    replace (2 * Zpos n) with (Zpos n + Zpos n) by lia.
    rewrite Z.pow_add_r by lia. reflexivity.
  - rewrite shr_1_m by lia. reflexivity.
Qed.

Lemma round_nearest_even_range m l :
  m <= round_nearest_even m l <= m + 1.
Proof.
  destruct l as [|[| |]]; cbn [round_nearest_even]; try lia.
  destruct (Z.even m); lia.
Qed.

(** Rounding an integer of more than 24 digits to binary32. *)
Lemma binary_round_int24 sg q :
  24 < digits q <= 100 ->
  exists m e, binary_round 24 128 sg q 0 = S754_finite sg m e
              /\ digits m = 24 /\ 1 <= e <= 77.
Proof.
  intros Hd. unfold binary_round.
  assert (F : fexp 24 128 (Zpos (digits2_pos q) + 0) = digits q - 24).
  { unfold fexp, SpecFloat.emin. fold (digits q). lia. }
  rewrite F. unfold shl_align.
  destruct (digits q - 24 - 0) as [|k0|k0] eqn:Ek0; try lia. clear Ek0 k0.
  unfold binary_round_aux.
  destruct (digits q - 24) as [|k|k] eqn:Ek; try lia.
  assert (S1 : fexp 24 128 (Zdigits2 (Zpos q) + 0) - 0 = Zpos k).
  { cbn [Zdigits2]. rewrite F. lia. }
  rewrite (shr_fexp_shift 24 128 _ _ _ _ S1).
  set (r1 := SpecFloat.iter_pos shr_1 k (shr_record_of_loc (Zpos q) loc_Exact)).
  assert (M1 : shr_m r1 = Zpos q / 2 ^ Zpos k).
  { unfold r1. rewrite iter_shr_m; cbn [shr_record_of_loc shr_m]; [reflexivity|lia]. }
  pose proof (digits_bounds q) as [Bl Bu].
  assert (P : 0 < 2 ^ Zpos k) by (apply Z.pow_pos_nonneg; lia).
  assert (R1 : 2 ^ 23 <= shr_m r1 < 2 ^ 24).
  { rewrite M1. split.
    - apply Z.div_le_lower_bound; [lia|].
      rewrite <- Z.pow_add_r by lia. replace (Zpos k + 23) with (digits q - 1) by lia. exact Bl.
    - apply Z.div_lt_upper_bound; [lia|].
      rewrite <- Z.pow_add_r by lia. replace (Zpos k + 24) with (digits q) by lia. exact Bu. }
  pose proof (round_nearest_even_range (shr_m r1) (loc_of_shr_record r1)) as R2.
  set (m2 := round_nearest_even (shr_m r1) (loc_of_shr_record r1)) in *.
  destruct m2 as [|pm|pm] eqn:Em2; try lia.
  destruct (Z.lt_ge_cases (Zpos pm) (2 ^ 24)) as [Hlt|Hge].
  - assert (D : digits pm = 24) by (apply digits_unique; lia).
    assert (S2 : fexp 24 128 (Zdigits2 (Zpos pm) + (0 + Zpos k)) - (0 + Zpos k) <= 0).
    { cbn [Zdigits2]. fold (digits pm). unfold fexp, SpecFloat.emin. lia. }
    rewrite (shr_fexp_keep 24 128 _ _ _ S2). cbn [shr_record_of_loc shr_m].
    destruct (Z.leb_spec (0 + Zpos k) (128 - 24)); [|lia].
    exists pm, (0 + Zpos k). split; [reflexivity|]. split; [exact D|lia].
  - assert (Epm : Zpos pm = 2 ^ 24) by lia.
    assert (pm = 16777216%positive) as -> by (apply Pos2Z.inj; rewrite Epm; reflexivity).
    assert (S2 : fexp 24 128 (Zdigits2 16777216 + (0 + Zpos k)) - (0 + Zpos k) = 1).
    { cbn [Zdigits2 digits2_pos Pos.succ]. unfold fexp, SpecFloat.emin. lia. }
    rewrite (shr_fexp_shift 24 128 _ _ _ _ S2).
    cbn [SpecFloat.iter_pos shr_record_of_loc shr_1 shr_m].
    destruct (Z.leb_spec (0 + Zpos k + 1) (128 - 24)); [|lia].
    eexists _, _. split; [reflexivity|]. split; [reflexivity|lia].
Qed.

Lemma digits_int q : Zpos q <= 2 ^ 31 -> digits q <= 32.
Proof.
  intros H. pose proof (digits_bounds q) as [Bl _].
  destruct (Z.le_gt_cases (digits q) 32) as [|G]; [assumption|exfalso].
  assert (2 ^ 32 <= 2 ^ (digits q - 1)) by (apply Z.pow_le_mono_r; lia). lia.
Qed.

(** The shape of [(float) s] for a non-zero int [s]. *)
Lemma i2f_shape s :
  - 2 ^ 31 <= s <= 2 ^ 31 - 1 -> s <> 0 ->
  exists m e, f_bits (i2f s) = S754_finite (s <? 0) m e
              /\ digits m = 24 /\ -23 <= e <= 77.
Proof.
  intros Hs Hn. unfold i2f. cbn [f_bits]. unfold binary_normalize.
  assert (G : forall sg q, Zpos q <= 2 ^ 31 ->
    exists m e, binary_round 24 128 sg q 0 = S754_finite sg m e
                /\ digits m = 24 /\ -23 <= e <= 77).
  { intros sg q Hq. pose proof (digits_int q Hq). pose proof (digits_pos q).
    destruct (Z.le_gt_cases (digits q) 24) as [Hd|Hd].
    - destruct (binary_round_exact 24 128 sg q 0) as (m & E & D); try lia.
      exists m, (digits q + 0 - 24). split; [exact E|]. split; [exact D|lia].
    - destruct (binary_round_int24 sg q) as (m & e & E & D & He); [lia|].
      exists m, e. split; [exact E|]. split; [exact D|lia]. }
  destruct s as [|q|q]; [congruence| |]; apply G; lia.
Qed.

(** The shape of the promotion of such a float to double. *)
Lemma renorm53_shape sg m e :
  digits m = 24 -> -23 <= e <= 77 ->
  exists M, renorm 53 1024 (S754_finite sg m e) = S754_finite sg M (e - 29)
            /\ digits M = 53.
Proof.
  intros D He. unfold renorm, binary_normalize.
  destruct (binary_round_exact 53 1024 sg m e) as (M & E & DM); try lia.
  exists M. replace (e - 29) with (digits m + e - 53) by lia.
  split; [|exact DM]. destruct sg; exact E.
Qed.

(** [2.*v - v - v] is [+0] for a normal double [v]. *)
Lemma curvature_flat sg M E :
  digits M = 53 -> -1000 <= E <= 900 ->
  SFsub 53 1024
    (SFsub 53 1024 (SFmul 53 1024 two64 (S754_finite sg M E)) (S754_finite sg M E))
    (S754_finite sg M E)
  = S754_zero false.
Proof.
  intros D HE.
  assert (Mul : SFmul 53 1024 two64 (S754_finite sg M E) = S754_finite sg M (E + 1)).
  { unfold SFmul, two64. cbn [xorb Pos.mul].
    unfold binary_round_aux.
    assert (S1 : fexp 53 1024 (Zdigits2 (Zpos (Pos.iter xO M 52)) + (-51 + E)) - (-51 + E) = 52).
    { cbn [Zdigits2]. fold (digits (Pos.iter xO M 52)). rewrite digits_shift.
      unfold fexp, SpecFloat.emin. lia. }
    change (Pos.iter xO M 52) with (M~0~0~0~0~0~0~0~0~0~0~0~0~0~0~0~0~0~0~0~0~0~0~0~0~0~0~0~0~0~0~0~0~0~0~0~0~0~0~0~0~0~0~0~0~0~0~0~0~0~0~0~0)%positive in S1.
    rewrite (shr_fexp_shift 53 1024 _ _ _ _ S1).
    cbn [SpecFloat.iter_pos shr_record_of_loc shr_1 shr_m loc_of_shr_record round_nearest_even].
    assert (S2 : fexp 53 1024 (Zdigits2 (Zpos M) + (-51 + E + 52)) - (-51 + E + 52) <= 0).
    { cbn [Zdigits2]. fold (digits M). unfold fexp, SpecFloat.emin. lia. }
    rewrite (shr_fexp_keep 53 1024 _ _ _ S2). cbn [shr_record_of_loc shr_m].
    destruct (Z.leb_spec (-51 + E + 52) (1024 - 53)); [|lia].
    f_equal. lia. }
  rewrite Mul.
  assert (Sub1 : SFsub 53 1024 (S754_finite sg M (E + 1)) (S754_finite sg M E)
                 = S754_finite sg M E).
  { unfold SFsub. rewrite Z.min_r by lia. unfold shl_align.
    replace (E - (E + 1)) with (Zneg 1) by lia.
    replace (E - E) with 0 by lia. cbn [fst Pos.iter].
    replace (cond_Zopp sg (Zpos M~0) - cond_Zopp sg (Zpos M))
      with (cond_Zopp sg (Zpos M)) by (destruct sg; cbn [cond_Zopp]; lia).
    unfold binary_normalize.
    destruct (binary_round_exact 53 1024 sg M E) as (M' & EM & _); try lia.
    assert (R : binary_round 53 1024 sg M E = S754_finite sg M E).
    { unfold binary_round.
      assert (F : fexp 53 1024 (Zpos (digits2_pos M) + E) = E)
        by (fold (digits M); unfold fexp, SpecFloat.emin; lia).
      rewrite F. unfold shl_align. replace (E - E) with 0 by lia.
      apply binary_round_aux_exact; lia. }
    destruct sg; cbn [cond_Zopp Z.opp]; exact R. }
  rewrite Sub1.
  unfold SFsub. rewrite Z.min_id. unfold shl_align.
  replace (E - E) with 0 by lia. cbn [fst].
  rewrite Z.sub_diag. reflexivity.
Qed.

Lemma SFltb_irrefl x : SFltb x x = false.
Proof.
  unfold SFltb, SFcompare.
  destruct x as [[|]|[|]| |[|] m e]; try reflexivity;
    rewrite Z.compare_refl, Pos.compare_cont_refl; reflexivity.
Qed.

Lemma flt_irrefl v : (v <? v)%flt = false.
Proof. apply SFltb_irrefl. Qed.

(** [(float) s == 0] exactly when the int [s] is zero. *)
Lemma i2f_eq_zero s :
  - 2 ^ 31 <= s <= 2 ^ 31 - 1 -> (i2f s =? i2f 0)%flt = (s =? 0).
Proof.
  intros Hs. destruct (Z.eqb_spec s 0) as [->|Hn]; [reflexivity|].
  destruct (i2f_shape s Hs Hn) as (m & e & E & _).
  unfold feq. rewrite E. cbn. destruct (s <? 0); reflexivity.
Qed.

(** The curvature of three equal values [(float) s] is below [EPS]. *)
Lemma curv_flat s :
  - 2 ^ 31 <= s <= 2 ^ 31 - 1 ->
  (f2d (curv (i2f s) (i2f s) (i2f s)) <? EPS)%dbl = true.
Proof.
  intros Hs. destruct (Z.eq_dec s 0) as [->|Hn]; [vm_compute; reflexivity|].
  destruct (i2f_shape s Hs Hn) as (m & e & E & D & He).
  destruct (renorm53_shape (s <? 0) m e D He) as (M & EM & DM).
  unfold curv, dsub, dmul, f2d, d2f, dlt. cbn [d_bits f_bits].
  rewrite E, EM. change (d_bits d2) with two64.
  rewrite curvature_flat by lia. reflexivity.
Qed.

(** ** Arrays *)

Lemma store_spec {A} (a a' : list A) i v :
  store a i v = Some a' ->
  0 <= i /\ cell a' i = Some v /\ forall k, k <> i -> cell a' k = cell a k.
Proof.
  unfold store. destruct (Z.leb_spec 0 i); cbn [andb]; [|discriminate].
  destruct (Z.ltb_spec i (Z.of_nat (length a))); [|discriminate].
  intros E. inversion E; subst; clear E. split; [assumption|]. split.
  - unfold cell. destruct (Z.leb_spec 0 i); [|lia].
    apply list_lookup_insert_eq. lia.
  - intros k Hk. unfold cell. destruct (0 <=? k) eqn:Ek; [|reflexivity].
    apply list_lookup_insert_ne. apply Z.leb_le in Ek. lia.
Qed.

Lemma access_fault {A} (o : option A) f : access o = Fault f -> f = OutOfBounds.
Proof. destruct o; cbn; congruence. Qed.

Lemma cell_outside {A} (a : list A) k :
  k < 0 \/ Z.of_nat (length a) <= k -> cell a k = None.
Proof.
  intros H. unfold cell. destruct (Z.leb_spec 0 k); [|reflexivity].
  apply lookup_ge_None. lia.
Qed.

Lemma cell_inside {A} (a : list A) k v :
  cell a k = Some v -> 0 <= k < Z.of_nat (length a).
Proof.
  unfold cell. destruct (Z.leb_spec 0 k); [|discriminate].
  intros Hv. apply lookup_lt_Some in Hv. lia.
Qed.

(** ** The filter generator *)

Lemma atSetFSigma_code exp st sigma r st' :
  atSetFSigma exp st sigma = Done (r, st') ->
  (r = -1 /\ st' = st /\ (sigma <=? d0)%dbl || (d12 <? sigma)%dbl = true)
  \/ (r = 0 /\ (sigma <=? d0)%dbl || (d12 <? sigma)%dbl = false).
Proof.
  unfold atSetFSigma. intros H.
  repeat step_outcome; inversion H; subst; auto.
Qed.

Section Gen.
Variable exp : double -> double.
Variables sig2inv siginv edge : float32.

Lemma gen_tap_spec i st st' :
  gen_tap exp sig2inv siginv edge i st = Done st' ->
  0 <= i /\ sigmagen st' = sigmagen st
  /\ (forall k, k <> i ->
        cell (fgarray st') k = cell (fgarray st) k
        /\ cell (xfgarray st') k = cell (xfgarray st) k
        /\ cell (x2fgarray st') k = cell (x2fgarray st) k)
  /\ exists x2, cell (x2fgarray st') i = Some x2
                /\ sig_ncut st' = if (x2 =? 0) && negb (i =? 0) then i
                                  else sig_ncut st.
Proof.
  unfold gen_tap. intros H.
  repeat match type of H with
         | obind (conv ?o) _ = _ =>
             destruct o; cbn [conv obind] in H; [|discriminate H]
         | obind (access ?o) _ = _ =>
             let E := fresh "E" in
             destruct o eqn:E; cbn [access obind] in H; [|discriminate H]
         end.
  inversion H; subst; clear H. cbn [sigmagen fgarray xfgarray x2fgarray sig_ncut].
  apply store_spec in E as (Hi & _ & F1).
  apply store_spec in E0 as (_ & _ & F2).
  apply store_spec in E1 as (_ & V3 & F3).
  split; [assumption|]. split; [reflexivity|]. split.
  - intros k Hk. auto.
  - eexists. split; [exact V3|reflexivity].
Qed.

Lemma gen_loop_spec n : forall i st st',
  0 <= i ->
  gen_loop exp sig2inv siginv edge n i st = Done st' ->
  sigmagen st' = sigmagen st
  /\ (forall k, k < i \/ i + Z.of_nat n <= k ->
        cell (fgarray st') k = cell (fgarray st) k
        /\ cell (xfgarray st') k = cell (xfgarray st) k
        /\ cell (x2fgarray st') k = cell (x2fgarray st) k)
  /\ trimmed (x2fgarray st') (sig_ncut st) i (i + Z.of_nat n) (sig_ncut st').
Proof.
  induction n as [|n IH]; intros i st st' Hi H; cbn [gen_loop] in H.
  - inversion H; subst. split; [reflexivity|]. split; [auto|].
    left. split; [reflexivity|]. intros j Hj. lia.
  - destruct (gen_tap exp sig2inv siginv edge i st) as [st1|f] eqn:Et;
      cbn [obind] in H; [|discriminate H].
    apply gen_tap_spec in Et as (_ & Hs1 & Hu1 & x2 & Hx2 & Hn1).
    apply IH in H as (Hs & Hu & Ht); [|lia].
    split; [congruence|]. split.
    + intros k Hk. destruct (Hu k) as (A1 & A2 & A3); [lia|].
      destruct (Hu1 k) as (B1 & B2 & B3); [lia|].
      repeat split; congruence.
    + assert (Hxi : cell (x2fgarray st') i = Some x2).
      { destruct (Hu i) as (_ & _ & A3); [lia|]. congruence. }
      destruct Ht as [(Hv & Hnz)|(Hv & Hv0 & Hz & Hnz)].
      * rewrite Hn1 in Hv.
        destruct (Z.eqb_spec x2 0) as [->|Hx]; destruct (Z.eqb_spec i 0) as [->|Hi0];
          cbn [andb negb] in Hv.
        -- left. split; [exact Hv|]. intros j Hj Hj0. apply Hnz; lia.
        -- right. rewrite Hv. repeat split; try lia; auto.
           intros j Hj. apply Hnz; lia.
        -- left. split; [exact Hv|]. intros j Hj Hj0. apply Hnz; lia.
        -- left. split; [exact Hv|]. intros j Hj Hj0.
           destruct (Z.eq_dec j i) as [->|Hji].
           ++ rewrite Hxi. congruence.
           ++ apply Hnz; lia.
      * right. repeat split; try lia; auto.
        intros j Hj. apply Hnz; lia.
Qed.

End Gen.

Lemma zero_loop_spec n : forall i fg fg',
  zero_loop n i fg = Done fg' ->
  (forall k, i <= k < i + Z.of_nat n -> cell fg' k = Some 0)
  /\ (forall k, k < i \/ i + Z.of_nat n <= k -> cell fg' k = cell fg k).
Proof.
  induction n as [|n IH]; intros i fg fg' H; cbn [zero_loop] in H.
  - inversion H; subst. split; [lia|auto].
  - destruct (store fg i 0) as [fg1|] eqn:Es; cbn [access obind] in H;
      [|discriminate H].
    apply store_spec in Es as (_ & V & U).
    apply IH in H as (Z1 & U1). split.
    + intros k Hk. destruct (Z.eq_dec k i) as [->|Hne].
      * rewrite U1 by lia. exact V.
      * apply Z1. lia.
    + intros k Hk. rewrite U1 by lia. apply U. lia.
Qed.

Lemma atSetFSigma_regenerated exp st sigma r st' :
  atSetFSigma exp st sigma = Done (r, st') ->
  (r = -1 /\ st' = st)
  \/ (r = 0 /\ st' = st
      /\ (sigma <=? d0)%dbl || (d12 <? sigma)%dbl = false
      /\ (sigma =? sigmagen st)%dbl = true)
  \/ (r = 0 /\ sigmagen st' = sigma
      /\ exists ncut,
           d2i (d4 * sigma + d1_5)%dbl = Some ncut
           /\ (forall i, ncut <= i < SIZFIL -> cell (fgarray st') i = Some 0)
           /\ (forall i, ncut <= i ->
                 cell (xfgarray st') i = cell (xfgarray st) i
                 /\ cell (x2fgarray st') i = cell (x2fgarray st) i)
           /\ trimmed (x2fgarray st') ncut 0 ncut (sig_ncut st')).
Proof.
  unfold atSetFSigma. intros H.
  destruct (_ || _) eqn:G; [inversion H; left; auto|].
  destruct (sigma =? sigmagen st)%dbl eqn:Eq;
    [inversion H; subst; right; left; auto|].
  destruct (d2i _) as [ncut|] eqn:En; cbn [conv obind] in H; [|discriminate H].
  cbv zeta in H.
  destruct (gen_loop _ _ _ _ _ _ _) as [st2|f] eqn:Eg; cbn [obind] in H;
    [|discriminate H].
  destruct (zero_loop _ _ _) as [fg|f] eqn:Ez; cbn [obind] in H;
    [|discriminate H].
  inversion H; subst; clear H. right. right.
  apply gen_loop_spec in Eg as (Hs & Hu & Ht); [|lia].
  apply zero_loop_spec in Ez as (Z1 & _).
  cbn [sigmagen fgarray xfgarray x2fgarray sig_ncut] in *.
  split; [reflexivity|]. split; [exact Hs|]. exists ncut.
  split; [reflexivity|]. split.
  - intros i Hi. apply Z1. unfold SIZFIL in *. lia.
  - split.
    + intros i Hi. destruct (Hu i) as (_ & A2 & A3); [lia|]. auto.
    + destruct (Z.le_gt_cases 0 ncut).
      * rewrite Z.add_0_l, Z2Nat.id in Ht by lia. exact Ht.
      * replace (Z.to_nat ncut) with 0%nat in Ht by lia. 
        destruct Ht as [(Hv & _)|(Hv & _)]; [|lia].
        left. split; [exact Hv|]. intros j Hj; lia.
Qed.

Lemma deq_dle a b : (a =? b)%dbl = true -> (a <=? b)%dbl = true.
Proof.
  unfold deq, dle, SFeqb, SFleb.
  destruct (SFcompare (d_bits a) (d_bits b)) as [[| |]|]; auto; discriminate.
Qed.

Lemma trimmed_le x2 n v : trimmed x2 n 0 n v -> v <= n.
Proof. intros [(-> & _)|(Hv & _)]; lia. Qed.

Lemma reachable_inv exp st :
  reachable exp st -> st = fstate0 \/ kernel_inv st.
Proof.
  induction 1 as [|st sigma r st' Hr IH Hc]; [left; reflexivity|].
  apply atSetFSigma_regenerated in Hc
    as [(_ & ->)|[(_ & -> & _)|(_ & Hs & ncut & Hn & Hz & _ & Ht)]]; auto.
  right. exists ncut. rewrite Hs. repeat split; auto.
  eapply trimmed_le; eauto.
Qed.

Lemma st_sigma1_generated :
  atSetFSigma exp_ref fstate0 d1 = Done (0, st_sigma1).
Proof. vm_compute. reflexivity. Qed.

Lemma st_narrow_generated :
  atSetFSigma exp_ref fstate0 d0_1 = Done (0, st_narrow).
Proof. vm_compute. reflexivity. Qed.

(** ** The moment sums *)

Lemma edge_test_spec st ysz y :
  0 <= sig_ncut st ->
  - 2^31 <= y -> y + sig_ncut st <= 2^31 - 1 -> y + 1 <= 2^31 - 1 ->
  (exists d, edge_test st ysz y = Some d)
  <-> (y - (sig_ncut st - 1) < 0 \/ ysz <= y + (sig_ncut st - 1)).
Proof.
  intros Hn Hy Hs H1. unfold edge_test, iadd.
  rewrite (Z.add_comm (sig_ncut st) y), !wrap_small by lia.
  destruct (Z.ltb_spec ysz (y + sig_ncut st));
    destruct (Z.ltb_spec (y + 1) (sig_ncut st)); split;
    try (intros [d Hd]; discriminate Hd); try lia; eauto.
Qed.

Lemma lgausmom_ret st p xsz ysz x y sky ps r m d :
  lgausmom st p xsz ysz x y sky ps = Done (r, m, d) ->
  r = -1 \/ (r = 0 /\ d = None).
Proof.
  unfold lgausmom, finish. intros H.
  repeat step_outcome; try (destruct (edge_test st ysz y); [|step_outcome]);
    inversion H; subst; auto.
  - destruct (_ =? _)%flt; inversion H1; auto.
Qed.

Lemma taps_oob tap n : forall j0 a j,
  j0 <= j < j0 + Z.of_nat n ->
  (forall b, tap j b = Fault OutOfBounds) ->
  (forall k b f, tap k b = Fault f -> f = OutOfBounds) ->
  taps tap n j0 a = Fault OutOfBounds.
Proof.
  induction n as [|n IH]; intros j0 a j Hj Hbad Hkind; [lia|].
  cbn [taps]. destruct (Z.eq_dec j j0) as [->|Hne].
  - rewrite Hbad. reflexivity.
  - destruct (tap j0 a) as [a'|f] eqn:E; cbn [obind].
    + apply (IH _ _ j); auto. lia.
    + apply Hkind in E. now subst.
Qed.

Lemma ring0_tap_kind st p x yp sky2 k b f :
  ring0_tap st p x yp sky2 k b = Fault f -> f = OutOfBounds.
Proof.
  unfold ring0_tap. intros H.
  repeat match type of H with
         | obind (access ?o) _ = _ =>
             destruct o; cbn [access obind] in H; [|congruence]
         end.
  discriminate H.
Qed.

Lemma pix_row p r k row :
  cell p r = Some row -> pix p r k = cell row k.
Proof. intros H. unfold pix. rewrite H. reflexivity. Qed.

Lemma ring0_oob st p xsz x y sky :
  1 <= sig_ncut st -> 0 <= xsz ->
  Forall (fun row : list Z => length row = Z.to_nat xsz) p ->
  x < sig_ncut st - 1 \/ x > xsz - sig_ncut st ->
  ring_sums st p x y sky 0 = Fault OutOfBounds.
Proof.
  intros Hn Hx Hrows Hbad. unfold ring_sums. cbn [Z.eqb].
  destruct (pix p (y + 0)%int x) as [c|] eqn:Ec; [|reflexivity].
  cbn [access obind].
  destruct (cell (fgarray st) 0) as [fg0|]; [|reflexivity]. cbn [access obind].
  unfold pix in Ec.
  destruct (cell p (y + 0)%int) as [row|] eqn:Er; [|discriminate Ec].
  cbn in Ec. apply cell_inside in Ec.
  assert (Hlen : length row = Z.to_nat xsz).
  { unfold cell in Er. destruct (0 <=? (y + 0)%int); [|discriminate Er].
    apply list_elem_of_lookup_2 in Er.
    rewrite Forall_forall in Hrows. now apply Hrows. }
  assert (Hj : exists j, 1 <= j < 1 + Z.of_nat (Z.to_nat (sig_ncut st - 1))
                         /\ (x - j < 0 \/ xsz <= x + j)).
  { destruct Hbad as [Hb|Hb].
    - exists (x + 1). lia.
    - exists (xsz - x). lia. }
  destruct Hj as (j & Hj & Hout).
  apply (taps_oob _ _ _ _ j Hj); [|apply ring0_tap_kind].
  intros b. unfold ring0_tap. rewrite !(pix_row _ _ _ _ Er).
  destruct Hout as [Ho|Ho].
  - destruct (cell row (x + j)); cbn [access obind]; [|reflexivity].
    rewrite (cell_outside row (x - j)) by lia. reflexivity.
  - rewrite (cell_outside row (x + j)) by lia. reflexivity.
Qed.

Lemma pix_flat xsz ysz c r k :
  0 <= r < ysz -> 0 <= k < xsz -> pix (flat_image xsz ysz c) r k = Some c.
Proof.
  intros Hr Hk. unfold pix, cell, flat_image.
  destruct (Z.leb_spec 0 r); [|lia].
  rewrite lookup_replicate_2 by lia. cbn.
  destruct (Z.leb_spec 0 k); [|lia].
  apply lookup_replicate_2. lia.
Qed.

Lemma taps_ext tap1 tap2 n : forall j0 a,
  (forall j b, j0 <= j < j0 + Z.of_nat n -> tap1 j b = tap2 j b) ->
  taps tap1 n j0 a = taps tap2 n j0 a.
Proof.
  induction n as [|n IH]; intros j0 a H; cbn [taps]; [reflexivity|].
  rewrite H by lia. destruct (tap2 j0 a) as [a'|f]; cbn [obind]; [|reflexivity].
  apply IH. intros j b Hj. apply H. lia.
Qed.

Section Flat.
Variables (st : fstate) (xsz ysz c sky : Z).
Hypothesis ysz_int : ysz <= 2 ^ 31 - 1.

Lemma ring_sums_flat x y x' y' i :
  inside st xsz ysz x y -> inside st xsz ysz x' y' ->
  0 <= i < sig_ncut st ->
  ring_sums st (flat_image xsz ysz c) x y sky i
  = ring_sums st (flat_image xsz ysz c) x' y' sky i.
Proof.
  intros (X1 & X2 & Y1 & Y2) (X1' & X2' & Y1' & Y2') Hi.
  unfold ring_sums, iadd, isub.
  rewrite !(wrap_small (y + i)), !(wrap_small (y - i)),
          !(wrap_small (y' + i)), !(wrap_small (y' - i)) by lia.
  destruct (i =? 0).
  - rewrite !pix_flat by lia. cbn [access obind].
    destruct (access (cell (fgarray st) 0)) as [fg0|f]; cbn [obind]; [|reflexivity].
    apply taps_ext. intros j b Hj. unfold ring0_tap.
    rewrite !pix_flat by lia. reflexivity.
  - rewrite !pix_flat by lia. cbn [access obind].
    destruct (access (cell (fgarray st) 0)) as [fg0|f]; cbn [obind]; [|reflexivity].
    apply taps_ext. intros j b Hj. unfold ringi_tap.
    rewrite !pix_flat by lia. reflexivity.
Qed.

Lemma rings_flat x y x' y' n : forall i t,
  inside st xsz ysz x y -> inside st xsz ysz x' y' ->
  0 <= i -> i + Z.of_nat n <= sig_ncut st ->
  rings st (flat_image xsz ysz c) x y sky n i t
  = rings st (flat_image xsz ysz c) x' y' sky n i t.
Proof.
  induction n as [|n IH]; intros i t H H' Hi Hn; cbn [rings]; [reflexivity|].
  rewrite (ring_sums_flat x y x' y') by (auto; lia).
  destruct (ring_sums _ _ x' y' sky i) as [r|f]; cbn [obind]; [|reflexivity].
  destruct (add_ring st i r t) as [t'|f]; cbn [obind]; [|reflexivity].
  apply IH; auto; lia.
Qed.

Lemma lgausmom_flat x y x' y' ps0 :
  inside st xsz ysz x y -> inside st xsz ysz x' y' ->
  - 2 ^ 31 <= y -> - 2 ^ 31 <= y' -> 1 <= sig_ncut st ->
  lgausmom st (flat_image xsz ysz c) xsz ysz x' y' sky ps0
  = lgausmom st (flat_image xsz ysz c) xsz ysz x y sky ps0.
Proof.
  intros H H' Hy Hy' Hn. unfold lgausmom.
  destruct (sigmagen st =? d0)%dbl; [reflexivity|].
  assert (E : forall z, inside st xsz ysz x z -> - 2 ^ 31 <= z -> edge_test st ysz z = None).
  { intros z (_ & _ & Z1 & Z2) Hz. unfold edge_test, iadd.
    int_range.
    destruct (Z.ltb_spec ysz (sig_ncut st + z)); [lia|].
    destruct (Z.ltb_spec (z + 1) (sig_ncut st)); [lia|reflexivity]. }
  rewrite (E y), (E y') by (auto; destruct H, H'; repeat split; tauto).
  unfold moment_sums.
  rewrite (rings_flat x' y' x y) by (auto; lia). reflexivity.
Qed.

End Flat.

Lemma add_ring_range st i r t t' :
  add_ring st i r t = Done t' -> - 2 ^ 31 <= s_sum t' <= 2 ^ 31 - 1.
Proof.
  unfold add_ring. intros H. repeat step_outcome; inversion H; subst;
    cbn [s_sum]; apply wrap_range.
Qed.

Lemma rings_range st p x y sky n : forall i t t',
  - 2 ^ 31 <= s_sum t <= 2 ^ 31 - 1 ->
  rings st p x y sky n i t = Done t' -> - 2 ^ 31 <= s_sum t' <= 2 ^ 31 - 1.
Proof.
  induction n as [|n IH]; intros i t t' Ht H; cbn [rings] in H.
  - inversion H; subst; exact Ht.
  - repeat step_outcome. eapply IH; [|exact H]. eapply add_ring_range; eauto.
Qed.

Lemma moment_sums_range st p x y sky t :
  moment_sums st p x y sky = Done t -> - 2 ^ 31 <= s_sum t <= 2 ^ 31 - 1.
Proof.
  unfold moment_sums. intros H. repeat step_outcome. inversion H; subst.
  cbn [s_sum]. apply rings_range in E; [|cbn; lia].
  unfold ishr. rewrite Z.shiftr_div_pow2 by lia.
  split.
  - apply Z.div_le_lower_bound; lia.
  - apply Z.div_le_upper_bound; lia.
Qed.

(** ** The peak locator *)

Section Find.
Variables (st : fstate) (p : image) (xsz ysz sky : Z).

Lemma relocates_find n : forall k x y sq x' y' sq',
  relocates st p xsz ysz sky n (x, y, sq) (x', y', sq') ->
  find_start st p xsz ysz sky (n + k) x y sq = find_start st p xsz ysz sky k x' y' sq'.
Proof.
  induction n as [|n IH]; intros k x y sq x' y' sq' H;
    inversion H as [|? ? ? ? x1 y1 sq1 ? Ha Hr]; subst.
  - reflexivity.
  - cbn [Nat.add find_start]. rewrite Ha. cbn [obind]. now apply IH.
Qed.

Lemma find_start_inv k : forall x y sq res,
  find_start st p xsz ysz sky k x y sq = Done res ->
  exists n x' y' sq',
    (n <= k)%nat /\ relocates st p xsz ysz sky n (x, y, sq) (x', y', sq') /\
    match res with
    | FindLimit => n = k
    | FindEdge => (n < k)%nat /\ attempt st p xsz ysz sky x' y' sq' = Done TryEdge
    | FindMomErr => (n < k)%nat /\ attempt st p xsz ysz sky x' y' sq' = Done TryMomErr
    | FindMax xm ym ret vc sqm =>
        (n < k)%nat /\ xm = x' /\ ym = y' /\
        ret = FINDERR - Z.of_nat (k - n) /\
        attempt st p xsz ysz sky x' y' sq' = Done (TryMax vc sqm)
    end.
Proof.
  induction k as [|k IH]; intros x y sq res H; cbn [find_start] in H.
  - inversion H; subst. exists 0%nat, x, y, sq. repeat split; auto. constructor.
  - destruct (attempt st p xsz ysz sky x y sq) as [a|f] eqn:Ea; cbn [obind] in H; [|discriminate H].
    destruct a as [| |x1 y1 sq1|vc sq1].
    + inversion H; subst. exists 0%nat, x, y, sq.
      repeat split; auto; try lia. constructor.
    + inversion H; subst. exists 0%nat, x, y, sq.
      repeat split; auto; try lia. constructor.
    + apply IH in H as (n & x' & y' & sq' & Hn & Hr & Hres).
      exists (S n), x', y', sq'. split; [lia|]. split; [econstructor; eauto|].
      destruct res; intuition (try lia).
    + inversion H; subst. exists 0%nat, x, y, sq.
      repeat split; auto; try lia. constructor.
Qed.

End Find.

Lemma fit_code x y ret vc sq ps :
  fst (fit x y ret vc sq ps) = -3 \/ fst (fit x y ret vc sq ps) = ret.
Proof.
  unfold fit.
  repeat match goal with
         | |- context [if ?b then _ else _] => destruct b; [left; reflexivity|]
         end.
  right; reflexivity.
Qed.

Lemma atFindFocMom_inv st p xsz ysz x y sky ps r ps' :
  atFindFocMom st p xsz ysz x y sky ps = Done (r, ps') ->
  exists res, find_start st p xsz ysz sky 15 x y (replicate 9 gmom0) = Done res /\
    match res with
    | FindLimit | FindEdge => r = -1 /\ ps' = ps
    | FindMomErr => r = -2 /\ ps' = ps
    | FindMax x' y' ret vc sq => (r, ps') = fit x' y' ret vc sq ps
    end.
Proof.
  unfold atFindFocMom. change (Z.to_nat FINDERR) with 15%nat.
  destruct (find_start st p xsz ysz sky 15 x y (replicate 9 gmom0)) as [res|f];
    cbn [obind]; [|discriminate].
  intros H. exists res. split; [reflexivity|].
  destruct res; inversion H; auto.
Qed.

Lemma atFindFocMom_range st p xsz ysz x y sky ps r ps' :
  atFindFocMom st p xsz ysz x y sky ps = Done (r, ps') -> -3 <= r <= 14.
Proof.
  intros H. apply atFindFocMom_inv in H as (res & Hf & Hres).
  apply find_start_inv in Hf as (n & x' & y' & sq' & Hn & _ & Hm).
  destruct res as [| | |xm ym ret vc sqm]; try lia.
  destruct Hm as (Hlt & _ & _ & Hret & _).
  pose proof (fit_code xm ym ret vc sqm ps) as Hc. rewrite <- Hres in Hc.
  cbn [fst] in Hc. unfold FINDERR in Hret. lia.
Qed.

Lemma length9 {A} (l : list A) :
  length l = 9%nat ->
  exists a0 a1 a2 a3 a4 a5 a6 a7 a8, l = [a0; a1; a2; a3; a4; a5; a6; a7; a8].
Proof.
  intros H.
  do 9 (destruct l as [|? l]; [discriminate H|]).
  destruct l; [|discriminate H]. eauto 12.
Qed.

Ltac scan_step :=
  match goal with
  | H : obind (lgausmom ?a ?b ?c ?d ?e ?f ?g ?h) _ = _ |- _ =>
      let E := fresh "E" in
      destruct (lgausmom a b c d e f g h) as [[[? ?] ?]|?] eqn:E;
      cbn [obind] in H; [|discriminate H];
      let L := fresh "L" in
      pose proof (lgausmom_ret _ _ _ _ _ _ _ _ _ _ _ E) as L;
      destruct L as [->|[-> ->]]; [discriminate H|];
      cbn [Z.ltb Z.compare] in H
  | H : (if ?b then _ else _) = _ |- _ =>
      let E := fresh "E" in destruct b eqn:E; [discriminate H|]
  end.

Lemma scan_max_grid st p xsz ysz x y sky vc sq0 sq :
  length sq0 = 9%nat ->
  scan st p xsz ysz x y sky vc neighbours sq0 = Done (ScanOk sq) ->
  length sq = 9%nat /\ val sq 1 1 = val sq0 1 1 /\
  Forall (fun ij : Z * Z =>
            exists ps0,
              lgausmom st p xsz ysz (x + ij.2 - 1)%int (y + ij.1 - 1)%int
                sky ps0 = Done (0, val sq ij.1 ij.2, None)
              /\ (vc <? g_filval (val sq ij.1 ij.2))%flt = false)
         neighbours.
Proof.
  intros L H. apply length9 in L as (a0&a1&a2&a3&a4&a5&a6&a7&a8&->).
  unfold neighbours in *. cbn [scan] in H.
  cbn [val set_val default lookup list_lookup insert list_insert Z.to_nat Z.mul Z.add
        Pos.to_nat Pos.iter_op Nat.add Pos.mul Pos.add Pos.succ] in H.
  repeat scan_step.
  inversion H; subst; clear H.
  split; [reflexivity|]. split; [reflexivity|].
  repeat constructor; cbn [fst snd]; eexists; (split; [eassumption|assumption]).
Qed.

Lemma scan_length st p xsz ysz x y sky vc todo : forall sq0 r,
  scan st p xsz ysz x y sky vc todo sq0 = Done r ->
  match r with
  | ScanErr => True
  | ScanMove _ _ sq | ScanOk sq => length sq = length sq0
  end.
Proof.
  induction todo as [|[i j] todo IH]; intros sq0 r H; cbn [scan] in H.
  - inversion H; reflexivity.
  - destruct (lgausmom _ _ _ _ _ _ _ _) as [[[c m] d]|f]; cbn [obind] in H;
      [|discriminate H].
    destruct (c <? 0); [inversion H; exact I|].
    destruct (vc <? g_filval m)%flt.
    + inversion H. unfold set_val. apply length_insert.
    + apply IH in H. destruct r; auto; rewrite H; unfold set_val; apply length_insert.
Qed.

Lemma attempt_length st p xsz ysz sky x y sq0 a :
  attempt st p xsz ysz sky x y sq0 = Done a ->
  match a with
  | TryMove _ _ sq | TryMax _ sq => length sq = length sq0
  | _ => True
  end.
Proof.
  unfold attempt. intros H.
  destruct (_ || _); [inversion H; exact I|].
  destruct (lgausmom _ _ _ _ _ _ _ _) as [[[c m] d]|f]; cbn [obind] in H;
    [|discriminate H].
  destruct (c <? 0); [inversion H; exact I|].
  destruct (scan _ _ _ _ _ _ _ _ _ _) as [s|f] eqn:Es; cbn [obind] in H;
    [|discriminate H].
  apply scan_length in Es. unfold set_val in Es. rewrite length_insert in Es.
  destruct s; inversion H; subst; auto.
Qed.

Lemma relocates_length st p xsz ysz sky n : forall x y sq x' y' sq',
  relocates st p xsz ysz sky n (x, y, sq) (x', y', sq') ->
  length sq' = length sq.
Proof.
  induction n as [|n IH]; intros x y sq x' y' sq' H;
    inversion H as [|? ? ? ? x1 y1 sq1 ? Ha Hr]; subst.
  - reflexivity.
  - apply attempt_length in Ha. apply IH in Hr. congruence.
Qed.

Lemma attempt_max_grid st p xsz ysz sky x y sq0 vc sq :
  length sq0 = 9%nat ->
  attempt st p xsz ysz sky x y sq0 = Done (TryMax vc sq) ->
  vc = g_filval (val sq 1 1) /\ grid_at st p xsz ysz sky x y sq.
Proof.
  intros L H. unfold attempt in H.
  destruct (_ || _); [discriminate H|].
  destruct (lgausmom _ _ _ _ _ _ _ _) as [[[c m] d]|f] eqn:El; cbn [obind] in H;
    [|discriminate H].
  destruct (c <? 0) eqn:Ec; [discriminate H|].
  destruct (scan _ _ _ _ _ _ _ _ _ _) as [s|f] eqn:Es; cbn [obind] in H;
    [|discriminate H].
  destruct s; inversion H; subst; clear H.
  apply scan_max_grid in Es as (_ & Hc & Hg);
    [|unfold set_val; rewrite length_insert; exact L].
  assert (Hm : val sq 1 1 = m).
  { rewrite Hc. apply length9 in L as (a0&a1&a2&a3&a4&a5&a6&a7&a8&->). reflexivity. }
  apply lgausmom_ret in El as El'. destruct El' as [->|[-> ->]]; [discriminate Ec|].
  unfold grid_at. rewrite Hm. split; [reflexivity|]. split.
  - eexists. exact El.
  - exact Hg.
Qed.

Lemma fit_flat_iff x y ret vc sq ps :
  0 <= ret ->
  (fit x y ret vc sq ps = (-3, ps) <-> flat_test vc sq = true)
  /\ (fst (fit x y ret vc sq ps) = -3 <-> flat_test vc sq = true).
Proof.
  intros Hr. unfold fit, flat_test.
  destruct (f2d (curv vc _ _) <? EPS)%dbl; [cbn; tauto|].
  destruct (f2d (curv vc _ _) <? EPS)%dbl; [cbn; tauto|].
  destruct (f2d (curv vc _ _) <? EPS)%dbl; [cbn; tauto|].
  destruct (f2d (curv vc _ _) <? EPS)%dbl; [cbn; tauto|].
  cbn [orb fst]. split; split; try discriminate.
  - intros H. inversion H. lia.
  - intros H. lia.
Qed.

Lemma fit_filval x y ret vc sq ps r ps' :
  fit x y ret vc sq ps = (r, ps') -> 0 <= r ->
  let fv i j := g_filval (val sq i j) in
  let d2x := curv vc (fv 1 2) (fv 1 0) in
  let sx := slope (fv 1 2) (fv 1 0) in
  let d2y := curv vc (fv 2 1) (fv 0 1) in
  let sy := slope (fv 2 1) (fv 0 1) in
  let v0 :=
    d2f (f2d vc + d0_5 * f2d ((sx * sx) / d2x + (sy * sy) / d2y)%flt)%dbl in
  g_filval ps' = d2f (f2d v0 / d32)%dbl.
Proof.
  unfold fit. intros H Hr.
  repeat match type of H with
         | (if ?b then _ else _) = _ => destruct b; [inversion H; lia|]
         end.
  inversion H; subst. reflexivity.
Qed.

Lemma val_set_val_ne sq i j i' j' m :
  Z.to_nat (3 * i + j) <> Z.to_nat (3 * i' + j') ->
  val (set_val sq i j m) i' j' = val sq i' j'.
Proof.
  intros H. unfold val, set_val. now rewrite list_lookup_insert_ne.
Qed.

Lemma val_replicate n g i j :
  (Z.to_nat (3 * i + j) < n)%nat -> val (replicate n g) i j = g.
Proof.
  intros H. unfold val. now rewrite lookup_replicate_2.
Qed.

Lemma val_replicate_gmom0 n i j : val (replicate n gmom0) i j = gmom0.
Proof.
  unfold val. destruct (replicate n gmom0 !! Z.to_nat (3 * i + j)) as [g'|] eqn:E.
  - apply lookup_replicate in E as [-> _]. reflexivity.
  - reflexivity.
Qed.

Section FlatPatch.
Variables (st : fstate) (xsz ysz c sky x y : Z) (t : sums).
Hypothesis generated : (sigmagen st =? d0)%dbl = false.
Hypothesis ncut_pos : 1 <= sig_ncut st.
Hypothesis xsz_int : xsz <= 2 ^ 31 - 1.
Hypothesis ysz_int : ysz <= 2 ^ 31 - 1.
Hypothesis x_edge : sig_ncut st <= x <= xsz - sig_ncut st - 1.
Hypothesis y_edge : sig_ncut st <= y <= ysz - sig_ncut st - 1.
Hypothesis centre :
  moment_sums st (flat_image xsz ysz c) x y sky = Done t.

Lemma flat_centre ps0 :
  lgausmom st (flat_image xsz ysz c) xsz ysz x y sky ps0
  = Done (finish t ps0, None).
Proof.
  unfold lgausmom. rewrite generated.
  unfold edge_test, iadd. int_range.
  destruct (Z.ltb_spec ysz (sig_ncut st + y)); [lia|].
  destruct (Z.ltb_spec (y + 1) (sig_ncut st)); [lia|].
  rewrite centre. reflexivity.
Qed.

Lemma flat_neighbour i j ps0 :
  0 <= i <= 2 -> 0 <= j <= 2 ->
  lgausmom st (flat_image xsz ysz c) xsz ysz (x + j - 1)%int (y + i - 1)%int
    sky ps0
  = Done (finish t ps0, None).
Proof.
  intros Hi Hj. unfold iadd, isub. int_range.
  rewrite (lgausmom_flat st xsz ysz c sky ysz_int x y); unfold inside; try lia.
  apply flat_centre.
Qed.

Lemma finish_cases ps0 r m :
  finish t ps0 = (r, m) ->
  (s_sum t =? 0) = true /\ r = -1 /\ m = ps0
  \/ (s_sum t =? 0) = false /\ r = 0 /\ g_filval m = i2f (s_sum t).
Proof.
  pose proof (moment_sums_range _ _ _ _ _ _ centre) as Hr.
  unfold finish. rewrite (i2f_eq_zero _ Hr).
  destruct (s_sum t =? 0); intros H; inversion H; subst; auto.
Qed.

Lemma attempt_flat :
  attempt st (flat_image xsz ysz c) xsz ysz sky x y (replicate 9 gmom0)
  = Done (if s_sum t =? 0 then TryMomErr
          else TryMax (i2f (s_sum t)) (replicate 9 (finish t gmom0).2)).
Proof.
  unfold attempt, isub. int_range.
  destruct (Z.ltb_spec x (sig_ncut st)); [lia|].
  destruct (Z.ltb_spec y (sig_ncut st)); [lia|].
  destruct (Z.ltb_spec (xsz - sig_ncut st - 1) x); [lia|].
  destruct (Z.ltb_spec (ysz - sig_ncut st - 1) y); [lia|].
  cbn [orb]. change (val (replicate 9 gmom0) 1 1) with gmom0.
  rewrite flat_centre. cbn [obind].
  destruct (finish t gmom0) as [r m] eqn:Efin. cbn [snd].
  destruct (finish_cases _ _ _ Efin) as [(-> & -> & ->)|(-> & -> & Hv)];
    [reflexivity|].
  cbn [Z.ltb Z.compare]. unfold neighbours. cbn [scan].
  repeat (rewrite flat_neighbour by lia;
          rewrite !val_set_val_ne by (vm_compute; discriminate);
          rewrite val_replicate_gmom0, Efin;
          cbn [obind Z.ltb Z.compare]; rewrite Hv, flt_irrefl).
  reflexivity.
Qed.

Lemma atFindFocMom_flat ps :
  atFindFocMom st (flat_image xsz ysz c) xsz ysz x y sky ps
  = Done (if s_sum t =? 0 then -2 else -3, ps).
Proof.
  unfold atFindFocMom. change (Z.to_nat FINDERR) with 15%nat.
  cbn [find_start]. rewrite attempt_flat.
  destruct (finish t gmom0) as [r m] eqn:Efin. cbn [snd].
  destruct (finish_cases _ _ _ Efin) as [(-> & -> & ->)|(-> & -> & Hv)];
    [reflexivity|].
  cbn [obind]. unfold fit.
  rewrite !val_replicate by (vm_compute; lia).
  pose proof (moment_sums_range _ _ _ _ _ _ centre) as Hr.
  rewrite Hv, (curv_flat _ Hr). reflexivity.
Qed.

End FlatPatch.

(** ** No read outside the image or the filter *)

Lemma cell_some {A} (a : list A) k :
  0 <= k < Z.of_nat (length a) -> exists v, cell a k = Some v.
Proof.
  intros H. unfold cell. destruct (Z.leb_spec 0 k); [|lia].
  destruct (lookup_lt_is_Some_2 a (Z.to_nat k)) as [v Hv]; [lia|]. eauto.
Qed.

Lemma taps_done tap n : forall j0 a,
  (forall j b, j0 <= j < j0 + Z.of_nat n -> exists b', tap j b = Done b') ->
  exists a', taps tap n j0 a = Done a'.
Proof.
  induction n as [|n IH]; intros j0 a H; cbn [taps]; [eauto|].
  destruct (H j0 a) as [a1 E]; [lia|]. rewrite E. cbn [obind].
  apply IH. intros j b Hj. apply H. lia.
Qed.

Section Safe.
Variables (st : fstate) (p : image) (xsz ysz sky : Z).
Hypothesis wf : well_formed st p xsz ysz.

Lemma pix_some r k :
  0 <= r < ysz -> 0 <= k < xsz -> exists v, pix p r k = Some v.
Proof.
  destruct wf as (Lp & Lr & _). intros Hr Hk. unfold pix.
  destruct (cell_some p r) as [row Er]; [lia|]. rewrite Er. cbn.
  apply cell_some. unfold cell in Er.
  destruct (0 <=? r); [|discriminate Er].
  apply list_elem_of_lookup_2 in Er. rewrite Forall_forall in Lr.
  rewrite (Lr _ Er). lia.
Qed.

Lemma kernel_some j :
  0 <= j < sig_ncut st ->
  exists a b c, cell (fgarray st) j = Some a /\ cell (xfgarray st) j = Some b
                /\ cell (x2fgarray st) j = Some c.
Proof.
  destruct wf as (_ & _ & L1 & L2 & L3 & Hn & _). unfold SIZFIL in *. intros Hj.
  destruct (cell_some (fgarray st) j) as [a Ea]; [lia|].
  destruct (cell_some (xfgarray st) j) as [b Eb]; [lia|].
  destruct (cell_some (x2fgarray st) j) as [c Ec]; [lia|].
  eauto 6.
Qed.

Lemma ring_sums_done x y i :
  inside st xsz ysz x y -> 0 <= i < sig_ncut st ->
  exists r, ring_sums st p x y sky i = Done r.
Proof.
  intros (X1 & X2 & Y1 & Y2) Hi.
  assert (Hy : 0 <= ysz <= 2 ^ 31 - 1) by (destruct wf; tauto).
  unfold ring_sums, iadd, isub.
  rewrite !(wrap_small (y + i)), !(wrap_small (y - i)) by lia.
  destruct (kernel_some 0) as (fg0 & _ & _ & E0 & _); [lia|].
  destruct (pix_some (y + i) x) as [cp Ecp]; [lia|lia|].
  destruct (pix_some (y - i) x) as [cm Ecm]; [lia|lia|].
  rewrite Ecp, Ecm, E0. cbn [access obind].
  destruct (i =? 0); apply taps_done; intros j b Hj.
  - unfold ring0_tap.
    destruct (pix_some (y + i) (x + j)) as [v1 E1]; [lia|lia|].
    destruct (pix_some (y + i) (x - j)) as [v2 E2]; [lia|lia|].
    destruct (kernel_some j) as (a1 & a2 & a3 & K1 & K2 & K3); [lia|].
    rewrite E1, E2, K1, K2, K3. cbn [access obind]. eauto.
  - unfold ringi_tap.
    destruct (pix_some (y + i) (x + j)) as [v1 E1]; [lia|lia|].
    destruct (pix_some (y + i) (x - j)) as [v2 E2]; [lia|lia|].
    destruct (pix_some (y - i) (x + j)) as [v3 E3]; [lia|lia|].
    destruct (pix_some (y - i) (x - j)) as [v4 E4]; [lia|lia|].
    destruct (kernel_some j) as (a1 & a2 & a3 & K1 & K2 & K3); [lia|].
    rewrite E1, E2, E3, E4, K1, K2, K3. cbn [access obind]. eauto.
Qed.

Lemma rings_done x y n : forall i t,
  inside st xsz ysz x y -> 0 <= i -> i + Z.of_nat n <= sig_ncut st ->
  exists t', rings st p x y sky n i t = Done t'.
Proof.
  induction n as [|n IH]; intros i t H Hi Hn; cbn [rings]; [eauto|].
  destruct (ring_sums_done x y i) as [r Er]; [assumption|lia|].
  rewrite Er. cbn [obind]. unfold add_ring.
  destruct (kernel_some i) as (a1 & a2 & a3 & K1 & K2 & K3); [lia|].
  rewrite K1, K2, K3. cbn [access obind].
  destruct (_ <? _); cbn [obind]; apply IH; auto; lia.
Qed.

(** Within [inside], [lgausmom] returns, unless its assertion fails. *)
Lemma lgausmom_done x y ps0 :
  (sigmagen st =? d0)%dbl = false -> inside st xsz ysz x y ->
  exists r m, lgausmom st p xsz ysz x y sky ps0 = Done (r, m, None).
Proof.
  intros Hs H. pose proof H as (X1 & X2 & Y1 & Y2).
  destruct wf as (_ & _ & _ & _ & _ & Hn & _ & Hy).
  unfold lgausmom. rewrite Hs.
  unfold edge_test, iadd. int_range.
  destruct (Z.ltb_spec ysz (sig_ncut st + y)); [lia|].
  destruct (Z.ltb_spec (y + 1) (sig_ncut st)); [lia|].
  unfold moment_sums.
  destruct (rings_done x y (Z.to_nat (sig_ncut st)) 0 (Sums 0 0 0 0))
    as [t Et]; [assumption|lia|lia|].
  rewrite Et. cbn [obind]. destruct (finish _ ps0) as [r m]. eauto.
Qed.

Lemma scan_done x y vc todo : forall sq,
  (sigmagen st =? d0)%dbl = false ->
  Forall (fun ij : Z * Z =>
            inside st xsz ysz (x + ij.2 - 1)%int (y + ij.1 - 1)%int) todo ->
  exists s, scan st p xsz ysz x y sky vc todo sq = Done s.
Proof.
  induction todo as [|[i j] todo IH]; intros sq Hs Hin; cbn [scan]; [eauto|].
  inversion Hin as [|? ? H1 H2]; subst. cbn [fst snd] in H1.
  destruct (lgausmom_done (x + j - 1)%int (y + i - 1)%int (val sq i j) Hs H1)
    as (r & m & E).
  rewrite E. cbn [obind].
  destruct (r <? 0); [eauto|]. destruct (vc <? g_filval m)%flt; [eauto|].
  now apply IH.
Qed.

Lemma attempt_done x y sq :
  (sigmagen st =? d0)%dbl = false ->
  exists a, attempt st p xsz ysz sky x y sq = Done a.
Proof.
  intros Hs. destruct wf as (_ & _ & _ & _ & _ & Hn & Hx & Hy).
  unfold SIZFIL in Hn. unfold attempt, isub. cbv zeta. int_range.
  destruct (Z.ltb_spec x (sig_ncut st)); [eauto|].
  destruct (Z.ltb_spec y (sig_ncut st)); [eauto|].
  destruct (Z.ltb_spec (xsz - sig_ncut st - 1) x); [eauto|].
  destruct (Z.ltb_spec (ysz - sig_ncut st - 1) y); [eauto|].
  cbn [orb].
  assert (Hin : inside st xsz ysz x y) by (unfold inside; lia).
  destruct (lgausmom_done x y (val sq 1 1) Hs Hin) as (r & m & E).
  rewrite E. cbn [obind]. destruct (r <? 0); [eauto|].
  destruct (scan_done x y (g_filval m) neighbours (set_val sq 1 1 m) Hs)
    as [s Es].
  { unfold neighbours.
    repeat constructor; cbn [fst snd]; unfold inside, iadd, isub;
      int_range; lia. }
  rewrite Es. cbn [obind]. destruct s; eauto.
Qed.

Lemma find_start_done k : forall x y sq,
  (sigmagen st =? d0)%dbl = false ->
  exists res, find_start st p xsz ysz sky k x y sq = Done res.
Proof.
  induction k as [|k IH]; intros x y sq Hs; cbn [find_start]; [eauto|].
  destruct (attempt_done x y sq Hs) as [a Ea]. rewrite Ea. cbn [obind].
  destruct a; eauto.
Qed.

(** On a well-formed image and filter, [atFindFocMom] returns: none of
    its reads falls outside the image or the filter arrays. *)
Lemma atFindFocMom_done x y ps :
  (sigmagen st =? d0)%dbl = false ->
  exists r ps', atFindFocMom st p xsz ysz x y sky ps = Done (r, ps').
Proof.
  intros Hs. unfold atFindFocMom.
  destruct (find_start_done (Z.to_nat FINDERR) x y (replicate 9 gmom0) Hs)
    as [res E].
  rewrite E. cbn [obind].
  destruct res as [| | |x' y' ret vc sq']; eauto.
  destruct (fit x' y' ret vc sq' ps) as [r ps']. eauto.
Qed.

End Safe.

(** ** The sigma solver *)

Section Solver.
Variable exp : double -> double.
Variables (p : image) (xsz ysz x y sky : Z).

Lemma sigma_body_return st ps sig c st1 ps1 sig1 :
  sigma_body exp p xsz ysz x y sky st ps sig
    = Done (IterReturn c, st1, ps1, sig1) -> c < 0.
Proof.
  unfold sigma_body. intros H.
  repeat step_outcome; inversion H; subst; try lia.
  apply atFindFocMom_range in E1. apply Z.ltb_lt in E2.
  unfold isub. rewrite wrap_small; lia.
Qed.

Lemma sigma_body_tests st ps sig r st1 ps1 sig1 :
  sigma_body exp p xsz ysz x y sky st ps sig = Done (r, st1, ps1, sig1) ->
  (forall c, r <> IterReturn c) ->
  let mom := (g_xmom ps1 + g_ymom ps1)%flt in
  let signew := (sig * dsqrt ((d2 + f2d mom) / f2d (i2f 2 - mom)%flt))%dbl in
  (r = IterBreak <->
     (dabs (f2d mom) <? SIGERR)%dbl = true
     \/ (d2 * dabs (f2d (d2f sig) - signew) <? SIGERR)%dbl = true)
  /\ sig1 = (if (dabs (f2d mom) <? SIGERR)%dbl then sig else signew).
Proof.
  unfold sigma_body. intros H Hr.
  repeat step_outcome; inversion H; subst; try (exfalso; eapply Hr; reflexivity);
    cbn zeta; rewrite ?E4, ?E5; split; try reflexivity; split; auto;
    try discriminate.
  intros [F|F]; discriminate F.
Qed.

(** A pass that does not [return]: the filter is generated for the
    current sigma, [atFindFocMom] succeeds on it, the four moments are
    inside (-1,1), and the two tests decide between [break] and the
    next pass. *)
Lemma sigma_body_pass st ps sig r st1 ps1 sig1 :
  (forall c, r <> IterReturn c) ->
  let mom := (g_xmom ps1 + g_ymom ps1)%flt in
  let signew := (sig * dsqrt ((d2 + f2d mom) / f2d (i2f 2 - mom)%flt))%dbl in
  sigma_body exp p xsz ysz x y sky st ps sig = Done (r, st1, ps1, sig1)
  <-> atSetFSigma exp st sig = Done (0, st1)
      /\ (exists err, 0 <= err
            /\ atFindFocMom st1 p xsz ysz x y sky ps = Done (err, ps1))
      /\ out_of_range (g_xmom ps1) || out_of_range (g_ymom ps1)
         || out_of_range (g_pmom ps1) || out_of_range (g_mmom ps1) = false
      /\ (r = IterBreak <->
            (dabs (f2d mom) <? SIGERR)%dbl = true
            \/ (d2 * dabs (f2d (d2f sig) - signew) <? SIGERR)%dbl = true)
      /\ sig1 = (if (dabs (f2d mom) <? SIGERR)%dbl then sig else signew).
Proof.
  intros Hr mom signew. unfold sigma_body. split.
  - destruct (atSetFSigma exp st sig) as [[r0 st2]|f] eqn:Es; cbn [obind];
      [|discriminate].
    pose proof (atSetFSigma_code _ _ _ _ _ Es) as [(-> & _)|(-> & _)];
      cbn [Z.ltb Z.compare].
    { intros H. inversion H; subst. exfalso. eapply Hr; reflexivity. }
    destruct (atFindFocMom st2 p xsz ysz x y sky ps) as [[err ps2]|f] eqn:Ef;
      cbn [obind]; [|discriminate].
    destruct (Z.ltb_spec err 0) as [Hlt|Hge].
    { intros H. inversion H; subst. exfalso. eapply Hr; reflexivity. }
    destruct (_ || _) eqn:Eo.
    { intros H. inversion H; subst. exfalso. eapply Hr; reflexivity. }
    destruct (dabs _ <? SIGERR)%dbl eqn:E1.
    + intros H. inversion H; subst. subst mom. rewrite E1.
      split; [reflexivity|]. split; [eauto|]. split; [exact Eo|].
      split; [|reflexivity]. split; auto.
    + destruct (d2 * _ <? SIGERR)%dbl eqn:E2;
        intros H; inversion H; subst; subst mom signew; rewrite E1, E2;
        (split; [reflexivity|]); (split; [eauto|]); (split; [exact Eo|]);
        (split; [|reflexivity]); split; auto; try discriminate.
      intros [F|F]; discriminate F.
  - intros (Es & (err & He & Ef) & Eo & Hb & Hs).
    rewrite Es. cbn [obind Z.ltb Z.compare]. rewrite Ef. cbn [obind].
    destruct (Z.ltb_spec err 0) as [Hlt|_]; [lia|].
    rewrite Eo. fold mom. fold signew.
    destruct (dabs (f2d mom) <? SIGERR)%dbl eqn:E1.
    + subst sig1. replace r with IterBreak; [reflexivity|].
      symmetry. apply Hb. left. reflexivity.
    + subst sig1.
      destruct (d2 * dabs (f2d (d2f sig) - signew) <? SIGERR)%dbl eqn:E2.
      * replace r with IterBreak; [reflexivity|].
        symmetry. apply Hb. right. reflexivity.
      * destruct r as [c| |]; [exfalso; eapply Hr; reflexivity| |reflexivity].
        destruct (proj1 Hb eq_refl) as [F|F]; discriminate F.
Qed.

Lemma passes_loop n : forall k st ps sig c1,
  passes exp p xsz ysz x y sky n (st, ps, sig) c1 ->
  sigma_loop exp p xsz ysz x y sky (n + k) st ps sig
  = sigma_loop exp p xsz ysz x y sky k (fst (fst c1)) (snd (fst c1)) (snd c1).
Proof.
  induction n as [|n IH]; intros k st ps sig c1 H;
    inversion H as [|? ? ? ? ? ? ? ? Hb Hp]; subst.
  - reflexivity.
  - cbn [Nat.add sigma_loop]. rewrite Hb. cbn [obind]. now apply IH.
Qed.

Lemma sigma_loop_inv n : forall st ps sig code st' ps' sig',
  sigma_loop exp p xsz ysz x y sky n st ps sig = Done (code, st', ps', sig') ->
  (exists k st1 ps1 sig1 r,
      (k < n)%nat /\ passes exp p xsz ysz x y sky k (st, ps, sig) (st1, ps1, sig1)
      /\ sigma_body exp p xsz ysz x y sky st1 ps1 sig1 = Done (r, st', ps', sig')
      /\ (r = IterBreak /\ code = 0 \/ r = IterReturn code))
  \/ (passes exp p xsz ysz x y sky n (st, ps, sig) (st', ps', sig') /\ code = -3).
Proof.
  induction n as [|n IH]; intros st ps sig code st' ps' sig' H; cbn [sigma_loop] in H.
  - inversion H; subst. right. split; [constructor|reflexivity].
  - destruct (sigma_body exp p xsz ysz x y sky st ps sig) as [[[[r st1] ps1] sig1]|f] eqn:Eb;
      cbn [obind] in H; [|discriminate H].
    destruct r as [c| |].
    + inversion H; subst. left. exists 0%nat, st, ps, sig, (IterReturn code).
      repeat split; auto; try lia. constructor.
    + inversion H; subst. left. exists 0%nat, st, ps, sig, IterBreak.
      repeat split; auto; try lia. constructor.
    + apply IH in H as [(k & st2 & ps2 & sig2 & r & Hk & Hp & Hb & Hr)|(Hp & Hc)].
      * left. exists (S k), st2, ps2, sig2, r. repeat split; auto; try lia.
        econstructor; eauto.
      * right. split; auto. econstructor; eauto.
Qed.

End Solver.

(** * Properties of the specification *)

(** C1.  A pass of the loop of [atSigmaFind] returns no error exactly
    when [atSetFSigma] generates the filter for the current [*sig],
    [atFindFocMom] succeeds with that filter and its four moments are
    inside (-1,1).  For [mom = xmom + ymom] of these moments, the pass
    ends in [break] exactly when [fabs(mom) < SIGERR], or, after
    [*sig *= sqrt((2.+mom)/(2-mom))], when
    [2.*fabs(sigold - *sig) < SIGERR], where [sigold] is the old sigma as
    the float variable holds it.  [atSigmaFind] returns 0 exactly when
    one of the first ten passes ends in [break], all passes before it
    having reached the end of the body; after ten passes without
    [break] or error it returns -3. *)
Theorem atSigmaFind_convergence :
  forall exp st p xsz ysz x y sky ps sig,
    let sig0 := if (sig <? i2d 0)%dbl then SIGGUESS else sig in
    let c0 : config := (st, default gmom0 ps, sig0) in
    (forall st ps sig r st1 ps1 sig1,
       (forall c, r <> IterReturn c) ->
       let mom := (g_xmom ps1 + g_ymom ps1)%flt in
       let signew :=
         (sig * dsqrt ((d2 + f2d mom) / f2d (i2f 2 - mom)%flt))%dbl in
       sigma_body exp p xsz ysz x y sky st ps sig = Done (r, st1, ps1, sig1)
       <-> atSetFSigma exp st sig = Done (0, st1)
           /\ (exists err, 0 <= err
                 /\ atFindFocMom st1 p xsz ysz x y sky ps = Done (err, ps1))
           /\ out_of_range (g_xmom ps1) || out_of_range (g_ymom ps1)
              || out_of_range (g_pmom ps1) || out_of_range (g_mmom ps1)
              = false
           /\ (r = IterBreak <->
                 (dabs (f2d mom) <? SIGERR)%dbl = true
                 \/ (d2 * dabs (f2d (d2f sig) - signew) <? SIGERR)%dbl = true)
           /\ sig1 = (if (dabs (f2d mom) <? SIGERR)%dbl then sig else signew))
    /\ (forall st' ps' sig',
          atSigmaFind exp st p xsz ysz x y sky ps sig = Done (0, st', ps', sig')
          <-> exists n st1 ps1 sig1,
                (n < 10)%nat
                /\ passes exp p xsz ysz x y sky n c0 (st1, ps1, sig1)
                /\ sigma_body exp p xsz ysz x y sky st1 ps1 sig1
                   = Done (IterBreak, st', ps', sig'))
    /\ (forall st' ps' sig',
          passes exp p xsz ysz x y sky 10 c0 (st', ps', sig') ->
          atSigmaFind exp st p xsz ysz x y sky ps sig = Done (-3, st', ps', sig')).
Proof.
  intros exp st p xsz ysz x y sky ps sig sig0 c0. repeat apply conj.
  - intros st0 ps0 sg r st1 ps1 sig1 Hr.
    exact (sigma_body_pass exp p xsz ysz x y sky st0 ps0 sg r st1 ps1 sig1 Hr).
  - intros st' ps' sig'. unfold atSigmaFind. fold sig0.
    change (Z.to_nat SIGITERAT) with 10%nat. split.
    + intros H. apply sigma_loop_inv in H
        as [(k & st2 & ps2 & sig2 & r & Hk & Hp & Hb & Hr)|(_ & Hc)]; [|discriminate Hc].
      destruct Hr as [[-> _]| ->].
      * exists k, st2, ps2, sig2. auto.
      * apply sigma_body_return in Hb. lia.
    + intros (n & st1 & ps1 & sig1 & Hn & Hp & Hb).
      replace 10%nat with (n + S (9 - n))%nat by lia.
      rewrite (passes_loop exp p xsz ysz x y sky n _ _ _ _ _ Hp).
      cbn [fst snd sigma_loop]. rewrite Hb. reflexivity.
  - intros st' ps' sig' Hp. unfold atSigmaFind. fold sig0.
    change (Z.to_nat SIGITERAT) with (10 + 0)%nat.
    rewrite (passes_loop exp p xsz ysz x y sky 10 _ _ _ _ _ Hp). reflexivity.
Qed.

Lemma atSigmaFind_convergence_witness :
  exists n st1 ps1 sig1,
    (n < 10)%nat
    /\ passes exp_ref star13 13 13 6 6 0 n (fstate0, gmom0, d0_9)
         (st1, ps1, sig1)
    /\ atSetFSigma exp_ref st1 sig1 = Done (0, star_run.1.1.2)
    /\ (exists err, 0 <= err
          /\ atFindFocMom star_run.1.1.2 star13 13 13 6 6 0 ps1
             = Done (err, star_run.1.2))
    /\ let mom := (g_xmom star_run.1.2 + g_ymom star_run.1.2)%flt in
       let signew :=
         (sig1 * dsqrt ((d2 + f2d mom) / f2d (i2f 2 - mom)%flt))%dbl in
       ((dabs (f2d mom) <? SIGERR)%dbl = true
        \/ (d2 * dabs (f2d (d2f sig1) - signew) <? SIGERR)%dbl = true)
       /\ star_run.2
          = (if (dabs (f2d mom) <? SIGERR)%dbl then sig1 else signew).
Proof.
  pose proof (atSigmaFind_convergence
                exp_ref fstate0 star13 13 13 6 6 0 None d0_9) as (H1 & H2 & _).
  destruct (proj1 (H2 star_run.1.1.2 star_run.1.2 star_run.2))
    as (n & st1 & ps1 & sig1 & Hn & Hp & Hb); [vm_compute; reflexivity|].
  apply H1 in Hb as (Hs & Hf & _ & Ht & Hsig); [|discriminate].
  exists n, st1, ps1, sig1.
  split; [exact Hn|]. split; [exact Hp|]. split; [exact Hs|].
  split; [exact Hf|]. split; [apply Ht; reflexivity|exact Hsig].
Defined.

(** C2.  When the edge tests pass and every read is inside the image,
    with [sum], [x2sum], [y2sum], [xysum] the running totals after the
    final shift by 5 bits and [fsum = (float)sum]: [lgausmom] returns -1
    (zero integral, nothing printed, [*ps] untouched) exactly when
    [fsum == 0], which is exactly when [sum] is 0; otherwise it returns 0
    with [xmom = (2*x2sum - sum)/fsum], [ymom = (2*y2sum - sum)/fsum],
    [pmom = (x2sum - 2*xysum + y2sum - sum)/fsum],
    [mmom = (x2sum + 2*xysum + y2sum - sum)/fsum] and [filval = fsum]. *)
Theorem lgausmom_moments :
  forall st p xsz ysz x y sky ps t,
    (sigmagen st =? d0)%dbl = false ->
    edge_test st ysz y = None ->
    rings st p x y sky (Z.to_nat (sig_ncut st)) 0 (Sums 0 0 0 0) = Done t ->
    let sum := (s_sum t >> 5)%int in
    let x2sum := (s_x2sum t >> 5)%int in
    let y2sum := (s_y2sum t >> 5)%int in
    let xysum := (s_xysum t >> 5)%int in
    let fsum := i2f sum in
    (lgausmom st p xsz ysz x y sky ps = Done (-1, ps, None)
     <-> (fsum =? i2f 0)%flt = true)
    /\ (fsum =? i2f 0)%flt = (sum =? 0)
    /\ ((fsum =? i2f 0)%flt = false ->
        lgausmom st p xsz ysz x y sky ps
        = Done (0,
                GaussMom
                  (d2f (i2d (2 * x2sum - sum)%int / f2d fsum)%dbl)
                  (d2f (i2d (2 * y2sum - sum)%int / f2d fsum)%dbl)
                  (d2f (i2d (x2sum - 2 * xysum + y2sum - sum)%int
                        / f2d fsum)%dbl)
                  (d2f (i2d (x2sum + 2 * xysum + y2sum - sum)%int
                        / f2d fsum)%dbl)
                  fsum (g_xf ps) (g_yf ps),
                None)).
Proof.
  intros st p xsz ysz x y sky ps t Hs He Hr sum x2sum y2sum xysum fsum.
  assert (Hm : moment_sums st p x y sky = Done (Sums sum x2sum y2sum xysum))
    by (unfold moment_sums; rewrite Hr; reflexivity).
  pose proof (moment_sums_range _ _ _ _ _ _ Hm) as Hrange.
  cbn [s_sum] in Hrange.
  unfold lgausmom. rewrite Hs, He, Hm. cbn [obind].
  unfold finish. cbn [s_sum s_x2sum s_y2sum s_xysum]. fold fsum.
  split; [|split; [apply (i2f_eq_zero _ Hrange)|]].
  - destruct (fsum =? i2f 0)%flt; split; intros H;
      try reflexivity; try discriminate H.
  - intros ->. reflexivity.
Qed.

Lemma lgausmom_moments_witness :
  let t := Sums 579604 591341 591340 0 in
  let sum := (s_sum t >> 5)%int in
  let x2sum := (s_x2sum t >> 5)%int in
  let y2sum := (s_y2sum t >> 5)%int in
  let xysum := (s_xysum t >> 5)%int in
  let fsum := i2f sum in
  (lgausmom st_sigma1 flat12 12 12 5 5 10 gmom0 = Done (-1, gmom0, None)
   <-> (fsum =? i2f 0)%flt = true)
  /\ (fsum =? i2f 0)%flt = (sum =? 0)
  /\ ((fsum =? i2f 0)%flt = false ->
      lgausmom st_sigma1 flat12 12 12 5 5 10 gmom0
      = Done (0,
              GaussMom
                (d2f (i2d (2 * x2sum - sum)%int / f2d fsum)%dbl)
                (d2f (i2d (2 * y2sum - sum)%int / f2d fsum)%dbl)
                (d2f (i2d (x2sum - 2 * xysum + y2sum - sum)%int
                      / f2d fsum)%dbl)
                (d2f (i2d (x2sum + 2 * xysum + y2sum - sum)%int
                      / f2d fsum)%dbl)
                fsum (g_xf gmom0) (g_yf gmom0),
              None)).
Proof.
  apply (lgausmom_moments st_sigma1 flat12 12 12 5 5 10 gmom0
           (Sums 579604 591341 591340 0));
    [reflexivity | reflexivity | vm_compute; reflexivity].
Defined.

(** C3.  Once a filter has been generated, [lgausmom] returns
    -1 at an edge test (and prints its line) exactly when the rows it
    reads, [y-(ncut-1)] to [y+(ncut-1)], do not all lie in [0, ysz):
    when [y - (ncut-1) < 0] or [y + (ncut-1) >= ysz].  So [y = ncut - 1]
    and [y + ncut = ysz] pass the test. *)
Theorem lgausmom_edge_rows :
  forall st p xsz ysz x y sky ps,
    (sigmagen st =? d0)%dbl = false ->
    0 <= sig_ncut st ->
    - 2^31 <= y -> y + sig_ncut st <= 2^31 - 1 -> y + 1 <= 2^31 - 1 ->
    ((exists d, lgausmom st p xsz ysz x y sky ps = Done (-1, ps, Some d))
     <-> (y - (sig_ncut st - 1) < 0 \/ ysz <= y + (sig_ncut st - 1))).
Proof.
  intros st p xsz ysz x y sky ps Hs Hn Hy Hyn Hy1.
  rewrite <- (edge_test_spec st ysz y) by assumption.
  unfold lgausmom. rewrite Hs.
  destruct (edge_test st ysz y) as [d|].
  - split; intros _; eauto.
  - split; intros [d H]; [|discriminate H].
    destruct (moment_sums st p x y sky); cbn in H; [|discriminate H].
    inversion H.
Qed.

Lemma lgausmom_edge_rows_witness :
  (exists d, lgausmom st_sigma1 flat12 12 12 5 3 10 gmom0
             = Done (-1, gmom0, Some d))
  <-> (3 - (sig_ncut st_sigma1 - 1) < 0 \/ 12 <= 3 + (sig_ncut st_sigma1 - 1)).
Proof.
  apply (lgausmom_edge_rows st_sigma1 flat12 12 12 5 3 10 gmom0);
    [reflexivity | cbn; lia ..].
Defined.

Lemma lgausmom_edge_counterexample :
  4 < sig_ncut st_sigma1 /\ 7 + sig_ncut st_sigma1 >= 12
  /\ (exists m, lgausmom st_sigma1 flat12 12 12 5 4 10 gmom0 = Done (0, m, None))
  /\ (exists m, lgausmom st_sigma1 flat12 12 12 5 7 10 gmom0 = Done (0, m, None)).
Proof.
  split; [cbn; lia|]. split; [cbn; lia|].
  split; eexists; vm_compute; reflexivity.
Qed.

(** C4.  After every call of [atSetFSigma] that returns 0, in
    a state reached from program start, with [ncut = (int)(4.*sigma +
    1.5)] the untrimmed half-width of the cached sigma: [fgarray] is
    zero at every index from [ncut] up to 50; [sig_ncut] is at most
    [ncut], and is [ncut] itself when no tap [1 <= j < ncut] has a zero
    second-order weight, and otherwise the last such tap.  The call
    leaves [xfgarray] and [x2fgarray] as they were from index [ncut] on:
    they are not zeroed. *)
Theorem atSetFSigma_kernel_tail :
  forall exp st sigma st',
    reachable exp st ->
    atSetFSigma exp st sigma = Done (0, st') ->
    kernel_inv st'
    /\ (forall ncut i,
          d2i (d4 * sigma + d1_5)%dbl = Some ncut -> ncut <= i ->
          cell (xfgarray st') i = cell (xfgarray st) i
          /\ cell (x2fgarray st') i = cell (x2fgarray st) i).
Proof.
  intros exp st sigma st' Hr Hc.
  apply atSetFSigma_regenerated in Hc
    as [(R & _)|[(_ & -> & G & Eq)|(_ & Hs & ncut & Hn & Hz & Hu & Ht)]];
    [discriminate R| |].
  - split; [|auto]. apply reachable_inv in Hr as [->|Hi]; [|exact Hi].
    exfalso. cbn [sigmagen fstate0] in Eq. apply deq_dle in Eq.
    rewrite Eq in G. discriminate G.
  - split.
    + exists ncut. rewrite Hs. repeat split; auto. eapply trimmed_le; eauto.
    + intros n i Hn' Hi. rewrite Hn in Hn'. inversion Hn'; subst. auto.
Qed.

Lemma atSetFSigma_kernel_tail_witness :
  kernel_inv st_sigma1
  /\ (forall ncut i,
        d2i (d4 * d1 + d1_5)%dbl = Some ncut -> ncut <= i ->
        cell (xfgarray st_sigma1) i = cell (xfgarray fstate0) i
        /\ cell (x2fgarray st_sigma1) i = cell (x2fgarray fstate0) i).
Proof.
  apply (atSetFSigma_kernel_tail exp_ref fstate0 d1 st_sigma1);
    [apply reach_start | vm_compute; reflexivity].
Defined.

Lemma atSetFSigma_tail_counterexample :
  (exists st12 st1,
      atSetFSigma exp_ref fstate0 d12 = Done (0, st12)
      /\ atSetFSigma exp_ref st12 d1 = Done (0, st1)
      /\ sig_ncut st1 = 5
      /\ cell (xfgarray st1) 10 = Some 301
      /\ cell (x2fgarray st1) 10 = Some 251
      /\ ~ kernel_tail_zero st1)
  /\ atSetFSigma exp_ref fstate0 d1 = Done (0, st_sigma1)
  /\ sig_ncut st_sigma1 = 5
  /\ cell (x2fgarray st_sigma1) 4 = Some 10
  /\ drop 5 (x2fgarray st_sigma1) = replicate 45 0.
Proof.
  split.
  - eexists. eexists. split; [vm_compute; reflexivity|].
    split; [vm_compute; reflexivity|].
    split; [reflexivity|]. split; [reflexivity|]. split; [reflexivity|].
    intros H. destruct (H 10) as (_ & _ & H3); [unfold SIZFIL; cbn [sig_ncut]; lia|].
    discriminate H3.
  - split; [vm_compute; reflexivity|]. split; [reflexivity|].
    split; reflexivity.
Qed.

(** C5.  On a constant image, where every
    pixel difference is zero, the x-antisymmetric partial sum [lxsum] of
    the central ring is 0 with [sky = 0] and -9400 = -2*10*(311+139+18+2)
    with [sky = 10]: the central ring subtracts [2*sky] from each
    difference.  Ring 1 gives 0 for both. *)
Theorem ring0_lxsum_subtracts_sky :
  ring_sums st_sigma1 flat12 5 5 0 0 = Done (Ring 128400 0 131000)
  /\ ring_sums st_sigma1 flat12 5 5 10 0 = Done (Ring 115560 (-9400) 117900)
  /\ ring_sums st_sigma1 flat12 5 5 0 1 = Done (Ring 256800 0 262000)
  /\ ring_sums st_sigma1 flat12 5 5 10 1 = Done (Ring 231120 0 235800).
Proof. repeat split; vm_compute; reflexivity. Qed.

(** C6.  [atFindFocMom] returns a value between -3 and 14.
    After 15 relocations it returns -1; when the edge test fails, at
    the first centre or after fewer than 15 relocations, it returns the
    same -1.  When it returns [r >= 0], [r] is the number of
    relocations it made before it found a centre that is a maximum of
    its 3x3 grid. *)
Theorem atFindFocMom_retries :
  forall st p xsz ysz x y sky ps,
    let c0 := (x, y, replicate 9 gmom0) in
    (forall r ps', atFindFocMom st p xsz ysz x y sky ps = Done (r, ps') ->
                   -3 <= r <= 14)
    /\ (forall c, relocates st p xsz ysz sky 15 c0 c ->
                  atFindFocMom st p xsz ysz x y sky ps = Done (-1, ps))
    /\ (forall n x' y' sq',
          (n < 15)%nat -> relocates st p xsz ysz sky n c0 (x', y', sq') ->
          attempt st p xsz ysz sky x' y' sq' = Done TryEdge ->
          atFindFocMom st p xsz ysz x y sky ps = Done (-1, ps))
    /\ (forall r ps',
          atFindFocMom st p xsz ysz x y sky ps = Done (r, ps') -> 0 <= r ->
          exists x' y' sq' vc sqm,
            relocates st p xsz ysz sky (Z.to_nat r) c0 (x', y', sq')
            /\ attempt st p xsz ysz sky x' y' sq' = Done (TryMax vc sqm)
            /\ fit x' y' r vc sqm ps = (r, ps')).
Proof.
  intros st p xsz ysz x y sky ps c0. repeat apply conj.
  - intros r ps' H. apply atFindFocMom_inv in H as (res & Hf & Hres).
    apply find_start_inv in Hf as (n & x' & y' & sq' & Hn & _ & Hm).
    destruct res as [| | |xm ym ret vc sqm]; try lia.
    destruct Hm as (Hlt & _ & _ & Hret & _).
    pose proof (fit_code xm ym ret vc sqm ps) as Hc. rewrite <- Hres in Hc.
    cbn [fst] in Hc. unfold FINDERR in Hret. lia.
  - intros [[x' y'] sq'] H. unfold atFindFocMom.
    change (Z.to_nat FINDERR) with (15 + 0)%nat.
    rewrite (relocates_find _ _ _ _ _ _ _ _ _ _ _ _ _ H). reflexivity.
  - intros n x' y' sq' Hn H Ha. unfold atFindFocMom.
    replace (Z.to_nat FINDERR) with (n + S (14 - n))%nat by (unfold FINDERR; lia).
    rewrite (relocates_find _ _ _ _ _ _ _ _ _ _ _ _ _ H).
    cbn [find_start]. rewrite Ha. reflexivity.
  - intros r ps' H Hr. apply atFindFocMom_inv in H as (res & Hf & Hres).
    apply find_start_inv in Hf as (n & x' & y' & sq' & Hn & Hrel & Hm).
    destruct res as [| | |xm ym ret vc sqm]; try lia.
    destruct Hm as (Hlt & -> & -> & Hret & Ha).
    pose proof (fit_code x' y' ret vc sqm ps) as Hc. rewrite <- Hres in Hc.
    cbn [fst] in Hc. destruct Hc as [Hc|Hc]; [lia|]. subst r.
    unfold FINDERR in Hret.
    replace (Z.to_nat ret) with n by lia.
    exists x', y', sq', vc, sqm. auto.
Qed.

Lemma atFindFocMom_retries_witness :
  exists x' y' sq' vc sqm,
    relocates st_narrow tent 11 3 0 (Z.to_nat 2)
      (3, 1, replicate 9 gmom0) (x', y', sq')
    /\ attempt st_narrow tent 11 3 0 x' y' sq' = Done (TryMax vc sqm)
    /\ fit x' y' 2 vc sqm gmom0 = (2, tent_result).
Proof.
  apply (proj2 (proj2 (proj2
           (atFindFocMom_retries st_narrow tent 11 3 3 1 0 gmom0))));
    [vm_compute; reflexivity | lia].
Defined.

Lemma atFindFocMom_limit_counterexample :
  find_start st_narrow ramp 18 3 0 15 1 1 (replicate 9 gmom0) = Done FindLimit
  /\ atFindFocMom st_narrow ramp 18 3 1 1 0 gmom0 = Done (-1, gmom0)
  /\ attempt st_narrow ramp 18 3 0 0 1 (replicate 9 gmom0) = Done TryEdge
  /\ atFindFocMom st_narrow ramp 18 3 0 1 0 gmom0 = Done (-1, gmom0).
Proof. repeat split; vm_compute; reflexivity. Qed.

(** C7.  Once a centre is a maximum of its 3x3 grid of
    [lgausmom] values, [atFindFocMom] returns -3 exactly when one of the
    four curvatures [2.*vc - plus - minus] (horizontal, vertical, two
    diagonals) is below 1e-10.  On an image whose samples are all
    equal, at a location that passes the edge test: it returns -2 when
    the shifted zeroth total [sum] of [lgausmom] is zero, and -3
    otherwise. *)
Theorem atFindFocMom_flat_peak :
  (forall st p xsz ysz x y sky ps n x' y' sq' vc sq,
      (n < 15)%nat ->
      relocates st p xsz ysz sky n (x, y, replicate 9 gmom0) (x', y', sq') ->
      attempt st p xsz ysz sky x' y' sq' = Done (TryMax vc sq) ->
      vc = g_filval (val sq 1 1)
      /\ grid_at st p xsz ysz sky x' y' sq
      /\ (atFindFocMom st p xsz ysz x y sky ps = Done (-3, ps)
          <-> flat_test vc sq = true))
  /\ (forall st xsz ysz c x y sky ps t,
        (sigmagen st =? d0)%dbl = false ->
        1 <= sig_ncut st ->
        xsz <= 2 ^ 31 - 1 -> ysz <= 2 ^ 31 - 1 ->
        sig_ncut st <= x <= xsz - sig_ncut st - 1 ->
        sig_ncut st <= y <= ysz - sig_ncut st - 1 ->
        moment_sums st (flat_image xsz ysz c) x y sky = Done t ->
        atFindFocMom st (flat_image xsz ysz c) xsz ysz x y sky ps
        = Done (if s_sum t =? 0 then -2 else -3, ps)).
Proof.
  split.
  - intros st p xsz ysz x y sky ps n x' y' sq' vc sq Hn Hrel Ha.
    assert (L : length sq' = 9%nat).
    { apply relocates_length in Hrel. rewrite Hrel. apply length_replicate. }
    destruct (attempt_max_grid _ _ _ _ _ _ _ _ _ _ L Ha) as (Hvc & Hg).
    split; [exact Hvc|]. split; [exact Hg|].
    assert (E : atFindFocMom st p xsz ysz x y sky ps
                = Done (fit x' y' (Z.of_nat n) vc sq ps)).
    { unfold atFindFocMom.
      replace (Z.to_nat FINDERR) with (n + S (14 - n))%nat by (unfold FINDERR; lia).
      rewrite (relocates_find _ _ _ _ _ _ _ _ _ _ _ _ _ Hrel).
      cbn [find_start]. rewrite Ha. cbn [obind]. unfold FINDERR.
      do 3 f_equal. lia. }
    rewrite E.
    destruct (fit_flat_iff x' y' (Z.of_nat n) vc sq ps) as (F & _); [lia|].
    rewrite <- F. split; congruence.
  - intros. now apply atFindFocMom_flat.
Qed.

Lemma atFindFocMom_flat_peak_witness :
  atFindFocMom st_sigma1 (flat_image 12 12 100) 12 12 5 5 10 gmom0
  = Done (if 18112 =? 0 then -2 else -3, gmom0).
Proof.
  apply (proj2 atFindFocMom_flat_peak st_sigma1 12 12 100 5 5 10 gmom0
           (Sums 18112 18479 18479 0));
    [reflexivity | cbn; lia | lia | lia | cbn; lia | cbn; lia
    | vm_compute; reflexivity].
Defined.

Lemma atFindFocMom_flat_counterexample :
  sig_ncut st_sigma1 <= 5 <= 12 - sig_ncut st_sigma1 - 1
  /\ attempt st_sigma1 (flat_image 12 12 100) 12 12 100 5 5
       (replicate 9 gmom0) = Done TryMomErr
  /\ atFindFocMom st_sigma1 (flat_image 12 12 100) 12 12 5 5 100 gmom0
     = Done (-2, gmom0).
Proof.
  split; [cbn; lia|]. split; vm_compute; reflexivity.
Qed.

(** C8.  [atSetFSigma] returns -1 exactly when [sigma <= 0.] or
    [sigma > 12.], and then the statics are unchanged; sigma = 12
    succeeds, sigma = 0 and sigma = 12.01 fail. *)
Theorem atSetFSigma_invalid_parameter :
  forall (exp : double -> double) (st : fstate) (sigma : double),
    ((exists st', atSetFSigma exp st sigma = Done (-1, st'))
       <-> (sigma <=? d0)%dbl || (d12 <? sigma)%dbl = true)
    /\ (forall st', atSetFSigma exp st sigma = Done (-1, st') -> st' = st)
    /\ (exists st', atSetFSigma exp_ref fstate0 d12 = Done (0, st'))
    /\ atSetFSigma exp st d0 = Done (-1, st)
    /\ atSetFSigma exp st d12_01 = Done (-1, st).
Proof.
  intros exp st sigma. split; [split|split; [|split; [|split]]].
  - intros [st' H]. apply atSetFSigma_code in H as [(_ & _ & G)|(R & _)]; [exact G | discriminate R].
  - intros G. exists st. unfold atSetFSigma. now rewrite G.
  - intros st' H. apply atSetFSigma_code in H as [(_ & S & _)|(R & _)]; [exact S | discriminate R].
  - eexists. vm_compute. reflexivity.
  - reflexivity.
  - reflexivity.
Qed.

(** C9.  In a call of [lgausmom] that passes the assertion and the row
    tests, on an image whose rows hold [xsz] samples: when
    [x < ncut - 1] or [x > xsz - ncut], a read falls outside a row, and
    no error is returned.  [xsz] plays no part in the result.
    [atFindFocMom] on the same input returns -1 at its own edge test,
    before any read; and with its test, on every image of [ysz] rows of
    [xsz] samples, [atFindFocMom] returns without a read outside the
    image or the filter arrays. *)
Theorem lgausmom_column_unchecked :
  (forall st p xsz ysz x y sky ps,
      (sigmagen st =? d0)%dbl = false ->
      edge_test st ysz y = None ->
      1 <= sig_ncut st <= SIZFIL ->
      0 <= xsz <= 2 ^ 31 - 1 ->
      Forall (fun row : list Z => length row = Z.to_nat xsz) p ->
      x < sig_ncut st - 1 \/ x > xsz - sig_ncut st ->
      lgausmom st p xsz ysz x y sky ps = Fault OutOfBounds
      /\ (forall xsz', lgausmom st p xsz' ysz x y sky ps
                       = lgausmom st p xsz ysz x y sky ps)
      /\ atFindFocMom st p xsz ysz x y sky ps = Done (-1, ps))
  /\ (forall st p xsz ysz x y sky ps,
        (sigmagen st =? d0)%dbl = false ->
        well_formed st p xsz ysz ->
        exists r ps', atFindFocMom st p xsz ysz x y sky ps = Done (r, ps')).
Proof.
  split.
  - intros st p xsz ysz x y sky ps Hs He Hn Hx Hrows Hbad.
    unfold SIZFIL in Hn. split; [|split].
    + unfold lgausmom, moment_sums. rewrite Hs, He.
      destruct (Z.to_nat (sig_ncut st)) as [|n] eqn:En; [lia|].
      cbn [rings]. rewrite (ring0_oob st p xsz x y sky) by (auto; lia).
      reflexivity.
    + reflexivity.
    + unfold atFindFocMom. change (Z.to_nat FINDERR) with 15%nat.
      cbn [find_start]. unfold attempt, isub. int_range.
      destruct Hbad as [Hb|Hb].
      * destruct (Z.ltb_spec x (sig_ncut st)); [reflexivity|lia].
      * destruct (Z.ltb_spec (xsz - sig_ncut st - 1) x) as [_|]; [|lia].
        rewrite !orb_true_r. reflexivity.
  - intros st p xsz ysz x y sky ps Hs Hwf.
    now apply atFindFocMom_done.
Qed.

Lemma lgausmom_column_unchecked_witness :
  (lgausmom st_sigma1 flat12 12 12 3 5 10 gmom0 = Fault OutOfBounds
   /\ (forall xsz', lgausmom st_sigma1 flat12 xsz' 12 3 5 10 gmom0
                    = lgausmom st_sigma1 flat12 12 12 3 5 10 gmom0)
   /\ atFindFocMom st_sigma1 flat12 12 12 3 5 10 gmom0 = Done (-1, gmom0))
  /\ (exists r ps',
        atFindFocMom st_narrow ramp 18 3 1 1 0 gmom0 = Done (r, ps')).
Proof.
  split.
  - apply (proj1 lgausmom_column_unchecked
             st_sigma1 flat12 12 12 3 5 10 gmom0);
      [reflexivity | reflexivity | unfold SIZFIL; cbn; lia | lia
      | repeat constructor | cbn; lia].
  - apply (proj2 lgausmom_column_unchecked st_narrow ramp 18 3 1 1 0 gmom0);
      [reflexivity|].
    unfold well_formed, SIZFIL.
    split; [reflexivity|]. split; [repeat constructor|].
    split; [reflexivity|]. split; [reflexivity|]. split; [reflexivity|].
    cbn [sig_ncut st_narrow]. lia.
Defined.

(** C10.  When [atFindFocMom] succeeds, with [vc] the [filval] that
    [lgausmom] returns at the final centre, [d2x = 2.*vc - v12 - v10],
    [sx = 0.5*(v12 - v10)], [d2y = 2.*vc - v21 - v01] and
    [sy = 0.5*(v21 - v01)] for the [filval]s [v12], [v10], [v21], [v01]
    that [lgausmom] returns at the right, left, lower and upper
    neighbours, the [filval] it returns is [v0/32.] for
    [v0 = vc + 0.5*((sx*sx)/d2x + (sy*sy)/d2y)]. *)
Theorem atFindFocMom_filval :
  forall st p xsz ysz x y sky ps r ps',
    atFindFocMom st p xsz ysz x y sky ps = Done (r, ps') -> 0 <= r ->
    exists x' y' sq' sq,
      relocates st p xsz ysz sky (Z.to_nat r)
        (x, y, replicate 9 gmom0) (x', y', sq')
      /\ grid_at st p xsz ysz sky x' y' sq
      /\ let fv i j := g_filval (val sq i j) in
         let vc := fv 1 1 in
         let d2x := d2f (d2 * f2d vc - f2d (fv 1 2) - f2d (fv 1 0))%dbl in
         let sx := d2f (d0_5 * f2d (fv 1 2 - fv 1 0)%flt)%dbl in
         let d2y := d2f (d2 * f2d vc - f2d (fv 2 1) - f2d (fv 0 1))%dbl in
         let sy := d2f (d0_5 * f2d (fv 2 1 - fv 0 1)%flt)%dbl in
         let v0 :=
           d2f (f2d vc
                + d0_5 * f2d ((sx * sx) / d2x + (sy * sy) / d2y)%flt)%dbl in
         g_filval ps' = d2f (f2d v0 / d32)%dbl.
Proof.
  intros st p xsz ysz x y sky ps r ps' H Hr.
  apply atFindFocMom_inv in H as (res & Hf & Hres).
  apply find_start_inv in Hf as (n & x' & y' & sq' & Hn & Hrel & Hm).
  destruct res as [| | |xm ym ret vc sqm]; try lia.
  destruct Hm as (Hlt & -> & -> & Hret & Ha).
  assert (L : length sq' = 9%nat).
  { apply relocates_length in Hrel. rewrite Hrel. apply length_replicate. }
  destruct (attempt_max_grid _ _ _ _ _ _ _ _ _ _ L Ha) as (Hvc & Hg).
  pose proof (fit_code x' y' ret vc sqm ps) as Hc. rewrite <- Hres in Hc.
  cbn [fst] in Hc. destruct Hc as [Hc|Hc]; [lia|].
  rewrite <- Hc in Hret. unfold FINDERR in Hret.
  exists x', y', sq', sqm. replace (Z.to_nat r) with n by lia.
  split; [exact Hrel|]. split; [exact Hg|].
  cbv beta zeta. rewrite <- Hvc.
  pose proof (fit_filval _ _ _ _ _ _ _ _ (eq_sym Hres) Hr) as F.
  cbv beta zeta in F. unfold curv, slope in F. exact F.
Qed.

Lemma atFindFocMom_filval_witness :
  exists x' y' sq' sq,
    relocates st_narrow skew 7 3 0 (Z.to_nat 1)
      (2, 1, replicate 9 gmom0) (x', y', sq')
    /\ grid_at st_narrow skew 7 3 0 x' y' sq
    /\ let fv i j := g_filval (val sq i j) in
       let vc := fv 1 1 in
       let d2x := d2f (d2 * f2d vc - f2d (fv 1 2) - f2d (fv 1 0))%dbl in
       let sx := d2f (d0_5 * f2d (fv 1 2 - fv 1 0)%flt)%dbl in
       let d2y := d2f (d2 * f2d vc - f2d (fv 2 1) - f2d (fv 0 1))%dbl in
       let sy := d2f (d0_5 * f2d (fv 2 1 - fv 0 1)%flt)%dbl in
       let v0 :=
         d2f (f2d vc
              + d0_5 * f2d ((sx * sx) / d2x + (sy * sy) / d2y)%flt)%dbl in
       g_filval skew_result = d2f (f2d v0 / d32)%dbl.
Proof.
  apply (atFindFocMom_filval st_narrow skew 7 3 2 1 0 gmom0 1 skew_result);
    [vm_compute; reflexivity | lia].
Defined.

(** The peak of [tent]: [lgausmom] gives 2240 at the centre, and
    [atFindFocMom] returns 70 = 2240/32 for it. *)
Lemma tent_scale :
  (exists m, lgausmom st_narrow tent 11 3 5 1 0 gmom0 = Done (0, m, None)
             /\ g_filval m = i2f 2240)
  /\ atFindFocMom st_narrow tent 11 3 3 1 0 gmom0 = Done (2, tent_result)
  /\ g_filval tent_result = i2f 70.
Proof.
  split; [eexists; split; vm_compute; reflexivity|].
  split; vm_compute; reflexivity.
Qed.

(** The peak of [skew], reached from the guess (2,1) in one relocation:
    [lgausmom] gives 2240 at the centre (3,1) and 1280, 1600, 1920, 1280
    to its right, to its left, below and above, so [sx = -160],
    [sy = 320], [d2x = 1600] and [d2y = 1280], the correction is
    [0.5*(16 + 80) = 48], and [atFindFocMom] returns 71.5 = 2288/32,
    where the centre alone would give 70 = 2240/32. *)
Lemma skew_scale :
  let fv x y :=
    match lgausmom st_narrow skew 7 3 x y 0 gmom0 with
    | Done (_, m, _) => g_filval m
    | Fault _ => g_filval gmom0
    end in
  let vc := fv 3 1 in
  let d2x := d2f (d2 * f2d vc - f2d (fv 4 1) - f2d (fv 2 1))%dbl in
  let sx := d2f (d0_5 * f2d (fv 4 1 - fv 2 1)%flt)%dbl in
  let d2y := d2f (d2 * f2d vc - f2d (fv 3 2) - f2d (fv 3 0))%dbl in
  let sy := d2f (d0_5 * f2d (fv 3 2 - fv 3 0)%flt)%dbl in
  let v0 :=
    d2f (f2d vc + d0_5 * f2d ((sx * sx) / d2x + (sy * sy) / d2y)%flt)%dbl in
  atFindFocMom st_narrow skew 7 3 2 1 0 gmom0 = Done (1, skew_result)
  /\ vc = i2f 2240
  /\ sx = i2f (-160) /\ d2x = i2f 1600 /\ sy = i2f 320 /\ d2y = i2f 1280
  /\ v0 = i2f 2288
  /\ g_filval skew_result = d2f (f2d v0 / d32)%dbl
  /\ g_filval skew_result = d2f (i2d 143 / d2)%dbl
  /\ d2f (f2d vc / d32)%dbl = i2f 70
  /\ g_filval skew_result <> i2f 70.
Proof.
  cbv zeta. repeat (split; [vm_compute; reflexivity|]).
  vm_compute. discriminate.
Qed.

(** * Proofs of the further properties *)

(** ** Return codes *)

Lemma find_start_ret st p xsz ysz sky k x y sq xm ym ret vc sqm :
  find_start st p xsz ysz sky k x y sq = Done (FindMax xm ym ret vc sqm) ->
  FINDERR - Z.of_nat k <= ret < FINDERR.
Proof.
  intros H. apply find_start_inv in H as (n & x' & y' & sq' & Hn & _ & Hm).
  destruct Hm as (Hlt & _ & _ & Hret & _). lia.
Qed.

Lemma atFindFocMom_failure st p xsz ysz x y sky ps r ps' :
  atFindFocMom st p xsz ysz x y sky ps = Done (r, ps') -> r < 0 -> ps' = ps.
Proof.
  intros H Hr. apply atFindFocMom_inv in H as (res & Hf & Hres).
  destruct res as [| | |xm ym ret vc sqm]; try tauto.
  apply find_start_ret in Hf. unfold FINDERR in Hf. cbn in Hf.
  destruct (fit_flat_iff xm ym ret vc sqm ps) as ((F1 & _) & (F2 & _)); [lia|].
  pose proof (fit_code xm ym ret vc sqm ps) as Hc. rewrite <- Hres in *.
  cbn [fst] in *. destruct Hc as [Hc|Hc]; [|lia].
  specialize (F2 Hc). 
  destruct (fit_flat_iff xm ym ret vc sqm ps) as ((_ & F3) & _); [lia|].
  specialize (F3 F2). congruence.
Qed.

Section Codes.
Variable exp : double -> double.
Variables (p : image) (xsz ysz x y sky : Z).

(** What a [return] inside the loop body comes from. *)
Lemma sigma_body_codes st ps sig c st1 ps1 sig1 :
  sigma_body exp p xsz ysz x y sky st ps sig
    = Done (IterReturn c, st1, ps1, sig1) ->
  sig1 = sig
  /\ ((c = -1 /\ st1 = st /\ ps1 = ps
       /\ (sig <=? d0)%dbl || (d12 <? sig)%dbl = true)
      \/ (-6 <= c <= -4 /\ ps1 = ps
          /\ atSetFSigma exp st sig = Done (0, st1)
          /\ atFindFocMom st1 p xsz ysz x y sky ps = Done (c + 3, ps))
      \/ (c = -2
          /\ atSetFSigma exp st sig = Done (0, st1)
          /\ (exists r, 0 <= r
                /\ atFindFocMom st1 p xsz ysz x y sky ps = Done (r, ps1))
          /\ out_of_range (g_xmom ps1) || out_of_range (g_ymom ps1)
             || out_of_range (g_pmom ps1) || out_of_range (g_mmom ps1)
             = true)).
Proof.
  unfold sigma_body. intros H.
  destruct (atSetFSigma exp st sig) as [[r st2]|f] eqn:Es; cbn [obind] in H;
    [|discriminate H].
  pose proof (atSetFSigma_code _ _ _ _ _ Es) as [(-> & -> & G)|(-> & G)];
    cbn [Z.ltb Z.compare] in H.
  - inversion H; subst. split; [reflexivity|]. left. auto.
  - destruct (atFindFocMom st2 p xsz ysz x y sky ps) as [[err ps2]|f] eqn:Ef;
      cbn [obind] in H; [|discriminate H].
    destruct (Z.ltb_spec err 0) as [Hneg|Hpos].
    + inversion H; subst. split; [reflexivity|]. right. left.
      pose proof (atFindFocMom_range _ _ _ _ _ _ _ _ _ _ Ef) as Hr.
      pose proof (atFindFocMom_failure _ _ _ _ _ _ _ _ _ _ Ef Hneg) as ->.
      unfold isub. rewrite wrap_small by lia.
      replace (err - 3 + 3) with err by lia. repeat split; auto; lia.
    + destruct (_ || _) eqn:Eo.
      * inversion H; subst. split; [reflexivity|]. right. right.
        repeat split; eauto.
      * destruct (_ <? _)%dbl; [discriminate H|].
        destruct (_ <? _)%dbl; discriminate H.
Qed.

End Codes.

(** ** The cached filter *)

Lemma SFeqb_refl x : x <> S754_nan -> SFeqb x x = true.
Proof.
  unfold SFeqb, SFcompare. intros H.
  destruct x as [[|]|[|]| |[|] m e]; try reflexivity; try congruence;
    rewrite Z.compare_refl, Pos.compare_cont_refl; reflexivity.
Qed.

Lemma ncut_nan sigma :
  d_bits sigma = S754_nan -> d2i (d4 * sigma + d1_5)%dbl = None.
Proof.
  intros H. unfold d2i, dadd, dmul. cbn [d_bits]. rewrite H. reflexivity.
Qed.

(** ** Floating point: rounding in the normal range *)

Lemma pos_iter_xO q d : Zpos (Pos.iter xO q d) = Zpos q * 2 ^ Zpos d.
Proof.
  induction d as [|d IH] using Pos.peano_ind.
  - cbn. lia.
  - rewrite Pos.iter_succ, Pos2Z.inj_succ, Z.pow_succ_r by lia.
    change (Zpos (Pos.iter xO q d)~0) with (2 * Zpos (Pos.iter xO q d)).
    rewrite IH. ring.
Qed.

(** Rounding a positive value whose binade lies in the normal range of
    binary64: the mantissa is the floor of the scaled value or one
    more, and a mantissa that reaches [2^53] moves to the next binade. *)
Lemma binary_round53 sg q e :
  let f := digits q + e - 53 in
  -1074 <= f <= 970 ->
  exists m2 : positive,
    Z.shiftl (Zpos q) (e - f) <= Zpos m2 <= Z.shiftl (Zpos q) (e - f) + 1
    /\ 2 ^ 52 <= Zpos m2 <= 2 ^ 53
    /\ binary_round 53 1024 sg q e
       = if Zpos m2 <? 2 ^ 53 then S754_finite sg m2 f
         else S754_finite sg 4503599627370496 (f + 1).
Proof.
  intros f Hf. unfold binary_round.
  assert (F : fexp 53 1024 (Zpos (digits2_pos q) + e) = f).
  { unfold fexp, SpecFloat.emin. fold (digits q). lia. }
  rewrite F. pose proof (digits_bounds q) as [Bl Bu].
  pose proof (digits_pos q) as Dp.
  unfold shl_align. destruct (f - e) as [|k|k] eqn:Ek.
  - (* exactly 53 digits *)
    exists q. assert (D : digits q = 53) by lia.
    replace (e - f) with 0 by lia. rewrite Z.shiftl_0_r.
    rewrite D in Bl, Bu. split; [lia|]. split; [lia|].
    destruct (Z.ltb_spec (Zpos q) (2 ^ 53)); [|lia].
    replace f with e by lia. apply binary_round_aux_exact; lia.
  - (* more than 53 digits: the mantissa is shifted right and rounded *)
    unfold binary_round_aux.
    assert (S1 : fexp 53 1024 (Zdigits2 (Zpos q) + e) - e = Zpos k).
    { cbn [Zdigits2]. rewrite F. lia. }
    rewrite (shr_fexp_shift 53 1024 _ _ _ _ S1).
    set (r1 := SpecFloat.iter_pos shr_1 k (shr_record_of_loc (Zpos q) loc_Exact)).
    assert (M1 : shr_m r1 = Zpos q / 2 ^ Zpos k).
    { unfold r1. rewrite iter_shr_m; cbn [shr_record_of_loc shr_m]; [reflexivity|lia]. }
    assert (P : 0 < 2 ^ Zpos k) by (apply Z.pow_pos_nonneg; lia).
    assert (R1 : 2 ^ 52 <= shr_m r1 < 2 ^ 53).
    { rewrite M1. split.
      - apply Z.div_le_lower_bound; [lia|].
        rewrite <- Z.pow_add_r by lia.
        replace (Zpos k + 52) with (digits q - 1) by lia. exact Bl.
      - apply Z.div_lt_upper_bound; [lia|].
        rewrite <- Z.pow_add_r by lia.
        replace (Zpos k + 53) with (digits q) by lia. exact Bu. }
    assert (Sh : Z.shiftl (Zpos q) (e - f) = shr_m r1).
    { replace (e - f) with (- Zpos k) by lia.
      rewrite Z.shiftl_opp_r, Z.shiftr_div_pow2 by lia. now rewrite M1. }
    rewrite Sh.
    pose proof (round_nearest_even_range (shr_m r1) (loc_of_shr_record r1)) as R2.
    set (m2 := round_nearest_even (shr_m r1) (loc_of_shr_record r1)) in *.
    destruct m2 as [|pm|pm] eqn:Em2; try lia.
    exists pm. split; [lia|]. split; [lia|].
    destruct (Z.ltb_spec (Zpos pm) (2 ^ 53)) as [Hlt|Hge].
    + assert (D : digits pm = 53) by (apply digits_unique; lia).
      assert (S2 : fexp 53 1024 (Zdigits2 (Zpos pm) + (e + Zpos k)) - (e + Zpos k) <= 0).
      { cbn [Zdigits2]. fold (digits pm). unfold fexp, SpecFloat.emin. lia. }
      rewrite (shr_fexp_keep 53 1024 _ _ _ S2). cbn [shr_record_of_loc shr_m].
      destruct (Z.leb_spec (e + Zpos k) (1024 - 53)); [|lia].
      f_equal. lia.
    + assert (Epm : Zpos pm = 2 ^ 53) by lia.
      assert (pm = 9007199254740992%positive) as ->
        by (apply Pos2Z.inj; rewrite Epm; reflexivity).
      assert (S2 : fexp 53 1024 (Zdigits2 9007199254740992 + (e + Zpos k))
                   - (e + Zpos k) = 1).
      { cbn [Zdigits2 digits2_pos Pos.succ]. unfold fexp, SpecFloat.emin. lia. }
      rewrite (shr_fexp_shift 53 1024 _ _ _ _ S2).
      cbn [SpecFloat.iter_pos shr_record_of_loc shr_1 shr_m].
      destruct (Z.leb_spec (e + Zpos k + 1) (1024 - 53)); [|lia].
      f_equal. lia.
  - (* fewer than 53 digits: the mantissa is shifted left, exactly *)
    exists (Pos.iter xO q k).
    assert (D : digits (Pos.iter xO q k) = 53) by (rewrite digits_shift; lia).
    replace (e - f) with (Zpos k) by lia.
    rewrite Z.shiftl_mul_pow2, <- pos_iter_xO by lia.
    pose proof (digits_bounds (Pos.iter xO q k)) as [Cl Cu].
    rewrite D in Cl, Cu.
    split; [lia|]. split; [lia|].
    destruct (Z.ltb_spec (Zpos (Pos.iter xO q k)) (2 ^ 53)); [|lia].
    apply binary_round_aux_exact; lia.
Qed.

Lemma valid_fits53 x : SpecFloat.valid_binary 53 1024 x = true -> fits53 x.
Proof.
  destruct x as [| | |s m e]; cbn [SpecFloat.valid_binary fits53]; auto.
  unfold SpecFloat.bounded, SpecFloat.canonical_mantissa, SpecFloat.fexp,
    SpecFloat.emin. fold (digits m).
  intros H. apply andb_true_iff in H as [H _]. apply Z.eqb_eq in H. lia.
Qed.

Lemma iter_pos_iter {A} (f : A -> A) n : forall x,
  SpecFloat.iter_pos f n x = Pos.iter f x n.
Proof.
  induction n as [n IH|n IH|]; intros x; cbn [SpecFloat.iter_pos Pos.iter].
  - rewrite !IH. do 2 rewrite Pos.iter_swap. reflexivity.
  - now rewrite !IH.
  - reflexivity.
Qed.

Lemma iter_shr_xO q n :
  SpecFloat.iter_pos shr_1 n
    {| shr_m := Zpos (Pos.iter xO q n); shr_r := false; shr_s := false |}
  = {| shr_m := Zpos q; shr_r := false; shr_s := false |}.
Proof.
  rewrite iter_pos_iter. induction n as [|n IH] using Pos.peano_ind.
  - reflexivity.
  - rewrite Pos.iter_succ at 1. rewrite <- Pos.iter_swap.
    rewrite Pos.iter_succ. cbn [shr_1 orb]. exact IH.
Qed.

(** A mantissa that needs no shift is kept. *)
Lemma binary_round_aux_keep sg q e :
  fexp 53 1024 (digits q + e) <= e -> e <= 971 ->
  binary_round_aux 53 1024 sg (Zpos q) e loc_Exact = S754_finite sg q e.
Proof.
  intros Hk He. unfold binary_round_aux.
  assert (K : fexp 53 1024 (Zdigits2 (Zpos q) + e) - e <= 0).
  { cbn [Zdigits2]. fold (digits q). lia. }
  rewrite (shr_fexp_keep _ _ _ _ _ K).
  cbn [shr_record_of_loc shr_m loc_of_shr_record round_nearest_even].
  rewrite (shr_fexp_keep _ _ _ _ _ K). cbn [shr_record_of_loc shr_m].
  destruct (Z.leb_spec e (1024 - 53)); [reflexivity|lia].
Qed.

(** A mantissa whose bits to drop are all zero is shifted exactly. *)
Lemma binary_round_aux_shift sg q k e :
  fexp 53 1024 (digits (Pos.iter xO q k) + e) - e = Zpos k ->
  e + Zpos k <= 971 ->
  binary_round_aux 53 1024 sg (Zpos (Pos.iter xO q k)) e loc_Exact
  = S754_finite sg q (e + Zpos k).
Proof.
  intros Hk He. unfold binary_round_aux.
  assert (S1 : fexp 53 1024 (Zdigits2 (Zpos (Pos.iter xO q k)) + e) - e = Zpos k).
  { cbn [Zdigits2]. fold (digits (Pos.iter xO q k)). exact Hk. }
  rewrite (shr_fexp_shift _ _ _ _ _ _ S1). cbn [shr_record_of_loc].
  rewrite iter_shr_xO.
  cbn [shr_m loc_of_shr_record round_nearest_even].
  assert (K : fexp 53 1024 (Zdigits2 (Zpos q) + (e + Zpos k)) - (e + Zpos k) <= 0).
  { cbn [Zdigits2]. fold (digits q). rewrite digits_shift in Hk.
    replace (digits q + (e + Zpos k)) with (digits q + Zpos k + e) by lia. lia. }
  rewrite (shr_fexp_keep _ _ _ _ _ K). cbn [shr_record_of_loc shr_m].
  destruct (Z.leb_spec (e + Zpos k) (1024 - 53)); [reflexivity|lia].
Qed.

(** [4.*sigma] is exact for a double [sigma] of moderate size. *)
Lemma mul4_exact m e :
  digits m <= 53 -> -1074 <= e <= 900 ->
  exists mx ex,
    SFmul 53 1024 (d_bits d4) (S754_finite false m e) = S754_finite false mx ex
    /\ e - 50 <= ex <= e + 2
    /\ Zpos mx = Zpos m * 2 ^ (e + 2 - ex).
Proof.
  intros Hd He. pose proof (digits_pos m) as Dp.
  change (d_bits d4) with (S754_finite false 4503599627370496 (-50)).
  unfold SFmul. cbn [xorb].
  change (4503599627370496 * m)%positive with (Pos.iter xO m 52).
  pose proof (digits_shift m 52) as D52.
  set (n := Z.max (digits m - 1) (-1024 - e)).
  assert (Hn : fexp 53 1024 (digits (Pos.iter xO m 52) + (-50 + e)) - (-50 + e) = n).
  { rewrite D52. unfold fexp, SpecFloat.emin, n. lia. }
  assert (Rn : 0 <= n <= 52) by (unfold n; lia).
  destruct n as [|k|k] eqn:En; [| |lia].
  - exists (Pos.iter xO m 52), (-50 + e).
    split; [apply binary_round_aux_keep; lia|]. split; [lia|].
    rewrite pos_iter_xO. f_equal. f_equal. lia.
  - destruct (Z.eq_dec (Zpos k) 52) as [E52|N52].
    + assert (k = 52%positive) as -> by lia.
      exists m, (-50 + e + 52). split; [apply binary_round_aux_shift; [exact Hn|lia]|].
      split; [lia|]. replace (e + 2 - (-50 + e + 52)) with 0 by lia. lia.
    + destruct (52 - Zpos k) as [|j|j] eqn:Ej; try lia.
      assert (Pos.iter xO m 52 = Pos.iter xO (Pos.iter xO m j) k) as Eq.
      { rewrite <- Pos.iter_add. f_equal. lia. }
      rewrite Eq in Hn |- *.
      exists (Pos.iter xO m j), (-50 + e + Zpos k).
      split; [apply binary_round_aux_shift; [exact Hn|lia]|].
      split; [lia|]. rewrite pos_iter_xO. f_equal. f_equal. lia.
Qed.

Lemma shl_align_fst m e e' :
  e' <= e -> Zpos (fst (shl_align m e e')) = Zpos m * 2 ^ (e - e').
Proof.
  intros H. unfold shl_align. destruct (e' - e) as [|k|k] eqn:Ek; cbn [fst].
  - replace (e - e') with 0 by lia. lia.
  - lia.
  - rewrite pos_iter_xO. f_equal. f_equal. lia.
Qed.

Lemma pow2_pos k : 0 <= k -> 0 < 2 ^ k.
Proof. intros. apply Z.pow_pos_nonneg; lia. Qed.

(** What the range test of [atSetFSigma] leaves: a positive finite
    sigma that is at most 12. *)
Lemma guard_shape sigma :
  d_bits sigma <> S754_nan ->
  (sigma <=? d0)%dbl || (d12 <? sigma)%dbl = false ->
  exists m e, d_bits sigma = S754_finite false m e
              /\ e <= -49 /\ (e = -49 -> Zpos m <= 12 * 2 ^ 49).
Proof.
  intros Hn G. apply orb_false_iff in G as [G1 G2].
  unfold dle, dlt, SFleb, SFltb in G1, G2.
  change (d_bits d0) with (S754_zero false) in G1.
  change (d_bits d12) with (S754_finite false 6755399441055744 (-49)) in G2.
  destruct (d_bits sigma) as [s|s| |s m e]; try congruence.
  - destruct s; discriminate.
  - destruct s; discriminate.
  - destruct s; [discriminate G1|]. exists m, e. split; [reflexivity|].
    cbn [SFcompare] in G2.
    destruct (Z.compare_spec (-49) e) as [E|E|E]; try discriminate G2.
    + split; [lia|]. intros _.
      change (Pos.compare_cont Eq 6755399441055744 m)
        with (Pos.compare 6755399441055744 m) in G2.
      destruct (Pos.compare_spec 6755399441055744 m) as [C|C|C];
        try discriminate G2.
      * rewrite <- C. reflexivity.
      * apply Pos2Z.pos_lt_pos in C.
        change (12 * 2 ^ 49) with 6755399441055744. lia.
    + split; lia.
Qed.

(** [ncut = 4.*sigma + 1.5] lies between 1 and 49 for every double
    sigma that passes the range test. *)
Lemma ncut_range sigma :
  fits53 (d_bits sigma) -> d_bits sigma <> S754_nan ->
  (sigma <=? d0)%dbl || (d12 <? sigma)%dbl = false ->
  exists ncut, d2i (d4 * sigma + d1_5)%dbl = Some ncut /\ 1 <= ncut <= 49.
Proof.
  intros Hf Hn G.
  destruct (guard_shape sigma Hn G) as (m & e & Es & He & Hm).
  rewrite Es in Hf. cbn [fits53] in Hf. destruct Hf as [Hd Hlo].
  destruct (mul4_exact m e) as (mx & ex & Emul & Hex & Hmx); [lia|lia|].
  unfold d2i, dadd, dmul. cbn [d_bits]. rewrite Es, Emul.
  change (d_bits d1_5) with (S754_finite false 6755399441055744 (-52)).
  unfold SFadd. cbn [cond_Zopp].
  set (ez := Z.min ex (-52)).
  assert (A : Zpos (fst (shl_align mx ex ez)) = Zpos mx * 2 ^ (ex - ez))
    by (apply shl_align_fst; unfold ez; lia).
  assert (B : Zpos (fst (shl_align 6755399441055744 (-52) ez))
              = 6755399441055744 * 2 ^ (-52 - ez))
    by (apply shl_align_fst; unfold ez; lia).
  set (a := fst (shl_align mx ex ez)) in *.
  set (b := fst (shl_align 6755399441055744 (-52) ez)) in *.
  change (Zpos a + Zpos b) with (Zpos (a + b)). cbn [binary_normalize].
  set (E := - ez). assert (HE : 52 <= E) by (unfold E, ez; lia).
  assert (HE2 : 1 <= E <= 1200) by (unfold E, ez; lia).
  (* the exact sum, scaled by [2^E] *)
  assert (V : Zpos (a + b) = Zpos m * 2 ^ (e + 2 + E) + 3 * 2 ^ (E - 1)).
  { rewrite Pos2Z.inj_add, A, B, Hmx.
    replace (-52 - ez) with (E - 52) by (unfold E; lia).
    replace (ex - ez) with (ex + E) by (unfold E; lia).
    rewrite <- Z.mul_assoc, <- Z.pow_add_r by (unfold E, ez; lia).
    replace (e + 2 - ex + (ex + E)) with (e + 2 + E) by lia.
    f_equal.
    replace (E - 1) with (51 + (E - 52)) by lia.
    rewrite Z.pow_add_r by lia. lia. }
  assert (P1 : 0 < 2 ^ (E - 1)) by (apply pow2_pos; lia).
  assert (PE : 2 ^ E = 2 * 2 ^ (E - 1)).
  { replace E with (1 + (E - 1)) at 1 by lia. rewrite Z.pow_add_r by lia. lia. }
  assert (U : Zpos m * 2 ^ (e + 2 + E) <= 48 * 2 ^ E).
  { pose proof (digits_bounds m) as [_ Bu].
    assert (Zpos m < 2 ^ 53).
    { eapply Z.lt_le_trans; [exact Bu|]. apply Z.pow_le_mono_r; lia. }
    destruct (Z.eq_dec e (-49)) as [->|Ne].
    - specialize (Hm eq_refl).
      replace (-49 + 2 + E) with (E - 47) by lia.
      assert (P : 0 < 2 ^ (E - 47)) by (apply pow2_pos; lia).
      replace (2 ^ E) with (2 ^ 47 * 2 ^ (E - 47))
        by (rewrite <- Z.pow_add_r by lia; f_equal; lia).
      nia.
    - assert (P : 0 < 2 ^ (e + 2 + E)) by (apply pow2_pos; unfold E, ez; lia).
      assert (Q : 2 ^ 53 * 2 ^ (e + 2 + E) <= 2 ^ (E + 5)).
      { rewrite <- Z.pow_add_r by (unfold E, ez; lia).
        apply Z.pow_le_mono_r; lia. }
      replace (2 ^ (E + 5)) with (32 * 2 ^ E) in Q
        by (rewrite Z.pow_add_r by lia; lia).
      nia. }
  assert (Lo : 2 ^ E <= Zpos (a + b)).
  { rewrite V, PE. assert (0 <= Zpos m * 2 ^ (e + 2 + E)).
    { apply Z.mul_nonneg_nonneg; [lia|]. apply Z.pow_nonneg; lia. }
    lia. }
  assert (Up : Zpos (a + b) <= 99 * 2 ^ (E - 1)) by (rewrite V; lia).
  (* the binade *)
  pose proof (digits_bounds (a + b)) as [Bl Bu].
  pose proof (digits_pos (a + b)) as Dp.
  assert (D1 : E + 1 <= digits (a + b)).
  { destruct (Z.le_gt_cases (E + 1) (digits (a + b))); [assumption|exfalso].
    assert (2 ^ digits (a + b) <= 2 ^ E) by (apply Z.pow_le_mono_r; lia). lia. }
  assert (D2 : digits (a + b) <= E + 6).
  { destruct (Z.le_gt_cases (digits (a + b)) (E + 6)); [assumption|exfalso].
    assert (2 ^ (E + 6) <= 2 ^ (digits (a + b) - 1)) by (apply Z.pow_le_mono_r; lia).
    replace (2 ^ (E + 6)) with (128 * 2 ^ (E - 1)) in *
      by (replace (E + 6) with (7 + (E - 1)) by lia; rewrite Z.pow_add_r by lia; lia).
    lia. }
  destruct (binary_round53 false (a + b) ez) as (m2 & R1 & R2 & ->); [unfold E in *; lia|].
  set (d := digits (a + b) - E) in *.
  replace (digits (a + b) + ez - 53) with (d - 53) in * by (unfold d, E; lia).
  replace (ez - (d - 53)) with (53 - digits (a + b)) in R1 by (unfold d, E; lia).
  assert (Hd' : 1 <= d <= 6) by (unfold d; lia).
  assert (Top : d = 6 -> Zpos m2 <= 99 * 2 ^ 46 + 1).
  { intros E6. replace (53 - digits (a + b)) with (- (E - 47)) in R1 by (unfold d in E6; lia).
    rewrite Z.shiftl_opp_r, Z.shiftr_div_pow2 in R1 by lia.
    assert (P : 0 < 2 ^ (E - 47)) by (apply pow2_pos; lia).
    assert (Zpos (a + b) / 2 ^ (E - 47) <= 99 * 2 ^ 46).
    { apply Z.div_le_upper_bound; [lia|].
      replace (2 ^ (E - 47) * (99 * 2 ^ 46)) with (99 * 2 ^ (E - 1)); [exact Up|].
      replace (E - 1) with (46 + (E - 47)) by lia.
      rewrite Z.pow_add_r by lia. ring. }
    lia. }
  assert (Tr : forall mm ee, 2 ^ (- ee) <= Zpos mm < 50 * 2 ^ (- ee) -> ee < 0 ->
             1 <= Z.shiftl (Zpos mm) ee <= 49).
  { intros mm ee Hb Hneg. replace ee with (- (- ee)) at 1 2 by lia.
    rewrite Z.shiftl_opp_r, Z.shiftr_div_pow2 by lia.
    assert (P : 0 < 2 ^ (- ee)) by (apply pow2_pos; lia).
    split.
    - apply Z.div_le_lower_bound; lia.
    - assert (Zpos mm / 2 ^ (- ee) < 50); [|lia].
      apply Z.div_lt_upper_bound; lia. }
  assert (Fin : forall mm ee, 2 ^ (- ee) <= Zpos mm < 50 * 2 ^ (- ee) -> ee < 0 ->
    exists ncut,
      (z ← trunc (S754_finite false mm ee); if in_int z then Some z else None)
      = Some ncut /\ 1 <= ncut <= 49).
  { intros mm ee Hb Hneg. specialize (Tr mm ee Hb Hneg).
    cbn [trunc cond_Zopp mbind option_bind]. unfold in_int.
    destruct (Z.leb_spec (- 2 ^ 31) (Z.shiftl (Zpos mm) ee)); [|lia].
    destruct (Z.leb_spec (Z.shiftl (Zpos mm) ee) (2 ^ 31 - 1)); [|lia].
    cbn [andb]. eauto. }
  destruct (Z.ltb_spec (Zpos m2) (2 ^ 53)) as [Hlt|Hge].
  - apply Fin; [|lia].
    assert (d = 1 \/ d = 2 \/ d = 3 \/ d = 4 \/ d = 5 \/ d = 6) as Hcase by lia.
    destruct Hcase as [-> | [-> | [-> | [-> | [-> | E6]]]]]; cbn [Z.sub Z.opp Z.pos_sub Pos.pred_double Z.succ_double Z.pred_double Z.double];
      try (change (2 ^ 52) with 4503599627370496 in *;
           change (2 ^ 53) with 9007199254740992 in *; cbn; lia).
    specialize (Top E6). rewrite E6. cbn. cbn in Top. lia.
  - assert (d <> 6).
    { intros E6. specialize (Top E6). cbn in Top. cbn in Hge. lia. }
    apply Fin; [|lia].
    assert (d = 1 \/ d = 2 \/ d = 3 \/ d = 4 \/ d = 5) as Hcase by lia.
    destruct Hcase as [-> | [-> | [-> | [-> | ->]]]]; cbn; lia.
Qed.

(** ** Floating point: zeros *)

Lemma SFmul_zero_l prec emax x y :
  zero_or_nan x -> zero_or_nan (SFmul prec emax x y).
Proof. destruct x, y; cbn; tauto. Qed.

Lemma SFmul_zero_r prec emax x y :
  zero_or_nan y -> zero_or_nan (SFmul prec emax x y).
Proof. destruct x, y; cbn; tauto. Qed.

Lemma renorm_zero prec emax x :
  zero_or_nan x -> zero_or_nan (renorm prec emax x).
Proof. destruct x; cbn; tauto. Qed.

Lemma trunc_zero x v : zero_or_nan x -> trunc x = Some v -> v = 0.
Proof. destruct x; cbn; try tauto; congruence. Qed.

Lemma f2short_zero a v : zero_or_nan (f_bits a) -> f2short a = Some v -> v = 0.
Proof.
  unfold f2short. intros Z H.
  destruct (trunc (f_bits a)) as [z|] eqn:E; cbn in H; [|discriminate H].
  apply (trunc_zero _ _ Z) in E. subst z.
  change (in_short 0) with true in H. cbn in H. congruence.
Qed.

Lemma d2short_zero a v : zero_or_nan (d_bits a) -> d2short a = Some v -> v = 0.
Proof.
  unfold d2short. intros Z H.
  destruct (trunc (d_bits a)) as [z|] eqn:E; cbn in H; [|discriminate H].
  apply (trunc_zero _ _ Z) in E. subst z.
  change (in_short 0) with true in H. cbn in H. congruence.
Qed.

(** ** The filter arrays stay in bounds *)

Lemma filter_ok_start : filter_ok fstate0.
Proof.
  unfold filter_ok. do 5 (split; [reflexivity|]).
  intros H. discriminate H.
Qed.

Lemma store_some {A} (a : list A) i v :
  0 <= i < Z.of_nat (length a) ->
  exists a', store a i v = Some a' /\ length a' = length a.
Proof.
  intros H. unfold store.
  destruct (Z.leb_spec 0 i); [|lia].
  destruct (Z.ltb_spec i (Z.of_nat (length a))); [|lia].
  cbn [andb]. eexists. split; [reflexivity|]. apply length_insert.
Qed.

Lemma store_length {A} (a a' : list A) i v :
  store a i v = Some a' -> length a' = length a.
Proof.
  unfold store. destruct (_ && _); [|discriminate].
  intros H. inversion H. apply length_insert.
Qed.

Section GenSafe.
Variable exp : double -> double.
Variables sig2inv siginv edge : float32.

(** One tap: the three values stored, and nothing out of bounds. *)
Lemma gen_tap_safe i st :
  length (fgarray st) = Z.to_nat SIZFIL ->
  length (xfgarray st) = Z.to_nat SIZFIL ->
  length (x2fgarray st) = Z.to_nat SIZFIL ->
  0 <= i < SIZFIL ->
  gen_tap exp sig2inv siginv edge i st = Fault ConvRange
  \/ exists st', gen_tap exp sig2inv siginv edge i st = Done st'
       /\ length (fgarray st') = Z.to_nat SIZFIL
       /\ length (xfgarray st') = Z.to_nat SIZFIL
       /\ length (x2fgarray st') = Z.to_nat SIZFIL
       /\ (i = 0 -> cell (xfgarray st') 0 = Some 0
                    /\ cell (x2fgarray st') 0 = Some 0).
Proof.
  intros L1 L2 L3 Hi. unfold SIZFIL in *. unfold gen_tap.
  cbv zeta.
  match goal with |- context [conv (f2short ?g)] => set (gau := g) end.
  destruct (f2short gau) as [fg|]; cbn [conv obind]; [|left; reflexivity].
  destruct (store_some (fgarray st) i fg) as (fga & -> & La); [lia|].
  cbn [access obind].
  destruct (f2short (i2f i * gau * siginv)%flt) as [xfg|] eqn:Ex;
    cbn [conv obind]; [|left; reflexivity].
  destruct (store_some (xfgarray st) i xfg) as (xfga & Sx & Lx); [lia|].
  rewrite Sx. cbn [access obind].
  match goal with |- context [conv (d2short ?g)] => set (x2v := g) in * end.
  destruct (d2short x2v) as [x2fg|] eqn:Ex2; cbn [conv obind]; [|left; reflexivity].
  destruct (store_some (x2fgarray st) i x2fg) as (x2fga & Sx2 & Lx2); [lia|].
  rewrite Sx2. cbn [access obind].
  right. eexists. split; [reflexivity|].
  cbn [fgarray xfgarray x2fgarray]. repeat split; try congruence.
  - subst i. apply store_spec in Sx as (_ & -> & _). f_equal.
    apply (f2short_zero _ _) in Ex; [exact Ex|].
    cbn [fmul f_bits]. apply SFmul_zero_l, SFmul_zero_l. exact I.
  - subst i. apply store_spec in Sx2 as (_ & -> & _). f_equal.
    apply (d2short_zero _ _) in Ex2; [exact Ex2|].
    unfold x2v. cbn [dmul d_bits f2d fmul f_bits d2f i2d].
    apply SFmul_zero_r, renorm_zero, SFmul_zero_l, SFmul_zero_l. exact I.
Qed.

Lemma gen_loop_safe n : forall i st,
  length (fgarray st) = Z.to_nat SIZFIL ->
  length (xfgarray st) = Z.to_nat SIZFIL ->
  length (x2fgarray st) = Z.to_nat SIZFIL ->
  0 <= i -> i + Z.of_nat n <= SIZFIL ->
  gen_loop exp sig2inv siginv edge n i st = Fault ConvRange
  \/ exists st', gen_loop exp sig2inv siginv edge n i st = Done st'
       /\ length (fgarray st') = Z.to_nat SIZFIL
       /\ length (xfgarray st') = Z.to_nat SIZFIL
       /\ length (x2fgarray st') = Z.to_nat SIZFIL
       /\ (i = 0 -> (0 < n)%nat -> cell (xfgarray st') 0 = Some 0
                                   /\ cell (x2fgarray st') 0 = Some 0).
Proof.
  induction n as [|n IH]; intros i st L1 L2 L3 Hi Hn; cbn [gen_loop].
  - right. exists st. repeat split; auto; lia.
  - destruct (gen_tap_safe i st L1 L2 L3) as [->|(st1 & -> & M1 & M2 & M3 & Z0)];
      [lia|left; reflexivity|].
    cbn [obind].
    destruct (IH (i + 1) st1 M1 M2 M3) as [->|(st' & E & N1 & N2 & N3 & _)];
      [lia|lia|left; reflexivity|].
    right. exists st'. rewrite E. repeat split; auto.
    + apply Z0 in H as (X & _).
      apply gen_loop_spec in E as (_ & U & _); [|lia].
      destruct (U 0) as (_ & -> & _); [lia|exact X].
    + apply Z0 in H as (_ & X).
      apply gen_loop_spec in E as (_ & U & _); [|lia].
      destruct (U 0) as (_ & _ & ->); [lia|exact X].
Qed.

End GenSafe.

Lemma zero_loop_safe n : forall i fg,
  0 <= i -> i + Z.of_nat n <= Z.of_nat (length fg) ->
  exists fg', zero_loop n i fg = Done fg' /\ length fg' = length fg.
Proof.
  induction n as [|n IH]; intros i fg Hi Hn; cbn [zero_loop]; [eauto|].
  destruct (store_some fg i 0) as (fg1 & -> & L1); [lia|]. cbn [access obind].
  destruct (IH (i + 1) fg1) as (fg' & -> & L'); [lia|lia|].
  exists fg'. split; [reflexivity|congruence].
Qed.

Lemma deq_zero_guard sigma g :
  (sigma <=? d0)%dbl = false -> (sigma =? g)%dbl = true ->
  (g =? d0)%dbl = false.
Proof.
  unfold dle, deq, SFleb, SFeqb.
  change (d_bits d0) with (S754_zero false).
  destruct (d_bits sigma) as [s|s| |s m e], (d_bits g) as [s'|s'| |s' m' e'];
    cbn; try congruence; try (destruct s; congruence);
    try (destruct s'; congruence).
Qed.

Lemma dle_deq_zero sigma :
  (sigma <=? d0)%dbl = false -> (sigma =? d0)%dbl = false.
Proof.
  intros H. destruct (sigma =? d0)%dbl eqn:E; [|reflexivity].
  apply deq_dle in E. congruence.
Qed.

(** [atSetFSigma] stays inside the filter arrays: it returns, or it
    stops at a conversion out of range. *)
Lemma atSetFSigma_safe exp st sigma :
  filter_ok st -> fits53 (d_bits sigma) ->
  atSetFSigma exp st sigma = Fault ConvRange
  \/ exists r st',
       atSetFSigma exp st sigma = Done (r, st') /\ filter_ok st'
       /\ (r = 0 -> (sigmagen st' =? d0)%dbl = false).
Proof.
  intros Hok Hf. pose proof Hok as (L1 & L2 & L3 & X0 & X20 & Hc).
  unfold atSetFSigma.
  destruct (_ || _) eqn:G.
  { right. exists (-1), st. split; [reflexivity|]. split; [exact Hok|].
    intros H. discriminate H. }
  destruct (sigma =? sigmagen st)%dbl eqn:Eq.
  { right. exists 0, st. split; [reflexivity|]. split; [exact Hok|].
    intros _. apply orb_false_iff in G as [G1 _].
    eapply deq_zero_guard; eauto. }
  destruct (d2i (d4 * sigma + d1_5)%dbl) as [ncut|] eqn:En;
    cbn [conv obind]; [|left; reflexivity].
  assert (Hn : 1 <= ncut <= 49).
  { destruct (ncut_range sigma Hf) as (n & En' & Hn'); [|exact G|congruence].
    intros Es. rewrite (ncut_nan _ Es) in En. discriminate En. }
  cbv zeta.
  match goal with |- context [gen_loop _ ?a ?b ?c _ _ ?s] =>
    pose proof (gen_loop_safe exp a b c (Z.to_nat ncut) 0 s L1 L2 L3) as GL
  end.
  destruct GL as [->|(st2 & E2 & M1 & M2 & M3 & Z0)];
    [lia | unfold SIZFIL; lia | left; reflexivity | ].
  rewrite E2. cbn [obind].
  destruct (zero_loop_safe (Z.to_nat (SIZFIL - ncut)) ncut (fgarray st2))
    as (fg & -> & Lfg); [lia|rewrite M1; unfold SIZFIL; lia|].
  cbn [obind]. right. eexists 0, _. split; [reflexivity|].
  destruct Z0 as (Z1 & Z2); [reflexivity|lia|].
  pose proof E2 as E2'.
  apply gen_loop_spec in E2 as (Hs & _ & Ht); [|lia].
  cbn [sigmagen sig_ncut] in Hs, Ht.
  assert (S0 : (sigma =? d0)%dbl = false).
  { apply orb_false_iff in G as [G1 _]. now apply dle_deq_zero. }
  split.
  - unfold filter_ok. cbn [fgarray xfgarray x2fgarray sig_ncut sigmagen].
    repeat split; try congruence.
    + destruct Ht as [(-> & _)|(Hv & Hv0 & _)]; lia.
    + unfold SIZFIL. destruct Ht as [(-> & _)|(Hv & Hv0 & _)]; lia.
  - intros _. cbn [sigmagen]. congruence.
Qed.

(** ** Floating point: every rounded result fits *)

Lemma shr_record_m m l : shr_m (shr_record_of_loc m l) = m.
Proof. destruct l as [|[| |]]; reflexivity. Qed.

Lemma Zdigits2_bound m : 0 <= m -> m < 2 ^ Zdigits2 m.
Proof.
  destruct m as [|q|q]; intros H; [reflexivity| |lia].
  cbn [Zdigits2]. apply (digits_bounds q).
Qed.

Lemma Zdigits2_nonneg m : 0 <= Zdigits2 m.
Proof. destruct m; cbn; lia. Qed.

Lemma shr_fexp_fits m0 e0 l0 r e' :
  0 <= m0 -> shr_fexp 53 1024 m0 e0 l0 = (r, e') ->
  0 <= shr_m r < 2 ^ 53 /\ -1074 <= e'.
Proof.
  intros H0 H. unfold shr_fexp, shr in H.
  pose proof (Zdigits2_bound m0 H0) as B.
  pose proof (Zdigits2_nonneg m0) as Dn.
  set (d := Zdigits2 m0) in *.
  assert (K : forall n, fexp 53 1024 (d + e0) - e0 = n -> n <= 0 ->
              0 <= m0 < 2 ^ 53 /\ -1074 <= e0).
  { intros n En Hn. unfold fexp, SpecFloat.emin in En.
    split; [|lia]. split; [lia|].
    eapply Z.lt_le_trans; [exact B|]. apply Z.pow_le_mono_r; lia. }
  destruct (fexp 53 1024 (d + e0) - e0) as [|k|k] eqn:En.
  - inversion H; subst. rewrite shr_record_m. apply (K 0); [reflexivity|lia].
  - inversion H; subst. rewrite iter_shr_m by (rewrite shr_record_m; lia).
    rewrite shr_record_m.
    assert (P : 0 < 2 ^ Zpos k) by (apply Z.pow_pos_nonneg; lia).
    unfold fexp, SpecFloat.emin in En. split; [split|lia].
    + apply Z.div_pos; lia.
    + apply Z.div_lt_upper_bound; [lia|].
      rewrite <- Z.pow_add_r by lia.
      eapply Z.lt_le_trans; [exact B|]. apply Z.pow_le_mono_r; lia.
  - inversion H; subst. rewrite shr_record_m. apply (K (Zneg k)); [reflexivity|lia].
Qed.

Lemma digits_le53 q : Zpos q < 2 ^ 53 -> digits q <= 53.
Proof.
  intros H. pose proof (digits_bounds q) as [Bl _].
  destruct (Z.le_gt_cases (digits q) 53) as [|G]; [assumption|exfalso].
  assert (2 ^ 53 <= 2 ^ (digits q - 1)) by (apply Z.pow_le_mono_r; lia). lia.
Qed.

Lemma binary_round_aux_fits sg m0 e0 l0 :
  0 <= m0 -> fits53 (binary_round_aux 53 1024 sg m0 e0 l0).
Proof.
  intros H0. unfold binary_round_aux.
  destruct (shr_fexp 53 1024 m0 e0 l0) as [r1 e1] eqn:E1.
  apply shr_fexp_fits in E1 as (R1 & _); [|assumption].
  pose proof (round_nearest_even_range (shr_m r1) (loc_of_shr_record r1)) as R2.
  destruct (shr_fexp 53 1024 _ e1 loc_Exact) as [r2 e2] eqn:E2.
  apply shr_fexp_fits in E2 as (R3 & He2); [|lia].
  destruct (shr_m r2) as [|q|q] eqn:Eq; cbn [fits53]; [exact I| |exact I].
  destruct (e2 <=? 1024 - 53); cbn [fits53]; [|exact I].
  split; [apply digits_le53; lia|lia].
Qed.

Lemma SFmul_fits x y : fits53 (SFmul 53 1024 x y).
Proof.
  destruct x as [s|s| |s m e], y as [s'|s'| |s' m' e']; cbn [SFmul fits53]; auto.
  apply binary_round_aux_fits. lia.
Qed.

(** ** The solver stays in bounds *)

Lemma well_formed_ok st p xsz ysz :
  filter_ok st -> image_ok p xsz ysz -> (sigmagen st =? d0)%dbl = false ->
  well_formed st p xsz ysz.
Proof.
  intros (L1 & L2 & L3 & _ & _ & Hc) (P1 & P2 & P3 & P4) Hs.
  specialize (Hc Hs). unfold well_formed. repeat split; auto; lia.
Qed.

Section SolverSafe.
Variable exp : double -> double.
Variables (p : image) (xsz ysz x y sky : Z).
Hypothesis shape : image_ok p xsz ysz.

Lemma sigma_body_safe st ps sig :
  filter_ok st -> fits53 (d_bits sig) ->
  sigma_body exp p xsz ysz x y sky st ps sig = Fault ConvRange
  \/ exists r st1 ps1 sig1,
       sigma_body exp p xsz ysz x y sky st ps sig = Done (r, st1, ps1, sig1)
       /\ filter_ok st1 /\ fits53 (d_bits sig1).
Proof.
  intros Hok Hf. unfold sigma_body.
  destruct (atSetFSigma_safe exp st sig Hok Hf) as [E|(r & st1 & E & Hok1 & Hg)];
    rewrite E; [left; reflexivity|].
  cbn [obind].
  assert (Hr : r = -1 \/ r = 0).
  { pose proof (atSetFSigma_code _ _ _ _ _ E) as [(-> & _)|(-> & _)]; auto. }
  destruct Hr as [-> | ->].
  - right. eexists _, _, _, _. split; [reflexivity|]. auto.
  - cbn [Z.ltb Z.compare].
    destruct (atFindFocMom_done st1 p xsz ysz sky
                (well_formed_ok _ _ _ _ Hok1 shape (Hg eq_refl)) x y ps
                (Hg eq_refl)) as (err & ps1 & ->).
    cbn [obind]. right.
    destruct (err <? 0); [eexists _, _, _, _; split; [reflexivity|]; auto|].
    destruct (_ || _); [eexists _, _, _, _; split; [reflexivity|]; auto|].
    destruct (_ <? _)%dbl; [eexists _, _, _, _; split; [reflexivity|]; auto|].
    destruct (_ <? _)%dbl; eexists _, _, _, _; (split; [reflexivity|]);
      (split; [assumption|]); apply SFmul_fits.
Qed.

Lemma sigma_loop_safe n : forall st ps sig,
  filter_ok st -> fits53 (d_bits sig) ->
  sigma_loop exp p xsz ysz x y sky n st ps sig = Fault ConvRange
  \/ exists c st' ps' sig',
       sigma_loop exp p xsz ysz x y sky n st ps sig = Done (c, st', ps', sig')
       /\ filter_ok st'.
Proof.
  induction n as [|n IH]; intros st ps sig Hok Hf; cbn [sigma_loop].
  - right. eexists _, _, _, _. split; [reflexivity|assumption].
  - destruct (sigma_body_safe st ps sig Hok Hf)
      as [->|(r & st1 & ps1 & sig1 & -> & Hok1 & Hf1)]; [left; reflexivity|].
    cbn [obind]. destruct r as [c| |].
    + right. eexists _, _, _, _. split; [reflexivity|assumption].
    + right. eexists _, _, _, _. split; [reflexivity|assumption].
    + apply IH; assumption.
Qed.

End SolverSafe.

(** ** What the moment sums read *)

Lemma window_agree_sub pa pb x y r x' y' r' :
  window_agree pa pb x y r ->
  x - r <= x' - r' -> x' + r' <= x + r ->
  y - r <= y' - r' -> y' + r' <= y + r ->
  window_agree pa pb x' y' r'.
Proof. intros W X1 X2 Y1 Y2 i j Hi Hj. apply W; lia. Qed.

Section Frame.
Variables (sa sb : fstate) (pa pb : image).
Hypothesis same_taps : taps_agree sa sb.

Lemma ring_sums_frame x y sky i :
  window_agree pa pb x y (sig_ncut sa - 1) ->
  - 2 ^ 31 <= y - sig_ncut sa -> y + sig_ncut sa <= 2 ^ 31 - 1 ->
  0 <= i < sig_ncut sa ->
  ring_sums sa pa x y sky i = ring_sums sb pb x y sky i.
Proof.
  intros W Y1 Y2 Hi. destruct same_taps as (Hn & _ & Hc).
  unfold ring_sums. rewrite <- Hn. unfold iadd, isub.
  rewrite !(wrap_small (y + i)), !(wrap_small (y - i)) by lia.
  destruct (Hc 0) as (<- & _ & _); [lia|].
  assert (P : forall r j, y - (sig_ncut sa - 1) <= r <= y + (sig_ncut sa - 1) ->
                          x - (sig_ncut sa - 1) <= j <= x + (sig_ncut sa - 1) ->
                          pix pa r j = pix pb r j) by exact W.
  rewrite <- !(P _ x) by lia.
  destruct (i =? 0).
  - destruct (access (pix pa (y + i) x)) as [c|f]; cbn [obind]; [|reflexivity].
    destruct (access (cell (fgarray sa) 0)) as [fg0|f]; cbn [obind]; [|reflexivity].
    apply taps_ext. intros j b Hj. unfold ring0_tap.
    rewrite <- !P by lia.
    destruct (Hc j) as (<- & <- & <-); [lia|]. reflexivity.
  - destruct (access (pix pa (y + i) x)) as [c|f]; cbn [obind]; [|reflexivity].
    destruct (access (pix pa (y - i) x)) as [c'|f]; cbn [obind]; [|reflexivity].
    destruct (access (cell (fgarray sa) 0)) as [fg0|f]; cbn [obind]; [|reflexivity].
    apply taps_ext. intros j b Hj. unfold ringi_tap.
    rewrite <- !P by lia.
    destruct (Hc j) as (<- & <- & <-); [lia|]. reflexivity.
Qed.

Lemma add_ring_frame i r t :
  0 <= i < sig_ncut sa -> add_ring sa i r t = add_ring sb i r t.
Proof.
  intros Hi. destruct same_taps as (_ & _ & Hc).
  unfold add_ring. destruct (Hc i) as (<- & <- & <-); [lia|]. reflexivity.
Qed.

Lemma rings_frame x y sky n : forall i t,
  window_agree pa pb x y (sig_ncut sa - 1) ->
  - 2 ^ 31 <= y - sig_ncut sa -> y + sig_ncut sa <= 2 ^ 31 - 1 ->
  0 <= i -> i + Z.of_nat n <= sig_ncut sa ->
  rings sa pa x y sky n i t = rings sb pb x y sky n i t.
Proof.
  induction n as [|n IH]; intros i t W Y1 Y2 Hi Hn; cbn [rings]; [reflexivity|].
  rewrite (ring_sums_frame x y sky i) by (auto; lia).
  destruct (ring_sums sb pb x y sky i) as [r|f]; cbn [obind]; [|reflexivity].
  rewrite add_ring_frame by lia.
  destruct (add_ring sb i r t) as [t'|f]; cbn [obind]; [|reflexivity].
  apply IH; auto; lia.
Qed.

(** [lgausmom] at [(x,y)] reads the image only in the square of
    half-width [ncut-1] around it, and the filter only below [ncut]. *)
Lemma lgausmom_frame xsz xsz' ysz x y sky ps :
  window_agree pa pb x y (sig_ncut sa - 1) ->
  0 <= sig_ncut sa ->
  - 2 ^ 31 <= y - sig_ncut sa -> y + sig_ncut sa <= 2 ^ 31 - 1 ->
  lgausmom sa pa xsz ysz x y sky ps = lgausmom sb pb xsz' ysz x y sky ps.
Proof.
  intros W Hn Y1 Y2. pose proof same_taps as (En & Es & _).
  unfold lgausmom, edge_test, moment_sums. rewrite <- Es, <- En.
  destruct (sigmagen sa =? d0)%dbl; [reflexivity|].
  destruct (_ <? _); [reflexivity|]. destruct (_ <? _); [reflexivity|].
  rewrite (rings_frame x y sky) by (auto; lia). reflexivity.
Qed.

End Frame.

(** ** Relocation *)

(** A [ScanMove] names a neighbour whose value is above the centre's. *)
Lemma scan_move st p xsz ysz x y sky vc todo : forall sq dx dy sq',
  scan st p xsz ysz x y sky vc todo sq = Done (ScanMove dx dy sq') ->
  exists i j ps0 m,
    In (i, j) todo /\ dx = j - 1 /\ dy = i - 1
    /\ lgausmom st p xsz ysz (x + j - 1)%int (y + i - 1)%int sky ps0
       = Done (0, m, None)
    /\ (vc <? g_filval m)%flt = true.
Proof.
  induction todo as [|[i j] todo IH]; intros sq dx dy sq' H; cbn [scan] in H;
    [discriminate H|].
  destruct (lgausmom st p xsz ysz (x + j - 1)%int (y + i - 1)%int sky (val sq i j))
    as [[[r m] d]|f] eqn:El; cbn [obind] in H; [|discriminate H].
  destruct (r <? 0) eqn:Er; [discriminate H|].
  destruct (vc <? g_filval m)%flt eqn:Ev.
  - inversion H; subst; clear H.
    apply lgausmom_ret in El as El'. destruct El' as [->|[-> ->]]; [discriminate Er|].
    exists i, j, (val sq i j), m. repeat split; auto. left; reflexivity.
  - apply IH in H as (i' & j' & ps0 & m' & Hin & ? & ? & ? & ?).
    exists i', j', ps0, m'. repeat split; auto. right; exact Hin.
Qed.

Lemma neighbours_range i j :
  In (i, j) neighbours -> 0 <= i <= 2 /\ 0 <= j <= 2 /\ (i <> 1 \/ j <> 1).
Proof.
  unfold neighbours. cbn [In]. intros H.
  repeat (destruct H as [H|H]; [inversion H; subst; lia|]). destruct H.
Qed.

(** The edge test of [atFindFocMom], on int arguments. *)
Lemma attempt_edge st p xsz ysz sky x y sq a :
  0 <= sig_ncut st <= SIZFIL ->
  0 <= xsz <= 2 ^ 31 - 1 -> 0 <= ysz <= 2 ^ 31 - 1 ->
  attempt st p xsz ysz sky x y sq = Done a -> a <> TryEdge ->
  sig_ncut st <= x <= xsz - sig_ncut st - 1
  /\ sig_ncut st <= y <= ysz - sig_ncut st - 1.
Proof.
  intros Hn Hx Hy H Ha. unfold SIZFIL in Hn. unfold attempt in H.
  cbv zeta in H. unfold isub in H.
  rewrite !(wrap_small (xsz - sig_ncut st)), !(wrap_small (ysz - sig_ncut st)),
    !(wrap_small (xsz - sig_ncut st - 1)), !(wrap_small (ysz - sig_ncut st - 1))
    in H by lia.
  destruct (Z.ltb_spec x (sig_ncut st)); [inversion H; congruence|].
  destruct (Z.ltb_spec y (sig_ncut st)); [inversion H; congruence|].
  destruct (Z.ltb_spec (xsz - sig_ncut st - 1) x); [inversion H; congruence|].
  destruct (Z.ltb_spec (ysz - sig_ncut st - 1) y); [inversion H; congruence|].
  lia.
Qed.

(** A relocation goes to one of the eight neighbours, where [lgausmom]
    gives a [filval] above the one at the centre. *)
Lemma attempt_move st p xsz ysz sky x y sq x' y' sq' :
  1 <= sig_ncut st <= SIZFIL ->
  0 <= xsz <= 2 ^ 31 - 1 -> 0 <= ysz <= 2 ^ 31 - 1 ->
  attempt st p xsz ysz sky x y sq = Done (TryMove x' y' sq') ->
  x - 1 <= x' <= x + 1 /\ y - 1 <= y' <= y + 1 /\ (x' <> x \/ y' <> y)
  /\ exists ps0 ps1 m m',
       lgausmom st p xsz ysz x y sky ps0 = Done (0, m, None)
       /\ lgausmom st p xsz ysz x' y' sky ps1 = Done (0, m', None)
       /\ (g_filval m <? g_filval m')%flt = true.
Proof.
  intros Hn Hx Hy H.
  assert (Hn0 : 0 <= sig_ncut st <= SIZFIL) by lia.
  destruct (attempt_edge _ _ _ _ _ _ _ _ _ Hn0 Hx Hy H) as (Ex & Ey); [discriminate|].
  unfold SIZFIL in Hn. unfold attempt in H.
  destruct (_ || _); [discriminate H|].
  destruct (lgausmom st p xsz ysz x y sky (val sq 1 1)) as [[[r m] d]|f] eqn:El;
    cbn [obind] in H; [|discriminate H].
  destruct (r <? 0) eqn:Er; [discriminate H|].
  apply lgausmom_ret in El as El'. destruct El' as [->|[-> ->]]; [discriminate Er|].
  destruct (scan _ _ _ _ _ _ _ _ _ _) as [s|f] eqn:Es; cbn [obind] in H;
    [|discriminate H].
  destruct s as [|dx dy sq1|sq1]; inversion H; subst; clear H.
  apply scan_move in Es as (i & j & ps1 & m' & Hin & -> & -> & El' & Hv).
  apply neighbours_range in Hin as (Hi & Hj & Hne).
  unfold iadd, isub in *.
  rewrite !(wrap_small (x + j)), !(wrap_small (y + i)),
    !(wrap_small (x + j - 1)), !(wrap_small (y + i - 1)) in El' by lia.
  rewrite !(wrap_small (x + (j - 1))), !(wrap_small (y + (i - 1))) by lia.
  split; [lia|]. split; [lia|]. split; [lia|].
  exists (val sq 1 1), ps1, m, m'.
  replace (x + (j - 1)) with (x + j - 1) by lia.
  replace (y + (i - 1)) with (y + i - 1) by lia. auto.
Qed.

(** ** What the peak locator reads *)

Section FindFrame.
Variables (sa sb : fstate) (pa pb : image) (xsz ysz sky : Z).
Hypothesis same_taps : taps_agree sa sb.
Hypothesis ncut_int : 1 <= sig_ncut sa <= SIZFIL.
Hypothesis xsz_int : 0 <= xsz <= 2 ^ 31 - 1.
Hypothesis ysz_int : 0 <= ysz <= 2 ^ 31 - 1.

Lemma scan_frame x y vc todo : forall sq,
  Forall (fun ij : Z * Z => 0 <= ij.1 <= 2 /\ 0 <= ij.2 <= 2) todo ->
  sig_ncut sa <= x <= xsz - sig_ncut sa - 1 ->
  sig_ncut sa <= y <= ysz - sig_ncut sa - 1 ->
  window_agree pa pb x y (sig_ncut sa) ->
  scan sa pa xsz ysz x y sky vc todo sq = scan sb pb xsz ysz x y sky vc todo sq.
Proof.
  unfold SIZFIL in ncut_int.
  induction todo as [|[i j] todo IH]; intros sq Hin Ex Ey W; cbn [scan];
    [reflexivity|].
  inversion Hin as [|? ? [Hi Hj] Hrest]; subst. cbn [fst snd] in Hi, Hj.
  unfold iadd, isub.
  rewrite !(wrap_small (x + j)), !(wrap_small (y + i)),
    !(wrap_small (x + j - 1)), !(wrap_small (y + i - 1)) by lia.
  rewrite (lgausmom_frame sa sb pa pb same_taps xsz xsz ysz (x + j - 1) (y + i - 1));
    [| eapply window_agree_sub; [exact W|lia..] | lia..].
  destruct (lgausmom sb pb xsz ysz (x + j - 1) (y + i - 1) sky (val sq i j))
    as [[[r m] d]|f]; cbn [obind]; [|reflexivity].
  destruct (r <? 0); [reflexivity|].
  destruct (vc <? g_filval m)%flt; [reflexivity|]. now apply IH.
Qed.

Lemma attempt_frame x y sq :
  window_agree pa pb x y (sig_ncut sa) ->
  attempt sa pa xsz ysz sky x y sq = attempt sb pb xsz ysz sky x y sq.
Proof.
  intros W. pose proof same_taps as (En & _). unfold SIZFIL in ncut_int.
  unfold attempt. rewrite <- En. cbv zeta. unfold isub.
  rewrite !(wrap_small (xsz - sig_ncut sa)), !(wrap_small (ysz - sig_ncut sa)),
    !(wrap_small (xsz - sig_ncut sa - 1)), !(wrap_small (ysz - sig_ncut sa - 1))
    by lia.
  destruct (Z.ltb_spec x (sig_ncut sa)); [reflexivity|].
  destruct (Z.ltb_spec y (sig_ncut sa)); [reflexivity|].
  destruct (Z.ltb_spec (xsz - sig_ncut sa - 1) x); [reflexivity|].
  destruct (Z.ltb_spec (ysz - sig_ncut sa - 1) y); [reflexivity|].
  cbn [orb].
  rewrite (lgausmom_frame sa sb pa pb same_taps xsz xsz ysz x y);
    [| eapply window_agree_sub; [exact W|lia..] | lia..].
  destruct (lgausmom sb pb xsz ysz x y sky (val sq 1 1)) as [[[r m] d]|f];
    cbn [obind]; [|reflexivity].
  destruct (r <? 0); [reflexivity|].
  rewrite (scan_frame x y); auto; try lia.
  unfold neighbours. repeat constructor; cbn [fst snd]; lia.
Qed.

Lemma find_start_frame k : forall x y sq,
  window_agree pa pb x y (sig_ncut sa + Z.of_nat k - 1) ->
  find_start sa pa xsz ysz sky k x y sq = find_start sb pb xsz ysz sky k x y sq.
Proof.
  induction k as [|k IH]; intros x y sq W; cbn [find_start]; [reflexivity|].
  rewrite (attempt_frame x y sq)
    by (eapply window_agree_sub; [exact W|lia..]).
  destruct (attempt sb pb xsz ysz sky x y sq) as [a|f] eqn:Ea; cbn [obind];
    [|reflexivity].
  destruct a as [| |x' y' sq'|vc sq']; try reflexivity.
  apply IH.
  assert (Hb : taps_agree sb sb).
  { unfold taps_agree. split; [reflexivity|]. split; [reflexivity|]. auto. }
  pose proof same_taps as (En & _).
  apply attempt_move in Ea as (Hx' & Hy' & _); [|rewrite <- En; assumption|assumption..].
  eapply window_agree_sub; [exact W|lia..].
Qed.

(** [atFindFocMom] reads the image only within [sig_ncut + 14] of the
    guess, and the filter only below [sig_ncut]. *)
Lemma atFindFocMom_frame x y ps :
  window_agree pa pb x y (sig_ncut sa + 14) ->
  atFindFocMom sa pa xsz ysz x y sky ps = atFindFocMom sb pb xsz ysz x y sky ps.
Proof.
  intros W. unfold atFindFocMom.
  rewrite (find_start_frame (Z.to_nat FINDERR) x y); [reflexivity|].
  eapply window_agree_sub; [exact W|unfold FINDERR; lia..].
Qed.

End FindFrame.

(** ** A regenerated filter does not depend on the one before *)

Section GenAgree.
Variable exp : double -> double.
Variables sig2inv siginv edge : float32.

Lemma gen_tap_agree i sa sb sa1 sb1 :
  gen_tap exp sig2inv siginv edge i sa = Done sa1 ->
  gen_tap exp sig2inv siginv edge i sb = Done sb1 ->
  cell (fgarray sa1) i = cell (fgarray sb1) i
  /\ cell (xfgarray sa1) i = cell (xfgarray sb1) i
  /\ cell (x2fgarray sa1) i = cell (x2fgarray sb1) i
  /\ (sig_ncut sa = sig_ncut sb -> sig_ncut sa1 = sig_ncut sb1).
Proof.
  unfold gen_tap. cbv zeta.
  match goal with |- context [conv (f2short ?g)] => set (gau := g) end.
  destruct (f2short gau) as [fg|]; cbn [conv obind]; [|discriminate].
  destruct (store (fgarray sa) i fg) as [fa|] eqn:A1; cbn [access obind];
    [|discriminate].
  destruct (store (fgarray sb) i fg) as [fb|] eqn:B1; cbn [access obind];
    [|intros _; discriminate].
  destruct (f2short _) as [xfg|]; cbn [conv obind]; [|discriminate].
  destruct (store (xfgarray sa) i xfg) as [xa|] eqn:A2; cbn [access obind];
    [|discriminate].
  destruct (store (xfgarray sb) i xfg) as [xb|] eqn:B2; cbn [access obind];
    [|intros _; discriminate].
  destruct (d2short _) as [x2fg|]; cbn [conv obind]; [|discriminate].
  destruct (store (x2fgarray sa) i x2fg) as [x2a|] eqn:A3; cbn [access obind];
    [|discriminate].
  destruct (store (x2fgarray sb) i x2fg) as [x2b|] eqn:B3; cbn [access obind];
    [|intros _; discriminate].
  intros Ha Hb. inversion Ha; inversion Hb; subst; clear Ha Hb.
  cbn [fgarray xfgarray x2fgarray sig_ncut].
  apply store_spec in A1 as (_ & -> & _). apply store_spec in B1 as (_ & -> & _).
  apply store_spec in A2 as (_ & -> & _). apply store_spec in B2 as (_ & -> & _).
  apply store_spec in A3 as (_ & -> & _). apply store_spec in B3 as (_ & -> & _).
  repeat split; auto. intros ->. reflexivity.
Qed.

Lemma gen_loop_agree n : forall i sa sb sa' sb',
  0 <= i ->
  gen_loop exp sig2inv siginv edge n i sa = Done sa' ->
  gen_loop exp sig2inv siginv edge n i sb = Done sb' ->
  sig_ncut sa = sig_ncut sb ->
  (forall k, 0 <= k < i ->
     cell (fgarray sa) k = cell (fgarray sb) k
     /\ cell (xfgarray sa) k = cell (xfgarray sb) k
     /\ cell (x2fgarray sa) k = cell (x2fgarray sb) k) ->
  sig_ncut sa' = sig_ncut sb'
  /\ forall k, 0 <= k < i + Z.of_nat n ->
       cell (fgarray sa') k = cell (fgarray sb') k
       /\ cell (xfgarray sa') k = cell (xfgarray sb') k
       /\ cell (x2fgarray sa') k = cell (x2fgarray sb') k.
Proof.
  induction n as [|n IH]; intros i sa sb sa' sb' Hi Ha Hb Hn Hc;
    cbn [gen_loop] in Ha, Hb.
  - inversion Ha; inversion Hb; subst. split; [exact Hn|].
    intros k Hk. apply Hc. lia.
  - destruct (gen_tap exp sig2inv siginv edge i sa) as [sa1|] eqn:Ta;
      cbn [obind] in Ha; [|discriminate Ha].
    destruct (gen_tap exp sig2inv siginv edge i sb) as [sb1|] eqn:Tb;
      cbn [obind] in Hb; [|discriminate Hb].
    destruct (gen_tap_agree _ _ _ _ _ Ta Tb) as (C1 & C2 & C3 & Cn).
    apply gen_tap_spec in Ta as (_ & _ & Ua & _).
    apply gen_tap_spec in Tb as (_ & _ & Ub & _).
    destruct (IH (i + 1) sa1 sb1 sa' sb') as (Rn & Rc); auto; try lia.
    + intros k Hk. destruct (Z.eq_dec k i) as [->|Hne]; [auto|].
      destruct (Ua k Hne) as (-> & -> & ->).
      destruct (Ub k Hne) as (-> & -> & ->). apply Hc. lia.
    + split; [exact Rn|]. intros k Hk. apply Rc. lia.
Qed.

End GenAgree.

(** Two calls of [atSetFSigma] that generate the filter for the same
    sigma leave the same filter, whatever the arrays held before. *)
Lemma atSetFSigma_agree exp sa sb sigma sa' sb' :
  (sigma =? sigmagen sa)%dbl = false -> (sigma =? sigmagen sb)%dbl = false ->
  atSetFSigma exp sa sigma = Done (0, sa') ->
  atSetFSigma exp sb sigma = Done (0, sb') ->
  taps_agree sa' sb' /\ sigmagen sa' = sigma /\ sigmagen sb' = sigma.
Proof.
  intros Ca Cb Ha Hb.
  pose proof (atSetFSigma_code _ _ _ _ _ Ha) as [(R & _)|(_ & G)]; [discriminate R|].
  revert Ha Hb. unfold atSetFSigma. rewrite G, Ca, Cb.
  destruct (d2i (d4 * sigma + d1_5)%dbl) as [ncut|]; cbn [conv obind];
    [|discriminate].
  cbv zeta.
  match goal with |- context [gen_loop _ ?a ?b ?c ?n ?i ?s] =>
    destruct (gen_loop exp a b c n i s) as [sa2|] eqn:Ga
  end; cbn [obind]; [|discriminate].
  match goal with |- _ -> obind (gen_loop _ ?a ?b ?c ?n ?i ?s) _ = _ -> _ =>
    destruct (gen_loop exp a b c n i s) as [sb2|] eqn:Gb
  end; cbn [obind]; [|intros _; discriminate].
  destruct (zero_loop _ _ (fgarray sa2)) as [fa|] eqn:Za; cbn [obind];
    [|discriminate].
  destruct (zero_loop _ _ (fgarray sb2)) as [fb|] eqn:Zb; cbn [obind];
    [|intros _; discriminate].
  intros Ha Hb.
  inversion Ha; inversion Hb; subst; clear Ha Hb.
  destruct (gen_loop_agree _ _ _ _ _ _ _ _ _ _ (Z.le_refl 0) Ga Gb) as (Rn & Rc);
    [reflexivity|intros k Hk; lia|].
  apply gen_loop_spec in Ga as (Sa & _ & Ta); [|lia].
  apply gen_loop_spec in Gb as (Sb & _ & _); [|lia].
  apply zero_loop_spec in Za as (_ & Ua). apply zero_loop_spec in Zb as (_ & Ub).
  cbn [sigmagen sig_ncut] in *.
  split; [|auto]. unfold taps_agree. cbn [fgarray xfgarray x2fgarray sig_ncut sigmagen].
  split; [exact Rn|]. split; [congruence|].
  intros i Hi.
  assert (Hv : sig_ncut sa2 <= ncut).
  { destruct Ta as [(-> & _)|(Hv & _)]; lia. }
  destruct (Rc i) as (C1 & C2 & C3); [lia|].
  rewrite Ua, Ub by lia. auto.
Qed.

(** ** Machine integers: arithmetic modulo 2^32 *)

#[export] Instance eqm32_equiv : Equivalence (eqm (2 ^ 32)) :=
  eqm_setoid (2 ^ 32).
#[export] Instance eqm32_add :
  Proper (eqm (2 ^ 32) ==> eqm (2 ^ 32) ==> eqm (2 ^ 32)) Z.add :=
  Zplus_eqm (2 ^ 32).
#[export] Instance eqm32_sub :
  Proper (eqm (2 ^ 32) ==> eqm (2 ^ 32) ==> eqm (2 ^ 32)) Z.sub :=
  Zminus_eqm (2 ^ 32).
#[export] Instance eqm32_mul :
  Proper (eqm (2 ^ 32) ==> eqm (2 ^ 32) ==> eqm (2 ^ 32)) Z.mul :=
  Zmult_eqm (2 ^ 32).

Lemma wrap_eqm t : eqm (2 ^ 32) (wrap t) t.
Proof.
  unfold eqm, wrap.
  replace ((t + 2 ^ 31) mod 2 ^ 32 - 2 ^ 31)
    with (t + - ((t + 2 ^ 31) / 2 ^ 32) * 2 ^ 32).
  - apply Z.mod_add. lia.
  - pose proof (Z.div_mod (t + 2 ^ 31) (2 ^ 32)). lia.
Qed.

Lemma eqm_wrap a b : eqm (2 ^ 32) a b -> wrap a = wrap b.
Proof.
  unfold eqm. intros H. unfold wrap. f_equal.
  rewrite <- (Zplus_mod_idemp_l a), <- (Zplus_mod_idemp_l b), H. reflexivity.
Qed.

(** Proves [wrap a = wrap b] when [a] and [b], with every inner [wrap]
    taken away, are equal as polynomials. *)
Ltac wrap_ring :=
  apply eqm_wrap; repeat setoid_rewrite wrap_eqm;
  match goal with |- eqm _ ?a ?b => replace a with b by ring; reflexivity end.

(** ** A field at sky level *)

Lemma pix_flat_val xsz ysz c r k v :
  pix (flat_image xsz ysz c) r k = Some v -> v = c.
Proof.
  unfold pix, cell, flat_image. intros H.
  destruct (0 <=? r); [|discriminate H].
  destruct (replicate (Z.to_nat ysz) (replicate (Z.to_nat xsz) c) !! Z.to_nat r)
    as [row|] eqn:Er; cbn in H; [|discriminate H].
  apply lookup_replicate in Er as [-> _].
  destruct (0 <=? k); [|discriminate H].
  apply lookup_replicate in H as [-> _]. reflexivity.
Qed.

Section Blank.
Variables (st : fstate) (xsz ysz c : Z).

Lemma blank_psum2 : wrap (wrap (c + c) - wrap (2 * c)) = 0.
Proof. transitivity (wrap 0); [wrap_ring|reflexivity]. Qed.

Lemma blank_psum4 :
  wrap (wrap (wrap (wrap (c + c) + c) + c) - wrap (4 * c)) = 0.
Proof. transitivity (wrap 0); [wrap_ring|reflexivity]. Qed.

Lemma ring0_tap_blank x yp j a a' :
  ring0_tap st (flat_image xsz ysz c) x yp (2 * c)%int j a = Done a' ->
  lsum a = 0 -> lsum a' = 0.
Proof.
  unfold ring0_tap. intros H Ha.
  destruct (pix _ yp (x + j)) as [pp|] eqn:E1; cbn [access obind] in H; [|discriminate H].
  destruct (pix _ yp (x - j)) as [pm|] eqn:E2; cbn [access obind] in H; [|discriminate H].
  apply pix_flat_val in E1, E2. subst pp pm.
  repeat step_outcome. inversion H; subst; clear H. cbn [lsum].
  unfold iadd, isub, imul. rewrite blank_psum2, Ha. reflexivity.
Qed.

Lemma ringi_tap_blank x yp ym j a a' :
  ringi_tap st (flat_image xsz ysz c) x yp ym (4 * c)%int j a = Done a' ->
  lsum a = 0 -> lsum a' = 0.
Proof.
  unfold ringi_tap. intros H Ha.
  destruct (pix _ yp (x + j)) as [pp|] eqn:E1; cbn [access obind] in H; [|discriminate H].
  destruct (pix _ yp (x - j)) as [pm|] eqn:E2; cbn [access obind] in H; [|discriminate H].
  destruct (pix _ ym (x + j)) as [mp|] eqn:E3; cbn [access obind] in H; [|discriminate H].
  destruct (pix _ ym (x - j)) as [mm|] eqn:E4; cbn [access obind] in H; [|discriminate H].
  apply pix_flat_val in E1, E2, E3, E4. subst pp pm mp mm.
  repeat step_outcome. inversion H; subst; clear H. cbn [lsum].
  unfold iadd, isub, imul. rewrite blank_psum4, Ha. reflexivity.
Qed.

Lemma taps_blank tap n : forall j a a',
  (forall k b b', tap k b = Done b' -> lsum b = 0 -> lsum b' = 0) ->
  taps tap n j a = Done a' -> lsum a = 0 -> lsum a' = 0.
Proof.
  induction n as [|n IH]; intros j a a' Ht H Ha; cbn [taps] in H.
  - inversion H; subst. exact Ha.
  - destruct (tap j a) as [a1|] eqn:E; cbn [obind] in H; [|discriminate H].
    eapply IH; eauto.
Qed.

Lemma ring_sums_blank x y i r :
  ring_sums st (flat_image xsz ysz c) x y c i = Done r -> lsum r = 0.
Proof.
  unfold ring_sums. cbv zeta. intros H.
  destruct (i =? 0).
  - destruct (pix _ _ x) as [v|] eqn:E1; cbn [access obind] in H; [|discriminate H].
    apply pix_flat_val in E1. subst v.
    destruct (cell (fgarray st) 0) as [fg0|]; cbn [access obind] in H; [|discriminate H].
    eapply taps_blank; [|exact H|].
    + intros k b b'. apply ring0_tap_blank.
    + cbn [lsum]. unfold isub, imul. rewrite Z.sub_diag. reflexivity.
  - destruct (pix _ _ x) as [v|] eqn:E1; cbn [access obind] in H; [|discriminate H].
    destruct (pix _ _ x) as [v'|] eqn:E2 in H; cbn [access obind] in H; [|discriminate H].
    apply pix_flat_val in E1, E2. subst v v'.
    destruct (cell (fgarray st) 0) as [fg0|]; cbn [access obind] in H; [|discriminate H].
    eapply taps_blank; [|exact H|].
    + intros k b b'. apply ringi_tap_blank.
    + cbn [lsum]. unfold iadd, isub, imul. rewrite blank_psum2. reflexivity.
Qed.

Lemma add_ring_blank i r t t' :
  add_ring st i r t = Done t' -> lsum r = 0 -> s_sum t = 0 -> s_sum t' = 0.
Proof.
  unfold add_ring. intros H Hr Ht. rewrite Hr in H.
  change (1048575 <? 0) with false in H. cbv iota in H.
  repeat step_outcome. inversion H; subst; cbn [s_sum].
  rewrite Ht. reflexivity.
Qed.

Lemma rings_blank x y n : forall i t t',
  rings st (flat_image xsz ysz c) x y c n i t = Done t' ->
  s_sum t = 0 -> s_sum t' = 0.
Proof.
  induction n as [|n IH]; intros i t t' H Ht; cbn [rings] in H.
  - inversion H; subst. exact Ht.
  - destruct (ring_sums _ _ x y c i) as [r|] eqn:Er; cbn [obind] in H; [|discriminate H].
    destruct (add_ring st i r t) as [t1|] eqn:Ea; cbn [obind] in H; [|discriminate H].
    eapply IH; [exact H|]. eapply add_ring_blank; eauto.
    eapply ring_sums_blank; eauto.
Qed.

Lemma moment_sums_blank x y t :
  moment_sums st (flat_image xsz ysz c) x y c = Done t -> s_sum t = 0.
Proof.
  unfold moment_sums. intros H.
  destruct (rings _ _ _ _ _ _ _ _) as [t0|] eqn:Er; cbn [obind] in H; [|discriminate H].
  inversion H; subst. cbn [s_sum].
  apply rings_blank in Er; [|reflexivity]. rewrite Er. reflexivity.
Qed.

End Blank.

Lemma flat_image_ok xsz ysz c :
  0 <= xsz <= 2 ^ 31 - 1 -> 0 <= ysz <= 2 ^ 31 - 1 ->
  image_ok (flat_image xsz ysz c) xsz ysz.
Proof.
  intros Hx Hy. unfold image_ok, flat_image. split; [apply length_replicate|].
  split; [|auto]. apply Forall_forall. intros row Hin.
  apply elem_of_replicate in Hin as [-> _]. apply length_replicate.
Qed.

(** ** A constant added to the image and to the sky *)

Lemma cell_map {A B} (f : A -> B) (l : list A) i :
  cell (map f l) i = f <$> cell l i.
Proof.
  unfold cell. destruct (0 <=? i); [|reflexivity]. apply list_lookup_fmap.
Qed.

Lemma pix_brighten c p r k :
  pix (brighten c p) r k = Z.add c <$> pix p r k.
Proof.
  unfold pix, brighten. rewrite cell_map.
  destruct (cell p r) as [row|]; cbn; [|reflexivity]. apply cell_map.
Qed.

Lemma taps_sim tap1 tap2 n : forall j a a',
  (forall k b b', lsum b = lsum b' -> lx2sum b = lx2sum b' ->
                  ring_sim (tap1 k b) (tap2 k b')) ->
  lsum a = lsum a' -> lx2sum a = lx2sum a' ->
  ring_sim (taps tap1 n j a) (taps tap2 n j a').
Proof.
  induction n as [|n IH]; intros j a a' Ht H1 H2; cbn [taps].
  - cbn. auto.
  - pose proof (Ht j a a' H1 H2) as Hj.
    destruct (tap1 j a) as [b|f], (tap2 j a') as [b'|f']; cbn in Hj;
      cbn [obind]; try contradiction.
    + destruct Hj. apply IH; auto.
    + exact Hj.
Qed.

Section Shift.
Variables (st : fstate) (p : image) (c sky : Z).

Lemma ring0_tap_shift x yp j a a' :
  lsum a = lsum a' -> lx2sum a = lx2sum a' ->
  ring_sim (ring0_tap st (brighten c p) x yp (2 * (sky + c)%Z)%int j a)
           (ring0_tap st p x yp (2 * sky)%int j a').
Proof.
  intros H1 H2. unfold ring0_tap. rewrite !pix_brighten.
  destruct (pix p yp (x + j)) as [pp|]; cbn [fmap option_fmap option_map access obind];
    [|reflexivity].
  destruct (pix p yp (x - j)) as [pm|]; cbn [fmap option_fmap option_map access obind];
    [|reflexivity].
  destruct (cell (fgarray st) j) as [fg|]; cbn [access obind]; [|reflexivity].
  destruct (cell (xfgarray st) j) as [xfg|]; cbn [access obind]; [|reflexivity].
  destruct (cell (x2fgarray st) j) as [x2fg|]; cbn [access obind]; [|reflexivity].
  cbn [ring_sim lsum lx2sum]. unfold iadd, isub, imul. rewrite H1, H2.
  split; wrap_ring.
Qed.

Lemma ringi_tap_shift x yp ym j a :
  ringi_tap st (brighten c p) x yp ym (4 * (sky + c)%Z)%int j a
  = ringi_tap st p x yp ym (4 * sky)%int j a.
Proof.
  unfold ringi_tap. rewrite !pix_brighten.
  destruct (pix p yp (x + j)) as [pp|]; cbn [fmap option_fmap option_map access obind];
    [|reflexivity].
  destruct (pix p yp (x - j)) as [pm|]; cbn [fmap option_fmap option_map access obind];
    [|reflexivity].
  destruct (pix p ym (x + j)) as [mp|]; cbn [fmap option_fmap option_map access obind];
    [|reflexivity].
  destruct (pix p ym (x - j)) as [mm|]; cbn [fmap option_fmap option_map access obind];
    [|reflexivity].
  destruct (cell (fgarray st) j) as [fg|]; cbn [access obind]; [|reflexivity].
  destruct (cell (xfgarray st) j) as [xfg|]; cbn [access obind]; [|reflexivity].
  destruct (cell (x2fgarray st) j) as [x2fg|]; cbn [access obind]; [|reflexivity].
  unfold iadd, isub, imul. f_equal. f_equal; wrap_ring.
Qed.

Lemma ring_sums_shift x y i :
  ring_sim (ring_sums st (brighten c p) x y (sky + c) i)
           (ring_sums st p x y sky i)
  /\ (i <> 0 -> ring_sums st (brighten c p) x y (sky + c) i
                = ring_sums st p x y sky i).
Proof.
  unfold ring_sums. cbv zeta. rewrite !pix_brighten.
  destruct (Z.eqb_spec i 0) as [->|Hi].
  - split; [|congruence].
    destruct (pix p (y + 0)%int x) as [v|];
      cbn [fmap option_fmap option_map access obind]; [|reflexivity].
    destruct (cell (fgarray st) 0) as [fg0|]; cbn [access obind]; [|reflexivity].
    apply taps_sim.
    + intros k b b'. apply ring0_tap_shift.
    + cbn [lsum]. unfold isub, imul. wrap_ring.
    + reflexivity.
  - assert (E : forall A B : outcome ring, A = B -> ring_sim A B).
    { intros A B ->. destruct B as [r|f]; cbn; auto. }
    assert (G : forall A B : outcome ring, A = B -> ring_sim A B /\ (i <> 0 -> A = B))
      by (intros; split; auto).
    apply G.
    destruct (pix p (y + i)%int x) as [v|];
      cbn [fmap option_fmap option_map access obind]; [|reflexivity].
    destruct (pix p (y - i)%int x) as [v'|];
      cbn [fmap option_fmap option_map access obind]; [|reflexivity].
    destruct (cell (fgarray st) 0) as [fg0|]; cbn [access obind]; [|reflexivity].
    replace (Ring (((c + v)%Z + (c + v')%Z - 2 * (sky + c)%Z) * fg0)%int 0 0)
      with (Ring ((v + v' - 2 * sky) * fg0)%int 0 0)
      by (unfold iadd, isub, imul; f_equal; wrap_ring).
    apply taps_ext. intros j b _. apply ringi_tap_shift.
Qed.

Hypothesis tap0 : cell (xfgarray st) 0 = Some 0.

Lemma add_ring_sim r r' t :
  lsum r = lsum r' -> lx2sum r = lx2sum r' ->
  add_ring st 0 r t = add_ring st 0 r' t.
Proof.
  intros H1 H2. unfold add_ring. rewrite tap0, H1, H2.
  destruct (cell (fgarray st) 0) as [fg|]; cbn [access obind]; [|reflexivity].
  destruct (cell (x2fgarray st) 0) as [x2fg|]; cbn [access obind]; [|reflexivity].
  unfold imul. rewrite !Z.mul_0_r. reflexivity.
Qed.

Lemma rings_shift x y n : forall i t,
  rings st (brighten c p) x y (sky + c) n i t = rings st p x y sky n i t.
Proof.
  induction n as [|n IH]; intros i t; cbn [rings]; [reflexivity|].
  destruct (ring_sums_shift x y i) as (S & E).
  destruct (Z.eq_dec i 0) as [->|Hi].
  - destruct (ring_sums st (brighten c p) x y (sky + c) 0) as [r|f],
             (ring_sums st p x y sky 0) as [r'|f']; cbn in S; try contradiction;
      cbn [obind]; [|congruence].
    destruct S as [S1 S2]. rewrite (add_ring_sim r r' t S1 S2).
    destruct (add_ring st 0 r' t); cbn [obind]; [apply IH|reflexivity].
  - rewrite (E Hi).
    destruct (ring_sums st p x y sky i); cbn [obind]; [|reflexivity].
    destruct (add_ring st i _ t); cbn [obind]; [apply IH|reflexivity].
Qed.

Lemma lgausmom_shift xsz ysz x y ps :
  lgausmom st (brighten c p) xsz ysz x y (sky + c) ps
  = lgausmom st p xsz ysz x y sky ps.
Proof. unfold lgausmom, moment_sums. now rewrite rings_shift. Qed.

End Shift.

(** ** The peak locator over equal evaluations *)

Section Ext.
Variables (st : fstate) (p p' : image) (xsz ysz sky sky' : Z).
Hypothesis same : forall x y ps,
  lgausmom st p xsz ysz x y sky ps = lgausmom st p' xsz ysz x y sky' ps.

Lemma scan_ext x y vc todo : forall sq,
  scan st p xsz ysz x y sky vc todo sq = scan st p' xsz ysz x y sky' vc todo sq.
Proof.
  induction todo as [|[i j] todo IH]; intros sq; cbn [scan]; [reflexivity|].
  rewrite same.
  destruct (lgausmom st p' _ _ _ _ _ _) as [[[r m] d]|f]; cbn [obind]; [|reflexivity].
  destruct (r <? 0); [reflexivity|].
  destruct (vc <? g_filval m)%flt; [reflexivity|apply IH].
Qed.

Lemma attempt_ext x y sq :
  attempt st p xsz ysz sky x y sq = attempt st p' xsz ysz sky' x y sq.
Proof.
  unfold attempt. destruct (_ || _); [reflexivity|]. rewrite same.
  destruct (lgausmom st p' _ _ _ _ _ _) as [[[r m] d]|f]; cbn [obind]; [|reflexivity].
  destruct (r <? 0); [reflexivity|]. now rewrite scan_ext.
Qed.

Lemma find_start_ext k : forall x y sq,
  find_start st p xsz ysz sky k x y sq = find_start st p' xsz ysz sky' k x y sq.
Proof.
  induction k as [|k IH]; intros x y sq; cbn [find_start]; [reflexivity|].
  rewrite attempt_ext.
  destruct (attempt st p' xsz ysz sky' x y sq) as [[| |x' y' sq'|vc sq']|f];
    cbn [obind]; try reflexivity. apply IH.
Qed.

Lemma atFindFocMom_ext x y ps :
  atFindFocMom st p xsz ysz x y sky ps = atFindFocMom st p' xsz ysz x y sky' ps.
Proof. unfold atFindFocMom. now rewrite find_start_ext. Qed.

End Ext.

Lemma filter_ok_sigma1 : filter_ok st_sigma1.
Proof.
  unfold filter_ok. do 5 (split; [reflexivity|]).
  intros _. unfold SIZFIL. cbn. lia.
Qed.

Lemma image_ok_star13 : image_ok star13 13 13.
Proof.
  unfold image_ok. split; [reflexivity|]. split; [repeat constructor|lia].
Qed.

Lemma relocates_distance st p xsz ysz sky n : forall x y sq x' y' sq',
  1 <= sig_ncut st <= SIZFIL ->
  0 <= xsz <= 2 ^ 31 - 1 -> 0 <= ysz <= 2 ^ 31 - 1 ->
  relocates st p xsz ysz sky n (x, y, sq) (x', y', sq') ->
  x - Z.of_nat n <= x' <= x + Z.of_nat n
  /\ y - Z.of_nat n <= y' <= y + Z.of_nat n.
Proof.
  induction n as [|n IH]; intros x y sq x' y' sq' Hn Hx Hy H;
    inversion H as [|? ? ? ? x1 y1 sq1 ? Ha Hr]; subst.
  - lia.
  - apply attempt_move in Ha as (X1 & Y1 & _); auto.
    apply IH in Hr; auto. lia.
Qed.

(** ** What [*ps] holds on entry *)

Lemma fit_fresh x y ret vc sq ps ps2 r ps' :
  fit x y ret vc sq ps = (r, ps') -> 0 <= r ->
  fit x y ret vc sq ps2 = (r, ps').
Proof.
  unfold fit. intros H Hr.
  repeat match type of H with
         | (if ?b then _ else _) = _ => destruct b; [inversion H; lia|]
         end.
  exact H.
Qed.

Lemma atFindFocMom_fresh st p xsz ysz x y sky ps ps2 r ps' :
  atFindFocMom st p xsz ysz x y sky ps = Done (r, ps') ->
  (0 <= r /\ atFindFocMom st p xsz ysz x y sky ps2 = Done (r, ps'))
  \/ (r < 0 /\ ps' = ps /\ atFindFocMom st p xsz ysz x y sky ps2 = Done (r, ps2)).
Proof.
  intros H. destruct (Z.le_gt_cases 0 r) as [Hr|Hr].
  - left. split; [exact Hr|]. revert H. unfold atFindFocMom.
    destruct (find_start _ _ _ _ _ _ _ _ _) as [[| | |x' y' ret vc sq]|f];
      cbn [obind]; intros H; try (inversion H; lia).
    f_equal. inversion H as [H1]. symmetry. rewrite H1.
    symmetry. eapply fit_fresh; eauto.
  - right. split; [lia|].
    pose proof (atFindFocMom_failure _ _ _ _ _ _ _ _ _ _ H ltac:(lia)) as ->.
    split; [reflexivity|]. revert H. unfold atFindFocMom.
    destruct (find_start _ _ _ _ _ _ _ _ _) as [[| | |x' y' ret vc sq]|f] eqn:Ef;
      cbn [obind]; intros H; try (inversion H; subst; reflexivity).
    apply find_start_ret in Ef. unfold FINDERR in Ef. cbn in Ef.
    destruct (fit_flat_iff x' y' ret vc sq ps) as (_ & (F1 & _)); [lia|].
    destruct (fit_flat_iff x' y' ret vc sq ps2) as ((_ & F2) & _); [lia|].
    inversion H as [H1].
    pose proof (fit_code x' y' ret vc sq ps) as Hc. rewrite H1 in Hc, F1.
    cbn [fst] in Hc, F1. destruct Hc as [Hc|Hc]; [|lia].
    rewrite (F2 (F1 Hc)). subst r. reflexivity.
Qed.

Section Fresh.
Variable exp : double -> double.
Variables (p : image) (xsz ysz x y sky : Z).

Lemma sigma_body_fresh st ps ps2 sig r st1 ps1 sig1 :
  sigma_body exp p xsz ysz x y sky st ps sig = Done (r, st1, ps1, sig1) ->
  sigma_body exp p xsz ysz x y sky st ps2 sig = Done (r, st1, ps1, sig1)
  \/ (exists c, r = IterReturn c) /\ ps1 = ps
     /\ sigma_body exp p xsz ysz x y sky st ps2 sig = Done (r, st1, ps2, sig1).
Proof.
  unfold sigma_body.
  destruct (atSetFSigma exp st sig) as [[r0 st2]|f]; cbn [obind]; [|discriminate].
  destruct (r0 <? 0).
  { intros H. inversion H; subst. right. eauto. }
  destruct (atFindFocMom st2 p xsz ysz x y sky ps) as [[err psA]|f] eqn:Ea;
    cbn [obind]; [|discriminate].
  destruct (atFindFocMom_fresh _ _ _ _ _ _ _ _ ps2 _ _ Ea)
    as [(Hr & ->)|(Hr & -> & ->)]; cbn [obind].
  - intros H. left. exact H.
  - destruct (Z.ltb_spec err 0) as [_|Hge]; [|lia].
    intros H. inversion H; subst. right. eauto.
Qed.

Lemma sigma_loop_fresh n : forall st ps ps2 sig c st' ps' sig',
  sigma_loop exp p xsz ysz x y sky n st ps sig = Done (c, st', ps', sig') ->
  sigma_loop exp p xsz ysz x y sky n st ps2 sig = Done (c, st', ps', sig')
  \/ c < 0 /\ ps' = ps
     /\ sigma_loop exp p xsz ysz x y sky n st ps2 sig = Done (c, st', ps2, sig').
Proof.
  destruct n as [|n]; intros st ps ps2 sig c st' ps' sig' H; cbn [sigma_loop] in *.
  - inversion H; subst. right. split; [lia|auto].
  - destruct (sigma_body exp p xsz ysz x y sky st ps sig)
      as [[[[r st1] ps1] sig1]|f] eqn:Eb; cbn [obind] in H; [|discriminate H].
    destruct (sigma_body_fresh _ _ ps2 _ _ _ _ _ Eb) as [->|((c0 & ->) & -> & ->)];
      cbn [obind].
    + left. exact H.
    + inversion H; subst. right. apply sigma_body_return in Eb. auto.
Qed.

End Fresh.

(** ** Floating point: the order *)

Lemma SFltb_trans x y z :
  SFltb x y = true -> SFltb y z = true -> SFltb x z = true.
Proof.
  unfold SFltb, SFcompare.
  destruct x as [[|]|[|]| |[|] m1 e1], y as [[|]|[|]| |[|] m2 e2],
           z as [[|]|[|]| |[|] m3 e3];
    try reflexivity; try discriminate;
    change (Pos.compare_cont Eq m1 m2) with (Pos.compare m1 m2);
    change (Pos.compare_cont Eq m2 m3) with (Pos.compare m2 m3);
    change (Pos.compare_cont Eq m1 m3) with (Pos.compare m1 m3);
    destruct (Z.compare_spec e1 e2); try discriminate;
    destruct (Z.compare_spec e2 e3); try discriminate;
    destruct (Z.compare_spec e1 e3); try reflexivity; try lia;
    destruct (Pos.compare_spec m1 m2); cbn [CompOpp]; try discriminate;
    destruct (Pos.compare_spec m2 m3); cbn [CompOpp]; try discriminate;
    destruct (Pos.compare_spec m1 m3); cbn [CompOpp]; try reflexivity; lia.
Qed.

(** ** Relocations go up *)

Lemma lgausmom_filval_ps st p xsz ysz x y sky ps ps2 m :
  lgausmom st p xsz ysz x y sky ps = Done (0, m, None) ->
  exists m2, lgausmom st p xsz ysz x y sky ps2 = Done (0, m2, None)
             /\ g_filval m2 = g_filval m.
Proof.
  unfold lgausmom. destruct (_ =? _)%dbl; [discriminate|].
  destruct (edge_test st ysz y); [discriminate|].
  destruct (moment_sums st p x y sky) as [t|f]; cbn [obind]; [|discriminate].
  unfold finish. destruct (_ =? _)%flt; [discriminate|].
  intros H. inversion H; subst. eexists. split; reflexivity.
Qed.

Lemma relocates_ascent st p xsz ysz sky n : forall x y sq x' y' sq',
  1 <= sig_ncut st <= SIZFIL ->
  0 <= xsz <= 2 ^ 31 - 1 -> 0 <= ysz <= 2 ^ 31 - 1 ->
  relocates st p xsz ysz sky (S n) (x, y, sq) (x', y', sq') ->
  exists ps0 ps1 m m',
    lgausmom st p xsz ysz x y sky ps0 = Done (0, m, None)
    /\ lgausmom st p xsz ysz x' y' sky ps1 = Done (0, m', None)
    /\ (g_filval m <? g_filval m')%flt = true.
Proof.
  induction n as [|n IH]; intros x y sq x' y' sq' Hn Hx Hy H;
    inversion H as [|? ? ? ? x1 y1 sq1 ? Ha Hr]; subst.
  - inversion Hr; subst.
    apply attempt_move in Ha as (_ & _ & _ & E); auto.
  - apply attempt_move in Ha as (_ & _ & _ & ps0 & ps1 & m & m1 & E0 & E1 & L1);
      auto.
    apply IH in Hr as (ps2 & ps3 & m1' & m' & E2 & E3 & L2); auto.
    destruct (lgausmom_filval_ps _ _ _ _ _ _ _ _ ps1 _ E2) as (m1'' & E4 & F).
    assert (m1'' = m1) by congruence. subst m1''.
    exists ps0, ps3, m, m'. split; [exact E0|]. split; [exact E3|].
    unfold flt in *. rewrite <- F in L2. eapply SFltb_trans; eauto.
Qed.

Lemma sigma_body_break exp p xsz ysz x y sky st ps sig st1 ps1 sig1 :
  sigma_body exp p xsz ysz x y sky st ps sig = Done (IterBreak, st1, ps1, sig1) ->
  atSetFSigma exp st sig = Done (0, st1)
  /\ exists r, 0 <= r /\ atFindFocMom st1 p xsz ysz x y sky ps = Done (r, ps1).
Proof.
  unfold sigma_body.
  destruct (atSetFSigma exp st sig) as [[r0 st2]|f] eqn:Es; cbn [obind];
    [|discriminate].
  pose proof (atSetFSigma_code _ _ _ _ _ Es) as [(-> & _)|(-> & _)];
    cbn [Z.ltb Z.compare]; [discriminate|].
  destruct (atFindFocMom st2 p xsz ysz x y sky ps) as [[err ps2]|f] eqn:Ef;
    cbn [obind]; [|discriminate].
  destruct (Z.ltb_spec err 0) as [|Hge]; [discriminate|].
  destruct (_ || _); [discriminate|].
  destruct (_ <? _)%dbl.
  - intros H. inversion H; subst. split; [reflexivity|].
    exists err. split; [assumption|exact Ef].
  - destruct (_ <? _)%dbl; [|discriminate].
    intros H. inversion H; subst. split; [reflexivity|].
    exists err. split; [assumption|exact Ef].
Qed.

Lemma sigmagen_after exp st sigma st' :
  atSetFSigma exp st sigma = Done (0, st') ->
  (sigma =? sigmagen st')%dbl = true.
Proof.
  intros H. apply atSetFSigma_regenerated in H
    as [(R & _)|[(_ & -> & _ & Eq)|(_ & Hs & ncut & Hn & _)]];
    [discriminate R|exact Eq|].
  rewrite Hs. apply SFeqb_refl. intros N.
  rewrite (ncut_nan _ N) in Hn. discriminate Hn.
Qed.

(** [window_agree] from a check of the samples of the window. *)
Lemma window_agree_check pa pb x y r :
  Forall (fun i =>
            Forall (fun j => pix pa i j = pix pb i j) (seqZ (x - r) (2 * r + 1)))
         (seqZ (y - r) (2 * r + 1)) ->
  window_agree pa pb x y r.
Proof.
  intros H i j Hi Hj.
  rewrite Forall_forall in H.
  specialize (H i). rewrite Forall_forall in H.
  apply H; apply elem_of_seqZ; lia.
Qed.

(** * Further properties of the code *)

(** X1.  For every double [sigma] that passes the range test of
    [atSetFSigma], the half-width [ncut = 4.*sigma + 1.5] converts to an
    int between 1 and 49, one less than the size of the filter arrays,
    unless [sigma] is a NaN: a NaN passes the test, and its conversion
    to int is undefined. *)
Theorem atSetFSigma_ncut_bounds :
  forall sigma,
    SpecFloat.valid_binary 53 1024 (d_bits sigma) = true ->
    (sigma <=? d0)%dbl || (d12 <? sigma)%dbl = false ->
    (d_bits sigma = S754_nan -> d2i (d4 * sigma + d1_5)%dbl = None)
    /\ (d_bits sigma <> S754_nan ->
        exists ncut, d2i (d4 * sigma + d1_5)%dbl = Some ncut
                     /\ 1 <= ncut <= SIZFIL - 1).
Proof.
  intros sigma Hv G. split.
  - apply ncut_nan.
  - intros Hn. apply ncut_range; auto. now apply valid_fits53.
Qed.

Lemma atSetFSigma_ncut_bounds_witness :
  (d_bits d12 = S754_nan -> d2i (d4 * d12 + d1_5)%dbl = None)
  /\ (d_bits d12 <> S754_nan ->
      exists ncut, d2i (d4 * d12 + d1_5)%dbl = Some ncut
                   /\ 1 <= ncut <= SIZFIL - 1).
Proof. apply (atSetFSigma_ncut_bounds d12); reflexivity. Defined.

(** X2.  On filter arrays of [SIZFIL] entries, [atSetFSigma] never
    reads or writes outside them, for any double [sigma] and whatever
    [exp] returns: it returns, or it stops at a floating value that does
    not convert to [int] or [short].  When it returns, the arrays still
    have their [SIZFIL] entries and tap 0 of [xfgarray] and of
    [x2fgarray] is 0; when it returns 0, [sigmagen] is not 0 and
    [sig_ncut] is between 1 and 49. *)
Theorem atSetFSigma_in_bounds :
  forall exp st sigma,
    filter_ok st ->
    SpecFloat.valid_binary 53 1024 (d_bits sigma) = true ->
    atSetFSigma exp st sigma = Fault ConvRange
    \/ exists r st',
         atSetFSigma exp st sigma = Done (r, st') /\ filter_ok st'
         /\ (r = 0 -> (sigmagen st' =? d0)%dbl = false
                      /\ 1 <= sig_ncut st' <= SIZFIL - 1).
Proof.
  intros exp st sigma Hok Hv.
  destruct (atSetFSigma_safe exp st sigma Hok (valid_fits53 _ Hv))
    as [F|(r & st' & E & Hok' & Hg)]; [left; exact F|].
  right. exists r, st'. split; [exact E|]. split; [exact Hok'|].
  intros Hr. split; [auto|]. destruct Hok' as (_ & _ & _ & _ & _ & Hc). auto.
Qed.

Lemma atSetFSigma_in_bounds_witness :
  atSetFSigma exp_ref fstate0 d1 = Fault ConvRange
  \/ exists r st',
       atSetFSigma exp_ref fstate0 d1 = Done (r, st') /\ filter_ok st'
       /\ (r = 0 -> (sigmagen st' =? d0)%dbl = false
                    /\ 1 <= sig_ncut st' <= SIZFIL - 1).
Proof.
  apply (atSetFSigma_in_bounds exp_ref fstate0 d1);
    [exact filter_ok_start | reflexivity].
Defined.

(** X3.  On an image of [ysz] rows of [xsz] samples, [atSigmaFind]
    never reads outside the image, never reads or writes outside the
    filter arrays and never fails the assertion of [lgausmom], whatever
    [exp] returns: it returns, or it stops in [atSetFSigma] at a
    floating value that does not convert to an integer type. *)
Theorem atSigmaFind_in_bounds :
  forall exp st p xsz ysz x y sky ps sig,
    filter_ok st -> image_ok p xsz ysz ->
    SpecFloat.valid_binary 53 1024 (d_bits sig) = true ->
    atSigmaFind exp st p xsz ysz x y sky ps sig = Fault ConvRange
    \/ exists c st' ps' sig',
         atSigmaFind exp st p xsz ysz x y sky ps sig
         = Done (c, st', ps', sig')
         /\ filter_ok st'.
Proof.
  intros exp st p xsz ysz x y sky ps sig Hok Him Hv. unfold atSigmaFind.
  apply sigma_loop_safe; auto.
  destruct (sig <? i2d 0)%dbl; [|now apply valid_fits53].
  cbn [d_bits SIGGUESS fits53]. split; [vm_compute; discriminate|lia].
Qed.

Lemma atSigmaFind_in_bounds_witness :
  atSigmaFind exp_ref fstate0 star13 13 13 6 6 0 None d0_9 = Fault ConvRange
  \/ exists c st' ps' sig',
       atSigmaFind exp_ref fstate0 star13 13 13 6 6 0 None d0_9
       = Done (c, st', ps', sig')
       /\ filter_ok st'.
Proof.
  apply (atSigmaFind_in_bounds exp_ref fstate0 star13 13 13 6 6 0 None d0_9);
    [exact filter_ok_start | exact image_ok_star13 | reflexivity].
Defined.

(** X4.  After a call of [atSetFSigma] that returns 0, a second call
    with the same [sigma] returns 0 and leaves every static as it is,
    without a call of [exp]. *)
Theorem atSetFSigma_cache_hit :
  forall exp exp' st sigma st',
    atSetFSigma exp st sigma = Done (0, st') ->
    atSetFSigma exp' st' sigma = Done (0, st').
Proof.
  intros exp exp' st sigma st' H. pose proof (atSetFSigma_code _ _ _ _ _ H) as [(R & _)|(_ & G)];
    [discriminate R|].
  apply atSetFSigma_regenerated in H
    as [(R & _)|[(_ & -> & _ & Eq)|(_ & Hs & ncut & Hn & _)]];
    [discriminate R| |].
  - unfold atSetFSigma. now rewrite G, Eq.
  - unfold atSetFSigma. rewrite G, Hs.
    assert (E : (sigma =? sigma)%dbl = true).
    { apply SFeqb_refl. intros N. rewrite (ncut_nan _ N) in Hn. discriminate Hn. }
    now rewrite E.
Qed.

Lemma atSetFSigma_cache_hit_witness :
  atSetFSigma (fun _ => d0) st_sigma1 d1 = Done (0, st_sigma1).
Proof.
  apply (atSetFSigma_cache_hit exp_ref (fun _ => d0) fstate0 d1 st_sigma1).
  vm_compute. reflexivity.
Defined.

(** X5.  The filter a call of [atSetFSigma] generates does not depend
    on what the arrays held before: after two calls that generate the
    filter for the same [sigma] from different statics, [atFindFocMom]
    returns the same value and the same [*ps] on every input.  The
    entries of [xfgarray] and [x2fgarray] the call leaves from an
    earlier, wider filter are never read. *)
Theorem atSetFSigma_history_free :
  forall exp sa sb sigma sa' sb' p xsz ysz x y sky ps,
    SpecFloat.valid_binary 53 1024 (d_bits sigma) = true ->
    (sigma =? sigmagen sa)%dbl = false ->
    (sigma =? sigmagen sb)%dbl = false ->
    atSetFSigma exp sa sigma = Done (0, sa') ->
    atSetFSigma exp sb sigma = Done (0, sb') ->
    0 <= xsz <= 2 ^ 31 - 1 -> 0 <= ysz <= 2 ^ 31 - 1 ->
    atFindFocMom sa' p xsz ysz x y sky ps
    = atFindFocMom sb' p xsz ysz x y sky ps.
Proof.
  intros exp sa sb sigma sa' sb' p xsz ysz x y sky ps Hv Ca Cb Ha Hb Hx Hy.
  destruct (atSetFSigma_agree _ _ _ _ _ _ Ca Cb Ha Hb) as (Ht & Sa & _).
  assert (Hn : 1 <= sig_ncut sa' <= SIZFIL).
  { apply atSetFSigma_regenerated in Ha
      as [(R & _)|[(_ & _ & _ & Eq)|(_ & _ & ncut & En & _ & _ & Tr)]];
      [discriminate R|congruence|].
    pose proof (atSetFSigma_code _ _ _ _ _ Hb) as [(R & _)|(_ & G)];
      [discriminate R|].
    destruct (ncut_range sigma (valid_fits53 _ Hv)) as (n & En' & Hn); auto.
    { intros N. rewrite (ncut_nan _ N) in En. discriminate En. }
    assert (n = ncut) as -> by congruence. unfold SIZFIL.
    destruct Tr as [(-> & _)|(? & ? & _)]; lia. }
  apply atFindFocMom_frame; auto.
  intros i j _ _. reflexivity.
Qed.

Lemma atSetFSigma_history_free_witness :
  atFindFocMom st_sigma1 star13 13 13 6 6 0 gmom0
  = atFindFocMom st_wide_then_1 star13 13 13 6 6 0 gmom0.
Proof.
  apply (atSetFSigma_history_free exp_ref fstate0 st_wide d1);
    try reflexivity; try lia; vm_compute; reflexivity.
Defined.

(** X6.  [lgausmom] at [(x,y)] depends on the image only through the
    samples in the square of half-width [ncut-1] around [(x,y)], and
    [atFindFocMom] only through those within [ncut + 14] of its
    starting guess, in rows and in columns: two images that agree there
    give the same result. *)
Theorem atFindFocMom_reads_window :
  (forall st pa pb xsz ysz x y sky ps,
      0 <= sig_ncut st ->
      - 2 ^ 31 <= y - sig_ncut st -> y + sig_ncut st <= 2 ^ 31 - 1 ->
      window_agree pa pb x y (sig_ncut st - 1) ->
      lgausmom st pa xsz ysz x y sky ps = lgausmom st pb xsz ysz x y sky ps)
  /\ (forall st pa pb xsz ysz x y sky ps,
        1 <= sig_ncut st <= SIZFIL ->
        0 <= xsz <= 2 ^ 31 - 1 -> 0 <= ysz <= 2 ^ 31 - 1 ->
        window_agree pa pb x y (sig_ncut st + 14) ->
        atFindFocMom st pa xsz ysz x y sky ps
        = atFindFocMom st pb xsz ysz x y sky ps).
Proof.
  assert (R : forall st, taps_agree st st).
  { intros st. split; [reflexivity|]. split; [reflexivity|]. auto. }
  split.
  - intros. apply lgausmom_frame; auto.
  - intros. apply atFindFocMom_frame; auto.
Qed.

Lemma atFindFocMom_reads_window_witness :
  pix star13 0 0 <> pix star13_rim 0 0
  /\ lgausmom st_sigma1 star13 13 13 6 6 0 gmom0
     = lgausmom st_sigma1 star13_rim 13 13 6 6 0 gmom0
  /\ pix (tent_far 0) 1 25 <> pix (tent_far 500) 1 25
  /\ atFindFocMom st_narrow (tent_far 0) 31 3 3 1 0 gmom0
     = atFindFocMom st_narrow (tent_far 500) 31 3 3 1 0 gmom0
  /\ atFindFocMom st_narrow (tent_far 500) 31 3 3 1 0 gmom0
     = Done (2, tent_result).
Proof.
  split; [vm_compute; discriminate|]. split.
  { apply (proj1 atFindFocMom_reads_window st_sigma1 star13 star13_rim);
      [cbn; lia | cbn; lia | cbn; lia | ].
    apply window_agree_check. apply (bool_decide_unpack _). vm_compute. reflexivity. }
  split; [vm_compute; discriminate|]. split.
  { apply (proj2 atFindFocMom_reads_window st_narrow (tent_far 0) (tent_far 500));
      [unfold SIZFIL; cbn; lia | lia | lia | ].
    apply window_agree_check. apply (bool_decide_unpack _). vm_compute. reflexivity. }
  vm_compute. reflexivity.
Defined.

(** X7.  When a pass of [atFindFocMom] ends in [goto start], the new
    centre is one of the eight neighbours of the old one, and
    [lgausmom] returns 0 at both with a [filval] at the new centre
    above the one at the old centre. *)
Theorem atFindFocMom_relocation_step :
  forall st p xsz ysz sky x y sq x' y' sq',
    1 <= sig_ncut st <= SIZFIL ->
    0 <= xsz <= 2 ^ 31 - 1 -> 0 <= ysz <= 2 ^ 31 - 1 ->
    attempt st p xsz ysz sky x y sq = Done (TryMove x' y' sq') ->
    x - 1 <= x' <= x + 1 /\ y - 1 <= y' <= y + 1 /\ (x' <> x \/ y' <> y)
    /\ exists ps0 ps1 m m',
         lgausmom st p xsz ysz x y sky ps0 = Done (0, m, None)
         /\ lgausmom st p xsz ysz x' y' sky ps1 = Done (0, m', None)
         /\ (g_filval m <? g_filval m')%flt = true.
Proof.
  intros st p xsz ysz sky x y sq x' y' sq' Hn Hx Hy H.
  now apply (attempt_move st p xsz ysz sky x y sq x' y' sq').
Qed.

Lemma atFindFocMom_relocation_step_witness :
  3 - 1 <= 4 <= 3 + 1 /\ 1 - 1 <= 1 <= 1 + 1 /\ (4 <> 3 \/ 1 <> 1)
  /\ exists ps0 ps1 m m',
       lgausmom st_narrow tent 11 3 3 1 0 ps0 = Done (0, m, None)
       /\ lgausmom st_narrow tent 11 3 4 1 0 ps1 = Done (0, m', None)
       /\ (g_filval m <? g_filval m')%flt = true.
Proof.
  eapply (atFindFocMom_relocation_step st_narrow tent 11 3 0 3 1
            (replicate 9 gmom0) 4 1);
    [unfold SIZFIL; cbn; lia | lia | lia | vm_compute; reflexivity].
Defined.

(** X8.  When [atFindFocMom] returns a negative value, [*ps] is as it
    was before the call. *)
Theorem atFindFocMom_failure_keeps_ps :
  forall st p xsz ysz x y sky ps r ps',
    atFindFocMom st p xsz ysz x y sky ps = Done (r, ps') -> r < 0 -> ps' = ps.
Proof.
  intros st p xsz ysz x y sky ps r ps' H Hr.
  exact (atFindFocMom_failure _ _ _ _ _ _ _ _ _ _ H Hr).
Qed.

Lemma atFindFocMom_failure_keeps_ps_witness :
  atFindFocMom st_sigma1 flat12 12 12 5 5 10 tent_result
  = Done (-3, tent_result)
  /\ tent_result = tent_result.
Proof.
  split; [vm_compute; reflexivity|].
  apply (atFindFocMom_failure_keeps_ps st_sigma1 flat12 12 12 5 5 10
           tent_result (-3) tent_result); [vm_compute; reflexivity | lia].
Defined.

(** X9.  The value [atSigmaFind] returns lies between -6 and 0.  It is -1
    when [atSetFSigma] rejects the current [*sig], which is then
    returned as it is; it is -4, -5 or -6 when [atFindFocMom] returns
    -1, -2 or -3 with the filter left in the statics, and [*ps] is then
    what [atFindFocMom] was given; it is -2 when [atFindFocMom]
    succeeds and one of the four moments it stores is outside (-1,1). *)
Theorem atSigmaFind_codes :
  forall exp st p xsz ysz x y sky ps sig c st' ps' sig',
    atSigmaFind exp st p xsz ysz x y sky ps sig = Done (c, st', ps', sig') ->
    -6 <= c <= 0
    /\ (c = -1 -> (sig' <=? d0)%dbl || (d12 <? sig')%dbl = true)
    /\ (-6 <= c <= -4 ->
          atFindFocMom st' p xsz ysz x y sky ps' = Done (c + 3, ps'))
    /\ (c = -2 ->
          (exists ps0 r, 0 <= r
             /\ atFindFocMom st' p xsz ysz x y sky ps0 = Done (r, ps'))
          /\ out_of_range (g_xmom ps') || out_of_range (g_ymom ps')
             || out_of_range (g_pmom ps') || out_of_range (g_mmom ps')
             = true).
Proof.
  intros exp st p xsz ysz x y sky ps sig c st' ps' sig' H.
  unfold atSigmaFind in H.
  apply sigma_loop_inv in H
    as [(k & st1 & ps1 & sig1 & r & _ & _ & Hb & [[Hr Hc]|Hr])|[_ Hc]]; subst.
  - split; [lia|]. repeat split; intros; lia.
  - apply sigma_body_codes in Hb
      as (-> & [(-> & -> & -> & G)|[(Hc & -> & _ & Hf)|(-> & _ & (r & Hr & Hf) & Ho)]]).
    + split; [lia|]. split; [auto|]. split; intros; lia.
    + split; [lia|]. split; [intros; lia|]. split; [auto|intros; lia].
    + split; [lia|]. split; [intros; lia|]. split; [intros; lia|].
      intros _. split; [eauto|exact Ho].
  - split; [lia|]. repeat split; intros; lia.
Qed.

Lemma atSigmaFind_codes_witness :
  -6 <= -6 <= 0
  /\ (-6 = -1 -> (d1 <=? d0)%dbl || (d12 <? d1)%dbl = true)
  /\ (-6 <= -6 <= -4 ->
        atFindFocMom st_sigma1 flat12 12 12 5 5 10 gmom0
        = Done (-6 + 3, gmom0))
  /\ (-6 = -2 ->
        (exists ps0 r, 0 <= r
           /\ atFindFocMom st_sigma1 flat12 12 12 5 5 10 ps0 = Done (r, gmom0))
        /\ out_of_range (g_xmom gmom0) || out_of_range (g_ymom gmom0)
           || out_of_range (g_pmom gmom0) || out_of_range (g_mmom gmom0)
           = true).
Proof.
  apply (atSigmaFind_codes exp_ref fstate0 flat12 12 12 5 5 10 None d1 (-6)
           st_sigma1 gmom0 d1).
  vm_compute. reflexivity.
Defined.

(** X10.  On an image whose samples all equal [sky], at a location
    that passes the edge test, [lgausmom] finds a zero integral and
    [atFindFocMom] returns -2, with [*ps] untouched. *)
Theorem atFindFocMom_blank_field :
  forall st xsz ysz c x y ps,
    filter_ok st -> (sigmagen st =? d0)%dbl = false ->
    0 <= xsz <= 2 ^ 31 - 1 -> 0 <= ysz <= 2 ^ 31 - 1 ->
    sig_ncut st <= x <= xsz - sig_ncut st - 1 ->
    sig_ncut st <= y <= ysz - sig_ncut st - 1 ->
    atFindFocMom st (flat_image xsz ysz c) xsz ysz x y c ps = Done (-2, ps).
Proof.
  intros st xsz ysz c x y ps Hok Hs Hx Hy Ex Ey.
  pose proof (well_formed_ok _ _ _ _ Hok (flat_image_ok xsz ysz c Hx Hy) Hs) as Wf.
  pose proof Wf as (_ & _ & _ & _ & _ & Hn & _).
  destruct (moment_sums st (flat_image xsz ysz c) x y c) as [t|f] eqn:Em.
  - rewrite (atFindFocMom_flat st xsz ysz c c x y t); auto; try lia.
    rewrite (moment_sums_blank _ _ _ _ _ _ _ Em). reflexivity.
  - exfalso.
    destruct (lgausmom_done st _ xsz ysz c Wf x y gmom0 Hs) as (r & m & E);
      [unfold inside; lia|].
    unfold lgausmom in E. rewrite Hs in E.
    destruct (edge_test st ysz y); [|rewrite Em in E]; discriminate E.
Qed.

Lemma atFindFocMom_blank_field_witness :
  atFindFocMom st_sigma1 (flat_image 12 12 100) 12 12 5 6 100 tent_result
  = Done (-2, tent_result).
Proof.
  apply (atFindFocMom_blank_field st_sigma1 12 12 100 5 6 tent_result);
    [exact filter_ok_sigma1 | reflexivity | lia | lia | cbn; lia | cbn; lia].
Defined.

(** X11.  With a filter whose first-order tap 0 is 0, as every filter
    [atSetFSigma] generates has it, adding a constant to every sample
    of the image and to [sky] changes nothing in what [atFindFocMom]
    returns: the [2*sky] the central ring takes from its
    x-antisymmetric sum never reaches a moment. *)
Theorem atFindFocMom_sky_shift :
  forall st p c xsz ysz x y sky ps,
    cell (xfgarray st) 0 = Some 0 ->
    atFindFocMom st (brighten c p) xsz ysz x y (sky + c) ps
    = atFindFocMom st p xsz ysz x y sky ps.
Proof.
  intros st p c xsz ysz x y sky ps H0.
  apply atFindFocMom_ext. intros. now apply lgausmom_shift.
Qed.

Lemma atFindFocMom_sky_shift_witness :
  atFindFocMom st_sigma1 (brighten 7 star13) 13 13 6 6 (0 + 7) gmom0
  = atFindFocMom st_sigma1 star13 13 13 6 6 0 gmom0.
Proof.
  apply (atFindFocMom_sky_shift st_sigma1 star13 7 13 13 6 6 0 gmom0).
  reflexivity.
Defined.

(** X12.  A starting [*sig] that is not negative and fails the range
    test of [atSetFSigma] (0, or above 12) is not replaced by the
    default guess: [atSigmaFind] returns -1 at once, with the statics,
    [*ps] and [*sig] as they were. *)
Theorem atSigmaFind_rejected_start :
  forall exp st p xsz ysz x y sky ps sig,
    (sig <? i2d 0)%dbl = false ->
    (sig <=? d0)%dbl || (d12 <? sig)%dbl = true ->
    atSigmaFind exp st p xsz ysz x y sky ps sig
    = Done (-1, st, default gmom0 ps, sig).
Proof.
  intros exp st p xsz ysz x y sky ps sig Hneg G.
  unfold atSigmaFind. rewrite Hneg.
  change (Z.to_nat SIGITERAT) with 10%nat. cbn [sigma_loop].
  unfold sigma_body, atSetFSigma. rewrite G. reflexivity.
Qed.

Lemma atSigmaFind_rejected_start_witness :
  atSigmaFind exp_ref st_sigma1 star13 13 13 6 6 0 None d0
  = Done (-1, st_sigma1, default gmom0 None, d0).
Proof.
  apply (atSigmaFind_rejected_start exp_ref st_sigma1 star13 13 13 6 6 0 None d0);
    reflexivity.
Defined.

(** X13.  When [atFindFocMom] returns [r >= 0], the pixel it
    interpolates around, where it found a maximum of the 3x3 grid, lies
    within [r] pixels of the starting guess in rows and in columns, and
    at least [ncut] pixels inside every edge of the image. *)
Theorem atFindFocMom_centre_distance :
  forall st p xsz ysz x y sky ps r ps',
    1 <= sig_ncut st <= SIZFIL ->
    0 <= xsz <= 2 ^ 31 - 1 -> 0 <= ysz <= 2 ^ 31 - 1 ->
    atFindFocMom st p xsz ysz x y sky ps = Done (r, ps') -> 0 <= r ->
    exists x' y' sq' vc sqm,
      relocates st p xsz ysz sky (Z.to_nat r)
        (x, y, replicate 9 gmom0) (x', y', sq')
      /\ attempt st p xsz ysz sky x' y' sq' = Done (TryMax vc sqm)
      /\ fit x' y' r vc sqm ps = (r, ps')
      /\ x - r <= x' <= x + r /\ y - r <= y' <= y + r
      /\ sig_ncut st <= x' <= xsz - sig_ncut st - 1
      /\ sig_ncut st <= y' <= ysz - sig_ncut st - 1.
Proof.
  intros st p xsz ysz x y sky ps r ps' Hn Hx Hy H Hr.
  apply atFindFocMom_inv in H as (res & Hf & Hres).
  apply find_start_inv in Hf as (n & x' & y' & sq' & Hle & Hrel & Hm).
  destruct res as [| | |xm ym ret vc sqm]; try lia.
  destruct Hm as (Hlt & -> & -> & Hret & Ha).
  pose proof (fit_code x' y' ret vc sqm ps) as Hc. rewrite <- Hres in Hc.
  cbn [fst] in Hc. destruct Hc as [Hc|Hc]; [lia|]. subst r.
  unfold FINDERR in Hret.
  assert (En : Z.to_nat ret = n) by lia.
  exists x', y', sq', vc, sqm. rewrite En.
  split; [exact Hrel|]. split; [exact Ha|]. split; [auto|].
  apply relocates_distance in Hrel; auto.
  apply attempt_edge in Ha; [|lia|assumption|assumption|discriminate]. lia.
Qed.

Lemma atFindFocMom_centre_distance_witness :
  exists x' y' sq' vc sqm,
    relocates st_narrow tent 11 3 0 (Z.to_nat 2)
      (3, 1, replicate 9 gmom0) (x', y', sq')
    /\ attempt st_narrow tent 11 3 0 x' y' sq' = Done (TryMax vc sqm)
    /\ fit x' y' 2 vc sqm gmom0 = (2, tent_result)
    /\ 3 - 2 <= x' <= 3 + 2 /\ 1 - 2 <= y' <= 1 + 2
    /\ sig_ncut st_narrow <= x' <= 11 - sig_ncut st_narrow - 1
    /\ sig_ncut st_narrow <= y' <= 3 - sig_ncut st_narrow - 1.
Proof.
  apply (atFindFocMom_centre_distance st_narrow tent 11 3 3 1 0 gmom0 2
           tent_result);
    [unfold SIZFIL; cbn; lia | lia | lia | vm_compute; reflexivity | lia].
Defined.

(** X14.  When [atSigmaFind] returns 0, the moments in [*ps] are the
    ones [atFindFocMom] computes with the filter left in the statics,
    whose [sigmagen] is the sigma the last pass started from.  The
    [*sig] returned is that sigma when the first test ended the loop,
    and the updated sigma, one step ahead of the filter and of the
    moments, when the second test did. *)
Theorem atSigmaFind_result_filter :
  forall exp st p xsz ysz x y sky ps sig st' ps' sig',
    atSigmaFind exp st p xsz ysz x y sky ps sig = Done (0, st', ps', sig') ->
    exists sig1 ps1 r,
      (sig1 =? sigmagen st')%dbl = true
      /\ 0 <= r
      /\ atFindFocMom st' p xsz ysz x y sky ps1 = Done (r, ps')
      /\ let mom := (g_xmom ps' + g_ymom ps')%flt in
         sig' = if (dabs (f2d mom) <? SIGERR)%dbl then sig1
                else (sig1 * dsqrt ((d2 + f2d mom) / f2d (i2f 2 - mom)%flt))%dbl.
Proof.
  intros exp st p xsz ysz x y sky ps sig st' ps' sig' H.
  unfold atSigmaFind in H.
  apply sigma_loop_inv in H
    as [(k & st1 & ps1 & sig1 & r & _ & _ & Hb & [[Hr Hc]|Hr])|[_ Hc]];
    [subst r| |discriminate Hc].
  - pose proof (sigma_body_tests _ _ _ _ _ _ _ _ _ _ _ _ _ _ Hb) as (_ & Hs);
      [discriminate|].
    apply sigma_body_break in Hb as (Ha & err & He & Hf).
    exists sig1, ps1, err. split; [eapply sigmagen_after; eauto|].
    split; [exact He|]. split; [exact Hf|exact Hs].
  - subst r. apply sigma_body_return in Hb. lia.
Qed.

Lemma atSigmaFind_result_filter_witness :
  exists sig1 ps1 r,
    (sig1 =? sigmagen star_run.1.1.2)%dbl = true
    /\ 0 <= r
    /\ atFindFocMom star_run.1.1.2 star13 13 13 6 6 0 ps1
       = Done (r, star_run.1.2)
    /\ let mom := (g_xmom star_run.1.2 + g_ymom star_run.1.2)%flt in
       star_run.2
       = if (dabs (f2d mom) <? SIGERR)%dbl then sig1
         else (sig1 * dsqrt ((d2 + f2d mom) / f2d (i2f 2 - mom)%flt))%dbl.
Proof.
  apply (atSigmaFind_result_filter exp_ref fstate0 star13 13 13 6 6 0 None d0_9).
  vm_compute. reflexivity.
Defined.

(** X15.  [atSigmaFind] never reads [*ps] before it has been written:
    run with another content of [*ps], it returns the same value, the
    same statics and [*sig], and the same [*ps], except that a run that
    returns an error may leave [*ps] as it was given, in both runs.  So
    the local [gmom] it uses for a null [ps] is never read
    uninitialised. *)
Theorem atSigmaFind_ps_unread :
  forall exp st p xsz ysz x y sky ps ps2 sig c st' ps' sig',
    atSigmaFind exp st p xsz ysz x y sky (Some ps) sig
    = Done (c, st', ps', sig') ->
    atSigmaFind exp st p xsz ysz x y sky (Some ps2) sig
    = Done (c, st', ps', sig')
    \/ (c < 0 /\ ps' = ps
        /\ atSigmaFind exp st p xsz ysz x y sky (Some ps2) sig
           = Done (c, st', ps2, sig')).
Proof.
  intros exp st p xsz ysz x y sky ps ps2 sig c st' ps' sig' H.
  unfold atSigmaFind in *. cbn [default] in *.
  now apply sigma_loop_fresh.
Qed.

Lemma atSigmaFind_ps_unread_witness :
  atSigmaFind exp_ref fstate0 star13 13 13 6 6 0 (Some tent_result) d0_9
  = Done (star_run.1.1.1, star_run.1.1.2, star_run.1.2, star_run.2)
  \/ (star_run.1.1.1 < 0 /\ star_run.1.2 = gmom0
      /\ atSigmaFind exp_ref fstate0 star13 13 13 6 6 0 (Some tent_result) d0_9
         = Done (star_run.1.1.1, star_run.1.1.2, tent_result, star_run.2)).
Proof.
  apply (atSigmaFind_ps_unread exp_ref fstate0 star13 13 13 6 6 0 gmom0
           tent_result d0_9).
  vm_compute. reflexivity.
Defined.

(** X16.  Along the relocations of [atFindFocMom] the [filval] that
    [lgausmom] returns at the centre goes strictly up: after one or
    more relocations it is above the one at the starting guess, and the
    search is not back at the pixel it started from. *)
Theorem atFindFocMom_ascent :
  forall st p xsz ysz sky n x y sq x' y' sq',
    1 <= sig_ncut st <= SIZFIL ->
    0 <= xsz <= 2 ^ 31 - 1 -> 0 <= ysz <= 2 ^ 31 - 1 ->
    (0 < n)%nat ->
    relocates st p xsz ysz sky n (x, y, sq) (x', y', sq') ->
    (exists ps0 ps1 m m',
        lgausmom st p xsz ysz x y sky ps0 = Done (0, m, None)
        /\ lgausmom st p xsz ysz x' y' sky ps1 = Done (0, m', None)
        /\ (g_filval m <? g_filval m')%flt = true)
    /\ (x' <> x \/ y' <> y).
Proof.
  intros st p xsz ysz sky n x y sq x' y' sq' Hn Hx Hy Hpos H.
  destruct n as [|n]; [lia|].
  destruct (relocates_ascent _ _ _ _ _ _ _ _ _ _ _ _ Hn Hx Hy H)
    as (ps0 & ps1 & m & m' & E0 & E1 & L).
  split; [eauto 8|].
  destruct (Z.eq_dec x' x) as [->|]; [|auto].
  destruct (Z.eq_dec y' y) as [->|]; [|auto].
  exfalso.
  destruct (lgausmom_filval_ps _ _ _ _ _ _ _ _ ps1 _ E0) as (m2 & E2 & F).
  assert (m2 = m') by congruence. subst m2.
  rewrite <- F, flt_irrefl in L. discriminate L.
Qed.

Lemma atFindFocMom_ascent_witness :
  (exists ps0 ps1 m m',
      lgausmom st_narrow tent 11 3 3 1 0 ps0 = Done (0, m, None)
      /\ lgausmom st_narrow tent 11 3 5 1 0 ps1 = Done (0, m', None)
      /\ (g_filval m <? g_filval m')%flt = true)
  /\ (5 <> 3 \/ 1 <> 1).
Proof.
  eapply (atFindFocMom_ascent st_narrow tent 11 3 0 2 3 1 (replicate 9 gmom0) 5 1);
    [unfold SIZFIL; cbn; lia | lia | lia | lia | ].
  eapply relocates_S; [vm_compute; reflexivity|].
  eapply relocates_S; [vm_compute; reflexivity|].
  apply relocates_O.
Defined.
